(** * Blogger editor widget: HTML exporter, URL validator and statistics

    A shallow embedding of the pure core of the widget:
    - [utils.js]: [escapeHTML], [escapeAttribute], [validateURL],
      [normalizeText], [containsCJK], [countCJK];
    - [export.js]: [generateCleanHTML] and its node processors;
    - [stats.js]: [calculateStats], [calculateWordCount].

    JavaScript strings are sequences of UTF-16 code units, so a string is a
    list of [N]; the regular expressions of the sources are all character
    classes over single code units and are modelled as boolean predicates on
    a code unit.  The two built-ins the code calls and that are not part of
    the repository, the [URL] constructor and [String.prototype.toLowerCase],
    are operations of a [Host]. *)

From Stdlib Require Import NArith ZArith String Ascii List Bool Lia.
From Stdlib Require Import Permutation Sorted.
Import ListNotations.

Local Open Scope N_scope.

(** ** JavaScript values and strings *)

Module JS.

(** A string: its UTF-16 code units. *)
Definition jsstring := list N.

(** A string literal of the source: its ASCII characters as code units. *)
Definition lit (s : string) : jsstring :=
  map N_of_ascii (list_ascii_of_string s).

(** The values a caller can pass where the code expects a string.  Of a
    number the code only asks whether it is one and whether it is 3, so a
    number is an integer here; objects are not told apart. *)
Inductive jsval : Type :=
| JUndefined
| JNull
| JBool (b : bool)
| JNum (z : Z)
| JStr (s : jsstring)
| JObject.

(** Strict equality of two strings. *)
Fixpoint jseqb (a b : jsstring) : bool :=
  match a, b with
  | [], [] => true
  | x :: a', y :: b' => (x =? y) && jseqb a' b'
  | _, _ => false
  end.

(** Truthiness of a string: only the empty string is falsy. *)
Definition truthy (s : jsstring) : bool :=
  match s with [] => false | _ :: _ => true end.

(** [\s] of a regular expression, and the characters [trim] removes:
    WhiteSpace and LineTerminator of ECMAScript. *)
Definition is_space (c : N) : bool :=
  ((9 <=? c) && (c <=? 13)) || (c =? 32) || (c =? 160) || (c =? 0x1680)
  || ((0x2000 <=? c) && (c <=? 0x200A))
  || (c =? 0x2028) || (c =? 0x2029) || (c =? 0x202F) || (c =? 0x205F)
  || (c =? 0x3000) || (c =? 0xFEFF).

Fixpoint dropWhile (p : N -> bool) (s : jsstring) : jsstring :=
  match s with
  | [] => []
  | c :: s' => if p c then dropWhile p s' else s
  end.

Definition trimStart (s : jsstring) : jsstring := dropWhile is_space s.
Definition trimEnd (s : jsstring) : jsstring :=
  rev (dropWhile is_space (rev s)).
Definition trim (s : jsstring) : jsstring := trimEnd (trimStart s).

Fixpoint startsWith (pat s : jsstring) : bool :=
  match pat, s with
  | [], _ => true
  | p :: pat', c :: s' => (p =? c) && startsWith pat' s'
  | _ :: _, [] => false
  end.

Fixpoint includes (pat s : jsstring) : bool :=
  startsWith pat s ||
  match s with
  | [] => false
  | _ :: s' => includes pat s'
  end.

(** [parts.join(sep)]. *)
Fixpoint join (sep : jsstring) (parts : list jsstring) : jsstring :=
  match parts with
  | [] => []
  | [p] => p
  | p :: ps => p ++ sep ++ join sep ps
  end.

(** [s.replace(/[class]/g, f)] for a class of single code units: every
    code unit of the class is replaced by what [f] returns for it. *)
Definition replaceAll (class : N -> bool) (f : N -> jsstring)
    (s : jsstring) : jsstring :=
  flat_map (fun c => if class c then f c else [c]) s.

(** [Array.prototype.filter(Boolean)] on an array of strings. *)
Definition filterBoolean (l : list jsstring) : list jsstring :=
  filter truthy l.

(** The result of [new URL(s)] as far as the code reads it. *)
Record URL : Type := { protocol : jsstring; href : jsstring }.

(** The built-ins of the platform: [URL_new s] is [None] when
    [new URL(s)] throws. *)
Class Host : Type := {
  URL_new : jsstring -> option URL;
  toLowerCase : jsstring -> jsstring
}.

(** ASCII lower-casing of a code unit. *)
Definition ascii_lower (c : N) : N :=
  if (65 <=? c) && (c <=? 90) then c + 32 else c.

Definition is_ascii (c : N) : bool := c <? 128.

(** What [toLowerCase] does to an ASCII prefix of its argument. *)
Definition lowers_ascii (H : Host) : Prop :=
  forall a b : jsstring,
    forallb is_ascii a = true ->
    firstn (length a) (toLowerCase (a ++ b)) = map ascii_lower a.

End JS.
Import JS.

(** ** utils.js *)

Module Utils.

(** [REGEX.htmlEntities]: the class of the ampersand, the two angle
    brackets, the double quote and the apostrophe, with the [g] flag. *)
Definition htmlEntities (c : N) : bool :=
  (c =? 38) || (c =? 60) || (c =? 62) || (c =? 34) || (c =? 39).

(** [HTML_ENTITY_MAP[char]]; a key that is not in the object reads
    [undefined], which [replace] turns into the string "undefined". *)
Definition HTML_ENTITY_MAP (c : N) : jsstring :=
  if c =? 38 then lit "&amp;"
  else if c =? 60 then lit "&lt;"
  else if c =? 62 then lit "&gt;"
  else if c =? 34 then lit "&quot;"
  else if c =? 39 then lit "&#39;"
  else lit "undefined".

Definition escapeHTML (str : jsval) : jsstring :=
  match str with
  | JStr s => replaceAll htmlEntities HTML_ENTITY_MAP s
  | _ => []
  end.

(** [s.replace(/c/g, rep)] for one character [c]. *)
Definition replaceChar (c : N) (rep : jsstring) (s : jsstring) : jsstring :=
  replaceAll (N.eqb c) (fun _ => rep) s.

Definition escapeAttribute (str : jsval) : jsstring :=
  match str with
  | JStr s =>
      replaceChar 62 (lit "&gt;")
        (replaceChar 60 (lit "&lt;")
          (replaceChar 39 (lit "&#39;")
            (replaceChar 34 (lit "&quot;")
              (replaceChar 38 (lit "&amp;") s))))
  | _ => []
  end.

(** The object [validateURL] returns; [error] is absent on success. *)
Record URLResult : Type := {
  valid : bool;
  url : jsstring;
  error : option jsstring
}.

Definition invalid (msg : string) : URLResult :=
  {| valid := false; url := []; error := Some (lit msg) |}.

Definition allowedProtocols : list jsstring :=
  [lit "http:"; lit "https:"; lit "mailto:"].

Definition includesStr (l : list jsstring) (x : jsstring) : bool :=
  existsb (jseqb x) l.

Section WithHost.
Context {H : Host}.

Definition validateURL (u : jsval) : URLResult :=
  match u with
  | JStr s =>
      if negb (truthy s) then invalid "URL is required"
      else
        let trimmed := trim s in
        let lower := toLowerCase trimmed in
        if startsWith (lit "javascript:") lower
           || startsWith (lit "data:") lower
           || startsWith (lit "vbscript:") lower
        then invalid "Invalid URL protocol"
        else
          match URL_new trimmed with
          | Some parsed =>
              if negb (includesStr allowedProtocols (protocol parsed))
              then
                invalid "Only HTTP, HTTPS, and mailto links are allowed"
              else
                {| valid := true; url := href parsed; error := None |}
          | None =>
              if negb (includes (lit "://") trimmed)
                 && negb (startsWith (lit "mailto:") trimmed)
              then
                match URL_new (lit "https://" ++ trimmed) with
                | Some parsed =>
                    {| valid := true; url := href parsed; error := None |}
                | None => invalid "Invalid URL format"
                end
              else invalid "Invalid URL format"
          end
  | _ => invalid "URL is required"
  end.
End WithHost.

(** [REGEX.zeroWidth]: the class of U+200B to U+200D and U+FEFF, with
    the [g] flag. *)
Definition zeroWidth (c : N) : bool :=
  ((0x200B <=? c) && (c <=? 0x200D)) || (c =? 0xFEFF).

Definition normalizeText (text : jsval) : jsstring :=
  match text with
  | JStr s => replaceAll zeroWidth (fun _ => []) s
  | _ => []
  end.

(** [REGEX.cjk], a character class with the [g] flag. *)
Definition cjk (c : N) : bool :=
  ((0x4e00 <=? c) && (c <=? 0x9fff))
  || ((0x3400 <=? c) && (c <=? 0x4dbf))
  || ((0x3040 <=? c) && (c <=? 0x309f))
  || ((0x30a0 <=? c) && (c <=? 0x30ff))
  || ((0xac00 <=? c) && (c <=? 0xd7af)).

(** [REGEX.cjk] is one object with the [g] flag, shared by [containsCJK]
    and [countCJK]: its [lastIndex] is the only state of the module. *)
Definition regex_state := nat.

(** The index of the first code unit of the class at or after [from]. *)
Fixpoint search (class : N -> bool) (s : jsstring) (from pos : nat)
    : option nat :=
  match s with
  | [] => None
  | c :: s' =>
      if (from <=? pos)%nat && class c then Some pos
      else search class s' from (S pos)
  end.

(** [REGEX.cjk.test(text)]: the search starts at [lastIndex]; a match
    leaves [lastIndex] just after it, a failure resets it to 0. *)
Definition test_g (class : N -> bool) (lastIndex : regex_state)
    (s : jsstring) : bool * regex_state :=
  if (length s <? lastIndex)%nat then (false, O)
  else
    match search class s lastIndex O with
    | Some i => (true, S i)
    | None => (false, O)
    end.

Definition containsCJK (lastIndex : regex_state) (text : jsval)
    : bool * regex_state :=
  match text with
  | JStr s => test_g cjk lastIndex s
  | _ => (false, lastIndex)
  end.

(** [text.match(REGEX.cjk)]: with the [g] flag [match] starts from 0
    whatever [lastIndex] was, collects every match, and leaves 0. *)
Definition match_g (class : N -> bool) (s : jsstring)
    : option (list jsstring) :=
  match filter class s with
  | [] => None
  | ms => Some (map (fun c => [c]) ms)
  end.

Definition countCJK (lastIndex : regex_state) (text : jsval)
    : nat * regex_state :=
  match text with
  | JStr s =>
      (match match_g cjk s with
       | Some matches => length matches
       | None => O
       end, O)
  | _ => (O, lastIndex)
  end.

End Utils.
Import Utils.

(** ** export.js *)

Module Exporter.

#[local] Unset Elimination Schemes.

(** An inline mark.  [mattrs] is [None] when [mark.attrs] is missing or
    falsy, and otherwise holds what [mark.attrs.href] reads
    ([JUndefined] when the object has no such field). *)
Record mark : Type := { mtype : jsstring; mattrs : option jsval }.

(** A document node, as the editing framework hands it over.
    - [ntype]: the [type] field; the empty string stands for a missing or
      falsy type, any other unrecognised value for itself;
    - [ncontent]: [Some] of the children when [content] is an array,
      [None] when it is missing or not an array;
    - [nattrs]: [None] when [attrs] is missing or falsy, otherwise what
      [attrs.level] reads;
    - [ntext]: [Some] when [typeof text === 'string'];
    - [nmarks]: [Some] when [marks] is an array.
    The elements of [content] and of [marks] are objects, as the framework
    produces them. *)
Inductive node : Type := Node {
  ntype : jsstring;
  ncontent : option (list node);
  nattrs : option jsval;
  ntext : option jsstring;
  nmarks : option (list mark)
}.
#[local] Set Elimination Schemes.

Definition dquote : jsstring := [34].
Definition nl : jsstring := [10].

(** Truthiness of a value read from an attribute. *)
Definition truthy_val (v : jsval) : bool :=
  match v with
  | JUndefined | JNull => false
  | JBool b => b
  | JNum z => negb (z =? 0)%Z
  | JStr s => truthy s
  | JObject => true
  end.

(** [order.indexOf(x)]: the first index holding [x], or -1. *)
Fixpoint indexOf_from (i : Z) (l : list jsstring) (x : jsstring) : Z :=
  match l with
  | [] => (-1)%Z
  | y :: l' => if jseqb y x then i else indexOf_from (i + 1)%Z l' x
  end.

Definition indexOf (l : list jsstring) (x : jsstring) : Z :=
  indexOf_from 0%Z l x.

Definition order : list jsstring :=
  [lit "link"; lit "bold"; lit "italic"; lit "code"].

(** The comparator handed to [sort]. *)
Definition compareMarks (a b : mark) : Z :=
  (indexOf order (mtype a) - indexOf order (mtype b))%Z.

(** [Array.prototype.sort] is stable and, for a comparator that is a
    difference of keys, returns the one stable sorted arrangement;
    insertion from the right computes it. *)
Fixpoint insert {A : Type} (cmp : A -> A -> Z) (x : A) (l : list A)
    : list A :=
  match l with
  | [] => [x]
  | y :: l' => if (cmp x y <=? 0)%Z then x :: l else y :: insert cmp x l'
  end.

Definition sort {A : Type} (cmp : A -> A -> Z) (l : list A) : list A :=
  fold_right (insert cmp) [] l.

(** [c ? [s] : []]: what a guarded [parts.push(s)] adds. *)
Definition pushIf (s : jsstring) : list jsstring :=
  if truthy s then [s] else [].

Section WithHost.
Context {H : Host}.

(** One turn of the loop over the sorted marks: [open.push] appends,
    [close.unshift] prepends. *)
Definition markStep (oc : list jsstring * list jsstring) (m : mark)
    : list jsstring * list jsstring :=
  let (open, close) := oc in
  if jseqb (mtype m) (lit "bold") then
    (open ++ [lit "<strong>"], lit "</strong>" :: close)
  else if jseqb (mtype m) (lit "italic") then
    (open ++ [lit "<em>"], lit "</em>" :: close)
  else if jseqb (mtype m) (lit "code") then
    (open ++ [lit "<code>"], lit "</code>" :: close)
  else if jseqb (mtype m) (lit "link") then
    let href :=
      match mattrs m with
      | Some v => if truthy_val v then v else JStr []
      | None => JStr []
      end in
    let validation := validateURL href in
    if valid validation then
      (open ++ [lit "<a href=" ++ dquote
                  ++ escapeAttribute (JStr (url validation))
                  ++ dquote ++ lit ">"],
       lit "</a>" :: close)
    else (open, close)
  else (open, close).

Definition processText (n : node) : jsstring :=
  if negb (jseqb (ntype n) (lit "text")) then []
  else
    match ntext n with
    | None => []
    | Some t =>
        let text := escapeHTML (JStr t) in
        match nmarks n with
        | None | Some [] => text
        | Some ms =>
            let sorted := sort compareMarks ms in
            let (open, close) := fold_left markStep sorted ([], []) in
            join [] open ++ text ++ join [] close
        end
    end.

Definition processInline (content : option (list node)) : jsstring :=
  match content with
  | None => []
  | Some c => join [] (map processText c)
  end.

Definition processParagraph (n : node) : jsstring :=
  let content := processInline (ncontent n) in
  if negb (truthy content) || negb (truthy (trim content)) then []
  else lit "<p>" ++ content ++ lit "</p>".

Definition processHeading (n : node) : jsstring :=
  let level :=
    match nattrs n with
    | Some (JNum z) => z
    | _ => 2%Z
    end in
  let tag := if (level =? 3)%Z then lit "h3" else lit "h2" in
  let content := processInline (ncontent n) in
  if negb (truthy content) || negb (truthy (trim content)) then []
  else lit "<" ++ tag ++ lit ">" ++ content ++ lit "</" ++ tag ++ lit ">".

(** The three processors that call [processNode] back, over the
    recursive call they make. *)
Section Recursive.
Variable processNode : node -> jsstring.

Definition processBulletList_ (n : node) : jsstring :=
  match ncontent n with
  | None | Some [] => []
  | Some c =>
      match filterBoolean (map processNode c) with
      | [] => []
      | items => lit "<ul>" ++ nl ++ join nl items ++ nl ++ lit "</ul>"
      end
  end.

Definition processListItem_ (n : node) : jsstring :=
  match ncontent n with
  | None => []
  | Some c =>
      let parts :=
        flat_map (fun child =>
          if jseqb (ntype child) (lit "paragraph") then
            pushIf (processInline (ncontent child))
          else if jseqb (ntype child) (lit "bulletList") then
            pushIf (processBulletList_ child)
          else pushIf (processNode child)) c in
      match parts with
      | [] => []
      | _ => lit "<li>" ++ join [] parts ++ lit "</li>"
      end
  end.

Definition processBlockquote_ (n : node) : jsstring :=
  match ncontent n with
  | None => []
  | Some c =>
      let parts :=
        flat_map (fun child =>
          if jseqb (ntype child) (lit "paragraph") then
            pushIf (processInline (ncontent child))
          else pushIf (processNode child)) c in
      match parts with
      | [] => []
      | _ => lit "<blockquote>" ++ join (lit "<br>") parts
               ++ lit "</blockquote>"
      end
  end.
End Recursive.

Fixpoint processNode (n : node) : jsstring :=
  if negb (truthy (ntype n)) then []
  else if jseqb (ntype n) (lit "paragraph") then processParagraph n
  else if jseqb (ntype n) (lit "heading") then processHeading n
  else if jseqb (ntype n) (lit "bulletList") then
    processBulletList_ processNode n
  else if jseqb (ntype n) (lit "listItem") then
    processListItem_ processNode n
  else if jseqb (ntype n) (lit "blockquote") then
    processBlockquote_ processNode n
  else if jseqb (ntype n) (lit "text") then processText n
  else
    match ncontent n with
    | Some c => join [] (filterBoolean (map processNode c))
    | None => []
    end.

Definition processBulletList := processBulletList_ processNode.
Definition processListItem := processListItem_ processNode.
Definition processBlockquote := processBlockquote_ processNode.

(** [json] is [None] for a falsy argument. *)
Definition generateCleanHTML (json : option node) : jsstring :=
  match json with
  | None => []
  | Some root =>
      match ncontent root with
      | None => []
      | Some c => join nl (flat_map (fun n => pushIf (processNode n)) c)
      end
  end.
End WithHost.

End Exporter.
Import Exporter.

(** ** stats.js *)

Module Stats.

Record StatsResult : Type := {
  words : nat;
  characters : nat;
  readingTimeMinutes : nat
}.

Definition WORDS_PER_MINUTE : nat := 200.

(** [text.split(/\s+/)]: the pieces between the maximal runs of white
    space, with an empty piece before a leading run and after a trailing
    one.  [in_sep] says that the previous code unit was white space,
    [cur] holds the piece being read, in reverse. *)
Fixpoint split_go (in_sep : bool) (cur : jsstring) (s : jsstring)
    : list jsstring :=
  match s with
  | [] => [rev cur]
  | c :: s' =>
      if is_space c then
        if in_sep then split_go true [] s'
        else rev cur :: split_go true [] s'
      else split_go false (c :: cur) s'
  end.

Definition split_WORD_SPLIT (s : jsstring) : list jsstring :=
  split_go false [] s.

(** [Math.ceil(a / b)] on two counts; the quotient of two counts of this
    size is exact enough in double precision for the ceiling to be the
    integer one. *)
Definition ceil_div (a b : nat) : nat := ((a + (b - 1)) / b)%nat.

Definition zeroStats : StatsResult :=
  {| words := 0; characters := 0; readingTimeMinutes := 0 |}.

Definition calculateWordCount (st : regex_state) (text : jsstring)
    : nat * regex_state :=
  if negb (truthy text) then (O, st)
  else
    let (has, st1) := containsCJK st (JStr text) in
    if has then
      let (cjkCount, st2) := countCJK st1 (JStr text) in
      let westernText := replaceAll cjk (fun _ => [32]) text in
      let westernWords := filter truthy (split_WORD_SPLIT westernText) in
      ((cjkCount + length westernWords)%nat, st2)
    else (length (filter truthy (split_WORD_SPLIT text)), st1).

Definition calculateStats (st : regex_state) (text : jsval)
    : StatsResult * regex_state :=
  match text with
  | JStr (_ :: _) =>
      let normalized := normalizeText text in
      let trimmed := trim normalized in
      if negb (truthy trimmed) then (zeroStats, st)
      else
        let chars := length (replaceAll is_space (fun _ => []) trimmed) in
        let (w, st') := calculateWordCount st trimmed in
        ({| words := w; characters := chars;
            readingTimeMinutes := ceil_div w WORDS_PER_MINUTE |}, st')
  | _ => (zeroStats, st)
  end.

End Stats.
Import Stats.

(** ** Reading the exported HTML back

    What a consumer of the exported string sees: text runs and tags.  The
    scanner fails on a text run that holds a raw angle bracket or an
    ampersand that does not start one of the five entities of the exporter,
    and on a tag that is never closed. *)

Module Html.

(** [ALLOWED_TAGS] of the exporter. *)
Definition ALLOWED_TAGS : list jsstring :=
  [lit "p"; lit "h2"; lit "h3"; lit "ul"; lit "li"; lit "strong";
   lit "em"; lit "a"; lit "code"; lit "blockquote"].

(** The entities of [HTML_ENTITY_MAP], after their ampersand. *)
Definition entities : list jsstring :=
  [lit "amp;"; lit "lt;"; lit "gt;"; lit "quot;"; lit "#39;"].

Fixpoint takeWhile (p : N -> bool) (s : jsstring) : jsstring :=
  match s with
  | [] => []
  | c :: s' => if p c then c :: takeWhile p s' else []
  end.

(** The name of a tag from what stands between its angle brackets: a
    leading slash is dropped and the name ends at the first space. *)
Definition tag_name (body : jsstring) : jsstring :=
  let b := match body with
           | c :: b' => if c =? 47 then b' else body
           | [] => []
           end in
  takeWhile (fun c => negb (c =? 32)) b.

Inductive lexstate : Type :=
| InText
| InTag (body : jsstring).

(** [lex st s]: the names of the tags of [s], in order; in [InTag body],
    [body] holds the code units of the open tag read so far, in reverse. *)
Fixpoint lex (st : lexstate) (s : jsstring) : option (list jsstring) :=
  match s with
  | [] => match st with InText => Some [] | InTag _ => None end
  | c :: s' =>
      match st with
      | InText =>
          if c =? 60 then lex (InTag []) s'
          else if c =? 62 then None
          else if c =? 38 then
            if existsb (fun e => startsWith e s') entities
            then lex InText s' else None
          else lex InText s'
      | InTag body =>
          if c =? 62 then
            option_map (cons (tag_name (rev body))) (lex InText s')
          else if c =? 60 then None
          else lex (InTag (c :: body)) s'
      end
  end.

Definition tagsOf (s : jsstring) : option (list jsstring) := lex InText s.

(** The text a run of escaped text stands for: each of the five
    entities read back as its character.  [skip] counts the code units of
    an entity still to pass over. *)
Fixpoint decode_go (skip : nat) (s : jsstring) : jsstring :=
  match s with
  | [] => []
  | c :: s' =>
      match skip with
      | S k => decode_go k s'
      | O =>
          if c =? 38 then
            if startsWith (lit "amp;") s' then 38 :: decode_go 4 s'
            else if startsWith (lit "lt;") s' then 60 :: decode_go 3 s'
            else if startsWith (lit "gt;") s' then 62 :: decode_go 3 s'
            else if startsWith (lit "quot;") s' then 34 :: decode_go 5 s'
            else if startsWith (lit "#39;") s' then 39 :: decode_go 4 s'
            else c :: decode_go 0 s'
          else c :: decode_go 0 s'
      end
  end.

Definition decode (s : jsstring) : jsstring := decode_go 0 s.

(** The tags the exporter writes: [ALLOWED_TAGS] and the line break that
    [processBlockquote] joins its parts with. *)
Definition EMITTED_TAGS : list jsstring := ALLOWED_TAGS ++ [lit "br"].

(** [s] reads back as text and tags, every tag with a name in [allowed]. *)
Definition clean (allowed : list jsstring) (s : jsstring) : Prop :=
  exists ts, tagsOf s = Some ts /\ Forall (fun t => In t allowed) ts.

End Html.
Import Html.

(** ** A host to run the definitions on

    Lower-casing of ASCII letters only, and a constructor that accepts a
    string with a scheme of letters before its first colon, reports the
    lower-cased scheme as the protocol and leaves the rest as it is. *)

Module SimpleHost.

Definition is_alpha (c : N) : bool :=
  ((65 <=? c) && (c <=? 90)) || ((97 <=? c) && (c <=? 122)).

Fixpoint scheme_of (s : jsstring) : option (jsstring * jsstring) :=
  match s with
  | [] => None
  | c :: s' =>
      if c =? 58 then Some ([], s)
      else if is_alpha c then
        match scheme_of s' with
        | Some (sch, rest) => Some (ascii_lower c :: sch, rest)
        | None => None
        end
      else None
  end.

Definition simple_URL (s : jsstring) : option URL :=
  match scheme_of s with
  | Some (c :: sch, rest) =>
      Some {| protocol := c :: sch ++ lit ":"; href := c :: sch ++ rest |}
  | _ => None
  end.

Definition simpleHost : Host :=
  {| URL_new := simple_URL; toLowerCase := map ascii_lower |}.

End SimpleHost.
Import SimpleHost.

(** ** Definitions of the properties *)

Module MarkSpec.

(** The key [sort] compares marks by. *)
Definition key (m : mark) : Z := indexOf order (mtype m).

(** The marks of [l] with key [i], in the order they have in [l]. *)
Definition bucket (i : Z) (l : list mark) : list mark :=
  filter (fun m => (key m =? i)%Z) l.

(** The keys [indexOf] can return on [order], in increasing order. *)
Definition keys : list Z := [-1; 0; 1; 2; 3]%Z.

Definition has_type (ty : jsstring) (m : mark) : bool := jseqb (mtype m) ty.

(** A mark whose type is one of [order]. *)
Definition listed (m : mark) : bool :=
  existsb (fun ty => has_type ty m) order.

(** The argument [processText] hands to [validateURL] for a link mark. *)
Definition linkHref (m : mark) : jsval :=
  match mattrs m with
  | Some v => if truthy_val v then v else JStr []
  | None => JStr []
  end.

(** The node [n] with [ms] for its marks. *)
Definition with_marks (n : node) (ms : list mark) : node :=
  Node (ntype n) (ncontent n) (nattrs n) (ntext n) (Some ms).

(** The types of [order] that some mark of [ms] has, in the order of
    [order]. *)
Definition present (ms : list mark) : list jsstring :=
  filter (fun ty => existsb (has_type ty) ms) order.

Section WithHost.
Context {H : Host}.

(** The opening and the closing tag a mark contributes, if any. *)
Definition emits (m : mark) : option (jsstring * jsstring) :=
  if has_type (lit "bold") m then Some (lit "<strong>", lit "</strong>")
  else if has_type (lit "italic") m then Some (lit "<em>", lit "</em>")
  else if has_type (lit "code") m then Some (lit "<code>", lit "</code>")
  else if has_type (lit "link") m then
    let v := validateURL (linkHref m) in
    if valid v then
      Some (lit "<a href=" ++ dquote ++ escapeAttribute (JStr (url v))
              ++ dquote ++ lit ">", lit "</a>")
    else None
  else None.

Definition emitted (l : list mark) : list (jsstring * jsstring) :=
  flat_map (fun m => match emits m with Some oc => [oc] | None => [] end) l.

(** The opening tag for the mark of type [ty] among [ms]; the anchor
    carries the validated address of the link mark. *)
Definition openingTag (ms : list mark) (ty : jsstring) : jsstring :=
  if jseqb ty (lit "bold") then lit "<strong>"
  else if jseqb ty (lit "italic") then lit "<em>"
  else if jseqb ty (lit "code") then lit "<code>"
  else if jseqb ty (lit "link") then
    match find (has_type (lit "link")) ms with
    | Some m =>
        lit "<a href=" ++ dquote
          ++ escapeAttribute (JStr (url (validateURL (linkHref m))))
          ++ dquote ++ lit ">"
    | None => []
    end
  else [].
End WithHost.

(** The closing tag for a mark of type [ty]. *)
Definition closingTag (ty : jsstring) : jsstring :=
  if jseqb ty (lit "link") then lit "</a>"
  else if jseqb ty (lit "bold") then lit "</strong>"
  else if jseqb ty (lit "italic") then lit "</em>"
  else if jseqb ty (lit "code") then lit "</code>"
  else [].

End MarkSpec.
Import MarkSpec.

Module UrlSpec.

(** The three prefixes [validateURL] blocks before parsing. *)
Definition blockedPrefixes : list jsstring :=
  [lit "javascript:"; lit "data:"; lit "vbscript:"].

(** [t] begins with [pat], the case of ASCII letters apart. *)
Definition startsWith_ci (pat t : jsstring) : bool :=
  startsWith pat (map ascii_lower t).

(** An invalid result: no URL and a message. *)
Definition rejected (r : URLResult) : Prop :=
  valid r = false /\ url r = [] /\ exists e, error r = Some e /\ e <> [].

End UrlSpec.
Import UrlSpec.

(** ** Sample values *)

Module Samples.

Definition plainMark (ty : string) : mark :=
  {| mtype := lit ty; mattrs := None |}.

Definition linkMark (href : string) : mark :=
  {| mtype := lit "link"; mattrs := Some (JStr (lit href)) |}.

Definition textNode (t : string) (ms : option (list mark)) : node :=
  Node (lit "text") None None (Some (lit t)) ms.

Definition block (ty : string) (children : list node) : node :=
  Node (lit ty) (Some children) None None None.

(** A document whose only block is a quotation of two paragraphs. *)
Definition quoteDoc : node :=
  block "doc"
    [block "blockquote"
       [block "paragraph" [textNode "a" None];
        block "paragraph" [textNode "b" None]]].

(** A text node with three marks, out of the canonical order. *)
Definition markedText : node :=
  textNode "a<b"
    (Some [plainMark "code"; linkMark "http://x.com/"; plainMark "bold"]).

(** A list item and a block quotation that hold one blank paragraph. *)
Definition blankItem : node :=
  block "listItem" [block "paragraph" [textNode " " None]].

Definition blankQuote : node :=
  block "blockquote" [block "paragraph" [textNode " " None]].

End Samples.
Import Samples.

Module WalkSpec.

(** Empty, or nothing but white space. *)
Definition blank (s : jsstring) : Prop := trim s = [].

Section WithHost.
Context {H : Host}.

(** What a child of a list item contributes to the item. *)
Definition listItemPart (child : node) : jsstring :=
  if jseqb (ntype child) (lit "paragraph") then
    processInline (ncontent child)
  else if jseqb (ntype child) (lit "bulletList") then
    processBulletList child
  else processNode child.

(** What a child of a block quotation contributes to it. *)
Definition blockquotePart (child : node) : jsstring :=
  if jseqb (ntype child) (lit "paragraph") then
    processInline (ncontent child)
  else processNode child.
End WithHost.

End WalkSpec.
Import WalkSpec.

Module StatsSpec.

(** The number of CJK characters of a text. *)
Definition count_cjk (s : jsstring) : nat := length (filter cjk s).

Definition has_cjk (s : jsstring) : bool := existsb cjk s.

(** The text with every CJK character replaced by a space. *)
Definition cjk_to_space (s : jsstring) : jsstring :=
  map (fun c => if cjk c then 32 else c) s.

(** The text without its zero-width characters. *)
Definition strip_zero_width (s : jsstring) : jsstring :=
  filter (fun c => negb (zeroWidth c)) s.

(** The non-empty tokens that white space delimits: the maximal runs of
    code units that are not white space.  [cur] is the run being read, in
    reverse. *)
Fixpoint tokens_go (cur : jsstring) (s : jsstring) : list jsstring :=
  match s with
  | [] => match cur with [] => [] | _ :: _ => [rev cur] end
  | c :: s' =>
      if is_space c then
        match cur with
        | [] => tokens_go [] s'
        | _ :: _ => rev cur :: tokens_go [] s'
        end
      else tokens_go (c :: cur) s'
  end.

Definition tokens (s : jsstring) : list jsstring := tokens_go [] s.

(** [k] words, each followed by a space. *)
Definition words_text (k : nat) : jsstring := concat (repeat (lit "word ") k).

(** Hello, two Han characters, world. *)
Definition mixed_text : jsstring :=
  lit "hello " ++ [0x4F60; 0x597D] ++ lit " world".


(** [REGEX.cjk.lastIndex] when the application has called
    [calculateStats] on the values of [earlier], one after the other; it is
    0 when the module is loaded, and only [calculateWordCount] uses the
    functions that move it. *)
Definition lastIndexAfter (earlier : list jsval) : regex_state :=
  fold_left (fun st v => snd (calculateStats st v)) earlier O.

End StatsSpec.
Import StatsSpec.

Module UrlAccept.

Section WithHost.
Context {H : Host}.

(** What [validateURL] needs of a string [s] to accept it with the parsed
    URL [u]: no blocked prefix, and either the trimmed string parses with an
    allowed protocol, or it does not parse, has no [://], does not start
    with [mailto:], and parses behind [https://]. *)
Definition accepts (s : jsstring) (u : URL) : Prop :=
  s <> []
  /\ Forall (fun pat => startsWith pat (toLowerCase (trim s)) = false)
       blockedPrefixes
  /\ ((URL_new (trim s) = Some u
       /\ includesStr allowedProtocols (protocol u) = true)
      \/ (URL_new (trim s) = None
          /\ includes (lit "://") (trim s) = false
          /\ startsWith (lit "mailto:") (trim s) = false
          /\ URL_new (lit "https://" ++ trim s) = Some u)).
End WithHost.

End UrlAccept.
Import UrlAccept.

Module TrimSpec.

(** A string that neither starts nor ends with white space. *)
Definition clipped (t : jsstring) : Prop :=
  match t with [] => True | c :: _ => is_space c = false end
  /\ match rev t with [] => True | c :: _ => is_space c = false end.

End TrimSpec.
Import TrimSpec.

Module CountSpec.

(** A code unit that is neither white space nor zero-width. *)
Definition visible (c : N) : bool := negb (is_space c) && negb (zeroWidth c).

(** The number of visible code units of a text. *)
Definition count_visible (s : jsstring) : nat := length (filter visible s).

Definition not_space (c : N) : bool := negb (is_space c).

End CountSpec.
Import CountSpec.

(** ** Nesting of the exported tags *)

Module Nesting.

(** A tag as the scanner meets it: an opening tag or a closing tag, with
    its name. *)
Inductive tag : Type :=
| Open (name : jsstring)
| Close (name : jsstring).

(** The tag that stands between two angle brackets: a closing tag when
    it starts with a slash; the name ends at the first space. *)
Definition classify (body : jsstring) : tag :=
  match body with
  | c :: b' =>
      if c =? 47 then Close (takeWhile (fun c => negb (c =? 32)) b')
      else Open (takeWhile (fun c => negb (c =? 32)) body)
  | [] => Open []
  end.

(** The scanner of [Html.lex], keeping for every tag whether it opens or
    closes. *)
Fixpoint lexTags (st : lexstate) (s : jsstring) : option (list tag) :=
  match s with
  | [] => match st with InText => Some [] | InTag _ => None end
  | c :: s' =>
      match st with
      | InText =>
          if c =? 60 then lexTags (InTag []) s'
          else if c =? 62 then None
          else if c =? 38 then
            if existsb (fun e => startsWith e s') entities
            then lexTags InText s' else None
          else lexTags InText s'
      | InTag body =>
          if c =? 62 then
            option_map (cons (classify (rev body))) (lexTags InText s')
          else if c =? 60 then None
          else lexTags (InTag (c :: body)) s'
      end
  end.

Definition tagTokens (s : jsstring) : option (list tag) := lexTags InText s.

(** The check a parser makes with a stack of open elements: a closing tag
    must close the element opened last, [br] opens nothing, and at the end
    nothing is left open. *)
Fixpoint balanced_go (stack : list jsstring) (ts : list tag) : bool :=
  match ts with
  | [] => match stack with [] => true | _ :: _ => false end
  | Open n :: ts' =>
      if jseqb n (lit "br") then balanced_go stack ts'
      else balanced_go (n :: stack) ts'
  | Close n :: ts' =>
      match stack with
      | top :: stack' => jseqb top n && balanced_go stack' ts'
      | [] => false
      end
  end.

(** The string reads back as text and tags, and its tags are balanced. *)
Definition wellNested (s : jsstring) : Prop :=
  exists ts, tagTokens s = Some ts /\ balanced_go [] ts = true.

(** The sequences of tags that are balanced, built from the inside. *)
Inductive nested : list tag -> Prop :=
| nested_nil : nested []
| nested_br (ts : list tag) : nested ts -> nested (Open (lit "br") :: ts)
| nested_elem (n : jsstring) (inner rest : list tag) :
    n <> lit "br" -> nested inner -> nested rest ->
    nested (Open n :: inner ++ Close n :: rest).

Definition nests (s : jsstring) : Prop :=
  exists ts, tagTokens s = Some ts /\ nested ts.

(** The elements the block processors write. *)
Definition blockTags : list jsstring :=
  [lit "p"; lit "h2"; lit "h3"; lit "ul"; lit "li"; lit "blockquote"].

End Nesting.
Import Nesting.

(** ** export.js: the preview *)

Module Display.

(** [s.replace(/(a|b|...)/g, rep)] for alternatives that are literal,
    non-empty strings: the string is read from the left; where an
    alternative stands (the first of the list that does), [rep] of it is
    written and the reading goes on after it.  [skip] counts the code units
    of a match still to pass over. *)
Fixpoint replaceLiterals_go (pats : list jsstring)
    (rep : jsstring -> jsstring) (skip : nat) (s : jsstring) : jsstring :=
  match s with
  | [] => []
  | c :: s' =>
      match skip with
      | S k => replaceLiterals_go pats rep k s'
      | O =>
          match find (fun p => truthy p && startsWith p s) pats with
          | Some p =>
              rep p ++ replaceLiterals_go pats rep (length p - 1) s'
          | None => c :: replaceLiterals_go pats rep 0 s'
          end
      end
  end.

Definition replaceLiterals (pats : list jsstring)
    (rep : jsstring -> jsstring) (s : jsstring) : jsstring :=
  replaceLiterals_go pats rep 0 s.

(** The alternatives of the first expression of [formatHTMLForDisplay],
    in its order. *)
Definition closingBlockTags : list jsstring :=
  [lit "</p>"; lit "</h2>"; lit "</h3>"; lit "</ul>"; lit "</li>";
   lit "</blockquote>"].

(** What a run of [run] line feeds becomes: two when it has three or
    more, itself otherwise. *)
Definition flushNewlines (run : nat) : jsstring :=
  if (3 <=? run)%nat then [10; 10] else repeat 10 run.

(** [s.replace(/\n{3,}/g, '\n\n')]; [run] counts the line feeds read
    since the last other code unit. *)
Fixpoint collapse_go (run : nat) (s : jsstring) : jsstring :=
  match s with
  | [] => flushNewlines run
  | c :: s' =>
      if c =? 10 then collapse_go (S run) s'
      else flushNewlines run ++ c :: collapse_go 0 s'
  end.

Definition collapseNewlines (s : jsstring) : jsstring := collapse_go 0 s.

Definition formatHTMLForDisplay (html : jsval) : jsstring :=
  match html with
  | JStr s =>
      if negb (truthy s) || negb (truthy (trim s)) then []
      else
        let formatted :=
          collapseNewlines
            (replaceLiterals [lit "<li>"] (fun li => lit "  " ++ li)
               (replaceLiterals [lit "<ul>"] (fun ul => ul ++ nl)
                  (replaceLiterals closingBlockTags (fun t => t ++ nl) s)))
        in
        trim formatted
  | _ => []
  end.

(** [HTMLPreviewController]: [element] is [None] when there is no
    element, and otherwise holds the [textContent] of the element;
    [lastHTML] is [None] for [null]. *)
Record preview : Type := {
  element : option jsstring;
  lastHTML : option jsstring
}.

(** [new HTMLPreviewController()]. *)
Definition newPreview : preview := {| element := None; lastHTML := None |}.

(** [initialize(elementId)]: [found] is what [getElementById] returns, the
    text of the element when there is one. *)
Definition initialize (found : option jsstring) (st : preview)
    : preview * bool :=
  ({| element := found; lastHTML := lastHTML st |},
   match found with Some _ => true | None => false end).

Definition sameHTML (last : option jsstring) (html : jsstring) : bool :=
  match last with Some h => jseqb h html | None => false end.

(** [update(html)], for the strings the application passes. *)
Definition update (st : preview) (html : jsstring) : preview :=
  match element st with
  | None => st
  | Some _ =>
      if sameHTML (lastHTML st) html then st
      else
        let f := formatHTMLForDisplay (JStr html) in
        {| element := Some (if truthy f then f else []);
           lastHTML := Some html |}
  end.

Definition destroy (st : preview) : preview :=
  {| element := None; lastHTML := None |}.

End Display.
Import Display.

(** ** utils.js: debounce and retry *)

Module Debounce.

Section WithArgs.
(** What one call hands over: its [this] and its arguments. *)
Variable A : Type.

(** The variables of the closure, [timeoutId] and [lastArgs] (with
    [lastThis]), [None] for [null]; the timers of the host that are set and
    not yet fired or cleared, each with its identifier and the time from
    which it may fire; the next identifier [setTimeout] returns; and the
    calls of [func] made so far, each with the [lastArgs] it was applied
    to, [None] for [func.apply(null, null)]. *)
Record dstate : Type := {
  timeoutId : option nat;
  lastArgs : option A;
  timers : list (nat * nat);
  nextId : nat;
  invoked : list (option A)
}.

Definition start : dstate :=
  {| timeoutId := None; lastArgs := None; timers := []; nextId := O;
     invoked := [] |}.

(** What a program does to the debounced function: it calls it at a
    time, calls [flush], or calls [cancel].  [func] is code of the program
    too, and may do such things itself while it runs: [during] lists what
    the [func] that [flush] calls, should it call it, does before it
    returns. *)
#[warnings="-register-all"]
Inductive action : Type :=
| Call (args : A) (now : nat)
| Flush (during : list action)
| Cancel.

(** What can happen: the program does something, or the host fires a
    timer at a time and the [func] that the callback calls does [during].
    The host fires no timer while [func] runs. *)
Inductive event : Type :=
| Do (a : action)
| Fire (id : nat) (now : nat) (during : list action).

Definition clearTimeout (id : nat) (ts : list (nat * nat)) : list (nat * nat) :=
  filter (fun t => negb (fst t =? id)%nat) ts.

(** The timer [id] is no longer set, and [timeoutId = null]. *)
Definition unset (id : nat) (st : dstate) : dstate :=
  {| timeoutId := None; lastArgs := lastArgs st;
     timers := clearTimeout id (timers st);
     nextId := nextId st; invoked := invoked st |}.

(** [func.apply(lastThis, lastArgs)] begins. *)
Definition applied (args : option A) (st : dstate) : dstate :=
  {| timeoutId := timeoutId st; lastArgs := lastArgs st;
     timers := timers st; nextId := nextId st;
     invoked := invoked st ++ [args] |}.

(** [lastArgs = null; lastThis = null]. *)
Definition forget (st : dstate) : dstate :=
  {| timeoutId := timeoutId st; lastArgs := None;
     timers := timers st; nextId := nextId st; invoked := invoked st |}.

(** One action on the state.  In [flush], [func] runs between the
    reading of [lastArgs] and [lastArgs = null]. *)
Fixpoint act (wait : nat) (a : action) (st : dstate) {struct a} : dstate :=
  match a with
  | Call args now =>
      let ts := match timeoutId st with
                | Some id => clearTimeout id (timers st)
                | None => timers st
                end in
      {| timeoutId := Some (nextId st);
         lastArgs := Some args;
         timers := (nextId st, now + wait)%nat :: ts;
         nextId := S (nextId st);
         invoked := invoked st |}
  | Flush during =>
      match timeoutId st with
      | Some id =>
          match lastArgs st with
          | Some args =>
              forget
                ((fix go (l : list action) (s : dstate) {struct l} : dstate :=
                    match l with
                    | [] => s
                    | a' :: l' => go l' (act wait a' s)
                    end) during (applied (Some args) (unset id st)))
          | None => unset id st
          end
      | None => st
      end
  | Cancel =>
      match timeoutId st with
      | Some id => forget (unset id st)
      | None => st
      end
  end.

(** Actions one after the other. *)
Definition acts (wait : nat) (l : list action) (st : dstate) : dstate :=
  fold_left (fun s a => act wait a s) l st.

(** One event on the state; [None] when the host cannot fire the timer:
    it is not set, or its time has not come.  The callback of a timer sets
    [timeoutId = null], applies [func] to the [lastArgs] of that moment,
    and sets [lastArgs = null] when [func] has returned. *)
Definition step (wait : nat) (st : dstate) (e : event) : option dstate :=
  match e with
  | Do a => Some (act wait a st)
  | Fire id now during =>
      match find (fun t => (fst t =? id)%nat) (timers st) with
      | Some (_, due) =>
          if (due <=? now)%nat then
            Some (forget
                    (acts wait during
                       (applied (lastArgs st) (unset id st))))
          else None
      | None => None
      end
  end.

Fixpoint run (wait : nat) (st : dstate) (es : list event) : option dstate :=
  match es with
  | [] => Some st
  | e :: es' =>
      match step wait st e with
      | Some st' => run wait st' es'
      | None => None
      end
  end.

(** [func] does nothing to the debounced function while it runs. *)
Definition quiet (e : event) : bool :=
  match e with
  | Do (Flush (_ :: _)) => false
  | Fire _ _ (_ :: _) => false
  | _ => true
  end.

(** What a debounce is to do, without timers: the call that waits, with
    its time, and the arguments delivered so far. *)
Definition spec_step (p : option (A * nat) * list A) (e : event)
    : option (A * nat) * list A :=
  match e with
  | Do (Call a t) => (Some (a, t), snd p)
  | Fire _ _ _ | Do (Flush _) =>
      (None, match fst p with
             | Some (a, _) => snd p ++ [a]
             | None => snd p
             end)
  | Do Cancel => (None, snd p)
  end.

Definition waiting (es : list event) : option (A * nat) :=
  fst (fold_left spec_step es (None, [])).

Definition delivered (es : list event) : list A :=
  snd (fold_left spec_step es (None, [])).

(** The state holds what the call that waits needs, and nothing else. *)
Definition agrees (wait : nat) (st : dstate) (w : option (A * nat)) : Prop :=
  match w with
  | None => timeoutId st = None /\ lastArgs st = None /\ timers st = []
  | Some (a, t) =>
      exists id, timeoutId st = Some id /\ lastArgs st = Some a
                 /\ timers st = [(id, (t + wait)%nat)]
  end.
End WithArgs.

End Debounce.

Module Retry.

Section WithOperation.
(** The values and the errors of the operation, and the numbers of the
    host with the product and the power the wait is computed with. *)
Variables (V E num : Type).
Variable mul : num -> num -> num.
Variable pow : num -> nat -> num.

(** How [retry] ends: it returns the value of the operation, or throws
    [lastError], which is [undefined] ([None]) when no attempt was made. *)
Inductive outcome : Type :=
| Returns (v : V)
| Throws (lastError : option E).

(** A call of [onRetry] and the sleep that follows it. *)
Record retried : Type := {
  r_attempt : nat;
  r_wait : num;
  r_error : E
}.

(** The loop from [attempt] on, with [left] turns to go; [operation k] is
    how the [k]-th call of the operation ends. *)
Fixpoint retry_go (operation : nat -> V + E) (delay backoff : num)
    (left attempt : nat) (lastError : option E)
    : outcome * list retried :=
  match left with
  | O => (Throws lastError, [])
  | S left' =>
      match operation attempt with
      | inl v => (Returns v, [])
      | inr error =>
          let (r, log) :=
            retry_go operation delay backoff left' (S attempt) (Some error) in
          (r,
           match left' with
           | O => log
           | S _ =>
               {| r_attempt := attempt;
                  r_wait := mul delay (pow backoff (attempt - 1));
                  r_error := error |} :: log
           end)
      end
  end.

Definition retry (operation : nat -> V + E) (attempts : nat)
    (delay backoff : num) : outcome * list retried :=
  retry_go operation delay backoff attempts 1 None.
End WithOperation.

End Retry.

Module TimingSamples.

(** Two calls in a burst, the timer of the second, a third call and two
    flushes, with a wait of 150; [func] does nothing to the debounced
    function. *)
Definition burst : list (Debounce.event nat) :=
  [Debounce.Do nat (Debounce.Call nat 1 0);
   Debounce.Do nat (Debounce.Call nat 2 100);
   Debounce.Fire nat 1 250 [];
   Debounce.Do nat (Debounce.Call nat 3 300);
   Debounce.Do nat (Debounce.Flush nat []);
   Debounce.Do nat (Debounce.Flush nat [])]%nat.

(** A call, its timer, during which [func] calls the debounced function
    again, and the timer of that call. *)
Definition reentrant : list (Debounce.event nat) :=
  [Debounce.Do nat (Debounce.Call nat 1 0);
   Debounce.Fire nat 0 150 [Debounce.Call nat 2 150];
   Debounce.Fire nat 1 300 []]%nat.

(** An operation that fails twice and then succeeds. *)
Definition thirdTime (k : nat) : nat + nat :=
  if (k <? 3)%nat then inr k else inl (10 * k)%nat.

(** An operation that always fails. *)
Definition neverWorks (k : nat) : nat + nat := inr k.

End TimingSamples.
Import TimingSamples.

(** ** modal.js: the link dialogue *)

Module Modal.

(** What the logic of [LinkModal] reads and writes: whether it is open,
    the value of the address field, the text of the error element ([None]
    when the page has none), the [aria-invalid] mark of the field, whether
    [onConfirm] holds a function, and the addresses [onConfirm] was called
    with. *)
Record modal : Type := {
  isOpen : bool;
  inputValue : jsstring;
  errorText : option jsstring;
  ariaInvalid : bool;
  onConfirm : bool;
  confirmed : list jsstring
}.

(** After the constructor and [initialize]; [hasErrorEl] says whether the
    page has the error element. *)
Definition newModal (hasErrorEl : bool) : modal :=
  {| isOpen := false; inputValue := [];
     errorText := if hasErrorEl then Some [] else None;
     ariaInvalid := false; onConfirm := false; confirmed := [] |}.

Definition showError (message : jsstring) (st : modal) : modal :=
  {| isOpen := isOpen st; inputValue := inputValue st;
     errorText := match errorText st with
                  | Some _ => Some message
                  | None => None
                  end;
     ariaInvalid := true; onConfirm := onConfirm st;
     confirmed := confirmed st |}.

Definition clearError (st : modal) : modal :=
  {| isOpen := isOpen st; inputValue := inputValue st;
     errorText := match errorText st with
                  | Some _ => Some []
                  | None => None
                  end;
     ariaInvalid := false; onConfirm := onConfirm st;
     confirmed := confirmed st |}.

(** [open({ initialValue, onConfirm })]; [callback] says whether a
    function is given. *)
Definition open (initialValue : jsstring) (callback : bool) (st : modal)
    : modal :=
  if isOpen st then st
  else
    clearError
      {| isOpen := true; inputValue := initialValue;
         errorText := errorText st; ariaInvalid := ariaInvalid st;
         onConfirm := callback; confirmed := confirmed st |}.

Definition close (st : modal) : modal :=
  if negb (isOpen st) then st
  else
    {| isOpen := false; inputValue := inputValue st;
       errorText := errorText st; ariaInvalid := ariaInvalid st;
       onConfirm := false; confirmed := confirmed st |}.

Section WithHost.
Context {H : Host}.

Definition handleConfirm (st : modal) : modal :=
  let url := trim (inputValue st) in
  if negb (truthy url) then showError (lit "Please enter a URL") st
  else
    let validation := validateURL (JStr url) in
    if negb (valid validation) then
      showError
        (match error validation with
         | Some e => if truthy e then e else lit "Invalid URL"
         | None => lit "Invalid URL"
         end) st
    else
      close
        {| isOpen := isOpen st; inputValue := inputValue st;
           errorText := errorText st; ariaInvalid := ariaInvalid st;
           onConfirm := onConfirm st;
           confirmed := if onConfirm st
                        then confirmed st ++ [Utils.url validation]
                        else confirmed st |}.

(** The user types: the field takes the value, then [handleInput]. *)
Definition typeInput (value : jsstring) (st : modal) : modal :=
  let st1 :=
    {| isOpen := isOpen st; inputValue := value;
       errorText := errorText st; ariaInvalid := ariaInvalid st;
       onConfirm := onConfirm st; confirmed := confirmed st |} in
  if truthy (trim value) then clearError st1 else st1.

(** What happens to the dialogue: it is opened, the user types, clicks
    Confirm or presses Enter, or clicks Cancel or the overlay or presses
    Escape. *)
Inductive action : Type :=
| Opens (initialValue : jsstring) (callback : bool)
| Types (value : jsstring)
| Confirms
| Cancels.

Definition act (st : modal) (a : action) : modal :=
  match a with
  | Opens v cb => open v cb st
  | Types v => typeInput v st
  | Confirms => handleConfirm st
  | Cancels => close st
  end.

(** An address that [validateURL] returned as valid. *)
Definition validated (u : jsstring) : Prop :=
  exists v, valid (validateURL (JStr v)) = true
            /\ u = Utils.url (validateURL (JStr v)).
End WithHost.

Definition isOpens (a : action) : bool :=
  match a with Opens _ _ => true | _ => false end.

End Modal.

(** * The statistics display of [stats.js]

    [StatsDisplay] writes the three numbers into three elements of the
    page.  [toLocaleString] and the conversion of a number to a string are
    the platform's; the elements are modelled by their [textContent]. *)

Module StatsView.

Section WithLocale.
Variable toLocaleString : Z -> jsstring.
Variable numberToString : Z -> jsstring.

(** [formatNumber] of [utils.js]; a [jsval] number is never [NaN]. *)
Definition formatNumber (num : jsval) : jsstring :=
  match num with
  | JNum z => toLocaleString z
  | _ => lit "0"
  end.

Definition formatReadingTime (minutes : Z) : jsstring :=
  if (minutes <=? 0)%Z then lit "0 min"
  else if (minutes =? 1)%Z then lit "1 min"
  else numberToString minutes ++ lit " min".

(** The three elements, [None] when the page has none, and [lastStats],
    [None] for [null]. *)
Record statsDisplay : Type := {
  wordEl : option jsstring;
  charEl : option jsstring;
  timeEl : option jsstring;
  lastStats : option StatsResult
}.

(** [new StatsDisplay()]. *)
Definition newStatsDisplay : statsDisplay :=
  {| wordEl := None; charEl := None; timeEl := None; lastStats := None |}.

(** [initialize()]: the arguments are what the three calls of
    [getElementById] return. *)
Definition initialize (w c t : option jsstring) (st : statsDisplay)
    : statsDisplay * bool :=
  ({| wordEl := w; charEl := c; timeEl := t; lastStats := lastStats st |},
   match w, c, t with Some _, Some _, Some _ => true | _, _, _ => false end).

Definition unchanged (last : option StatsResult) (stats : StatsResult)
    : bool :=
  match last with
  | Some l =>
      Nat.eqb (words l) (words stats)
      && Nat.eqb (characters l) (characters stats)
      && Nat.eqb (readingTimeMinutes l) (readingTimeMinutes stats)
  | None => false
  end.

(** [el.textContent = text] when the element is there. *)
Definition setText (el : option jsstring) (text : jsstring)
    : option jsstring :=
  match el with Some _ => Some text | None => None end.

(** [update(stats)]; [None] is a [stats] that is [null] or [undefined]. *)
Definition update (st : statsDisplay) (stats : option StatsResult)
    : statsDisplay :=
  match stats with
  | None => st
  | Some s =>
      if unchanged (lastStats st) s then st
      else
        {| wordEl :=
             setText (wordEl st) (formatNumber (JNum (Z.of_nat (words s))));
           charEl :=
             setText (charEl st)
               (formatNumber (JNum (Z.of_nat (characters s))));
           timeEl :=
             setText (timeEl st)
               (formatReadingTime (Z.of_nat (readingTimeMinutes s)));
           lastStats := Some s |}
  end.

(** The last statistics among [us] that are not [null]. *)
Fixpoint lastGiven (us : list (option StatsResult)) (d : option StatsResult)
    : option StatsResult :=
  match us with
  | [] => d
  | Some s :: us' => lastGiven us' (Some s)
  | None :: us' => lastGiven us' d
  end.
End WithLocale.

End StatsView.

(** * Properties *)

(** ** Strings *)

Lemma jseqb_refl (a : jsstring) : jseqb a a = true.
Proof.
  induction a as [|x a IH]; simpl; [reflexivity|].
  now rewrite N.eqb_refl.
Qed.

Lemma jseqb_eq (a b : jsstring) : jseqb a b = true <-> a = b.
Proof.
  split.
  - revert b; induction a as [|x a IH]; intros [|y b]; simpl;
      try discriminate; [reflexivity|].
    intros E. apply andb_prop in E as [E1 E2].
    apply N.eqb_eq in E1. apply IH in E2. congruence.
  - intros ->. apply jseqb_refl.
Qed.

Lemma jseqb_neq (a b : jsstring) : jseqb a b = false <-> a <> b.
Proof.
  rewrite <- jseqb_eq. destruct (jseqb a b); intuition congruence.
Qed.

Lemma startsWith_firstn (pat s : jsstring) :
  startsWith pat s = true <-> firstn (length pat) s = pat.
Proof.
  revert s; induction pat as [|p pat IH]; intros s; simpl.
  - tauto.
  - destruct s as [|c s]; simpl; [split; discriminate|].
    rewrite andb_true_iff, N.eqb_eq, IH. split.
    + intros [-> ->]. reflexivity.
    + intros E. injection E as -> E. auto.
Qed.

Lemma startsWith_app (pat s r : jsstring) :
  startsWith pat s = true -> startsWith pat (s ++ r) = true.
Proof.
  revert s; induction pat as [|p pat IH]; intros [|c s]; simpl;
    try discriminate; auto.
  rewrite !andb_true_iff. intros [E1 E2]. auto.
Qed.

Lemma replaceAll_outside (class : N -> bool) (f : N -> jsstring) (s : jsstring) :
  Forall (fun c => class c = false) s -> replaceAll class f s = s.
Proof.
  unfold replaceAll.
  induction 1 as [|c s Hc _ IH]; simpl; [reflexivity|].
  rewrite Hc. simpl. now rewrite IH.
Qed.

(** ** escapeHTML *)

(** C6, as the specification has it, fails: a string with an apostrophe
    has no raw ampersand or angle bracket, and [escapeHTML] changes it. *)
Lemma escapeHTML_changes_apostrophe :
  Forall (fun c => c <> 38 /\ c <> 60 /\ c <> 62) (lit "it's")
  /\ escapeHTML (JStr (lit "it's")) = lit "it&#39;s"
  /\ escapeHTML (JStr (lit "it's")) <> lit "it's".
Proof.
  split; [|split].
  - repeat constructor; discriminate.
  - reflexivity.
  - discriminate.
Qed.

(** C6, amended: [escapeHTML] returns unchanged every string that holds
    none of the five characters of [REGEX.htmlEntities]: ampersand (38),
    less-than (60), greater-than (62), double quote (34), apostrophe (39). *)
Theorem escapeHTML_plain_unchanged (s : jsstring) :
  Forall (fun c => ~ In c [38; 60; 62; 34; 39]) s ->
  escapeHTML (JStr s) = s.
Proof.
  intros Hs. simpl. apply replaceAll_outside.
  eapply Forall_impl; [|exact Hs]. intros c Hc. simpl in Hc.
  unfold htmlEntities.
  repeat match goal with
         | |- context [c =? ?k] =>
             destruct (N.eqb_spec c k); [exfalso; apply Hc; subst; tauto|]
         end.
  reflexivity.
Qed.

Lemma escapeHTML_plain_unchanged_witness :
  escapeHTML (JStr (lit "a plain string; no markup")) =
  lit "a plain string; no markup".
Proof.
  apply (escapeHTML_plain_unchanged (lit "a plain string; no markup")).
  repeat constructor; simpl; intros F; repeat destruct F as [F|F];
    try discriminate F; exact F.
Defined.

(** ** validateURL *)

Lemma lower_is_ascii (c : N) : is_ascii (ascii_lower c) = true -> is_ascii c = true.
Proof.
  unfold is_ascii, ascii_lower.
  destruct ((65 <=? c) && (c <=? 90)) eqn:E; [|auto].
  rewrite !N.ltb_lt. lia.
Qed.

Lemma startsWith_toLowerCase {H : Host} (pat t : jsstring) :
  lowers_ascii H -> forallb is_ascii pat = true ->
  startsWith_ci pat t = true -> startsWith pat (toLowerCase t) = true.
Proof.
  intros HL Hpat E. unfold startsWith_ci in E.
  apply startsWith_firstn in E. rewrite firstn_map in E.
  apply startsWith_firstn.
  rewrite <- (firstn_skipn (length pat) t).
  set (a := firstn (length pat) t) in *.
  assert (La : length a = length pat)
    by (rewrite <- (length_map ascii_lower a); now f_equal).
  rewrite <- La, HL; [exact E|].
  apply forallb_forall. intros c Hc. apply lower_is_ascii.
  rewrite forallb_forall in Hpat. apply Hpat.
  rewrite <- E. now apply in_map.
Qed.

Lemma rejected_invalid (msg : string) :
  lit msg <> [] -> rejected (invalid msg).
Proof.
  intros Hm. repeat split. exists (lit msg). split; [reflexivity|exact Hm].
Qed.

#[local] Hint Extern 1 (rejected (invalid _)) =>
  apply rejected_invalid; discriminate : core.

(** C2: [validateURL] rejects, with an empty [url] and a message,
    - every input that is not a string or is the empty string;
    - every string whose trimmed form begins, case apart, with
      [javascript:], [data:] or [vbscript:];
    - every string whose trimmed form parses as a URL with a protocol other
      than [http:], [https:] and [mailto:];
    and so it rejects [javascript:alert(1)] and [ftp://x.com].  The host's
    [toLowerCase] lower-cases ASCII, and its [URL] reports [ftp:] when it
    parses [ftp://x.com]. *)
Theorem validateURL_rejects (H : Host) :
  lowers_ascii H ->
  (forall u, URL_new (lit "ftp://x.com") = Some u -> protocol u = lit "ftp:") ->
  (forall v, (forall s, v = JStr s -> s = []) ->
     validateURL v = invalid "URL is required")
  /\ (forall s pat, s <> [] -> In pat blockedPrefixes ->
        startsWith_ci pat (trim s) = true ->
        validateURL (JStr s) = invalid "Invalid URL protocol")
  /\ (forall s u, s <> [] -> URL_new (trim s) = Some u ->
        includesStr allowedProtocols (protocol u) = false ->
        rejected (validateURL (JStr s)))
  /\ rejected (validateURL (JStr (lit "javascript:alert(1)")))
  /\ rejected (validateURL (JStr (lit "ftp://x.com"))).
Proof.
  intros HL Hftp.
  assert (B : forall s pat, s <> [] -> In pat blockedPrefixes ->
        startsWith_ci pat (trim s) = true ->
        validateURL (JStr s) = invalid "Invalid URL protocol").
  { intros s pat Hs Hin E. destruct s as [|c s]; [congruence|].
    unfold validateURL. cbn [truthy negb].
    assert (Hp : forallb is_ascii pat = true)
      by (simpl in Hin; decompose [or] Hin; subst; try reflexivity; tauto).
    apply startsWith_toLowerCase in E; [|exact HL|exact Hp].
    simpl in Hin. decompose [or] Hin; subst; try tauto;
      rewrite E; rewrite ?orb_true_r; reflexivity. }
  split; [|split; [exact B|split; [|split]]].
  - intros v Hv. destruct v as [| |b|z|s|]; try reflexivity.
    rewrite (Hv s eq_refl). reflexivity.
  - intros s u Hs Hu Hp. destruct s as [|c s]; [congruence|].
    unfold validateURL. cbn [truthy negb].
    destruct (_ || _ || _); [auto|].
    rewrite Hu, Hp. simpl. auto.
  - rewrite (B (lit "javascript:alert(1)") (lit "javascript:"));
      [auto|discriminate|simpl; tauto|reflexivity].
  - unfold validateURL.
    change (trim (lit "ftp://x.com")) with (lit "ftp://x.com").
    change (truthy (lit "ftp://x.com")) with true. cbn [negb].
    destruct (_ || _ || _); [auto|].
    destruct (URL_new (lit "ftp://x.com")) as [u|] eqn:E.
    + rewrite (Hftp u eq_refl). simpl. auto.
    + simpl. auto.
Qed.

Lemma simpleHost_lowers_ascii : lowers_ascii simpleHost.
Proof.
  intros a b _. simpl. rewrite map_app, firstn_app.
  rewrite <- (length_map ascii_lower a) at 1 2.
  rewrite firstn_all, Nat.sub_diag. simpl. apply app_nil_r.
Qed.

Lemma simpleHost_ftp (u : URL) :
  @URL_new simpleHost (lit "ftp://x.com") = Some u -> protocol u = lit "ftp:".
Proof. intros E. vm_compute in E. injection E as <-. reflexivity. Qed.

Lemma validateURL_rejects_witness :
  rejected (@validateURL simpleHost (JStr (lit "javascript:alert(1)")))
  /\ rejected (@validateURL simpleHost (JStr (lit "ftp://x.com"))).
Proof.
  destruct (validateURL_rejects simpleHost simpleHost_lowers_ascii
              simpleHost_ftp) as (_ & _ & _ & Hjs & Hftp).
  split; assumption.
Defined.

(** ** Sorting the marks *)

Section Insertion.
Context {A : Type} (cmp : A -> A -> Z).

Lemma insert_above (x : A) (p q : list A) :
  Forall (fun y => (0 < cmp x y)%Z) p ->
  insert cmp x (p ++ q) = p ++ insert cmp x q.
Proof.
  induction 1 as [|y p Hy _ IH]; simpl; [reflexivity|].
  destruct (Z.leb_spec (cmp x y) 0); [lia|]. now rewrite IH.
Qed.

Lemma insert_below (x : A) (q : list A) :
  Forall (fun y => (cmp x y <= 0)%Z) q -> insert cmp x q = x :: q.
Proof.
  destruct 1 as [|y q Hy _]; simpl; [reflexivity|].
  destruct (Z.leb_spec (cmp x y) 0); [reflexivity|lia].
Qed.

Lemma insert_perm (x : A) (l : list A) : Permutation (insert cmp x l) (x :: l).
Proof.
  induction l as [|y l IH]; simpl; [reflexivity|].
  destruct (cmp x y <=? 0)%Z; [reflexivity|].
  rewrite IH. apply perm_swap.
Qed.

Lemma sort_perm (l : list A) : Permutation (sort cmp l) l.
Proof.
  induction l as [|x l IH]; simpl; [reflexivity|].
  rewrite insert_perm. now constructor.
Qed.
End Insertion.

Lemma key_spec (m : mark) :
  (key m = 0%Z /\ mtype m = lit "link")
  \/ (key m = 1%Z /\ mtype m = lit "bold")
  \/ (key m = 2%Z /\ mtype m = lit "italic")
  \/ (key m = 3%Z /\ mtype m = lit "code")
  \/ (key m = (-1)%Z /\ ~ In (mtype m) order).
Proof.
  unfold key, indexOf, order. cbn [indexOf_from].
  destruct (jseqb (lit "link") (mtype m)) eqn:E0;
    [apply jseqb_eq in E0; auto|].
  destruct (jseqb (lit "bold") (mtype m)) eqn:E1;
    [apply jseqb_eq in E1; auto 6|].
  destruct (jseqb (lit "italic") (mtype m)) eqn:E2;
    [apply jseqb_eq in E2; auto 7|].
  destruct (jseqb (lit "code") (mtype m)) eqn:E3;
    [apply jseqb_eq in E3; auto 8|].
  apply jseqb_neq in E0, E1, E2, E3.
  do 4 right. split; [reflexivity|]. simpl. tauto.
Qed.

Lemma key_range (m : mark) : In (key m) keys.
Proof.
  destruct (key_spec m) as [[E _]|[[E _]|[[E _]|[[E _]|[E _]]]]];
    rewrite E; simpl; tauto.
Qed.

Lemma bucket_key (i : Z) (l : list mark) :
  Forall (fun m => key m = i) (bucket i l).
Proof.
  apply Forall_forall. intros m Hm. apply filter_In in Hm as [_ E].
  now apply Z.eqb_eq.
Qed.

Lemma buckets_key (ks : list Z) (l : list mark) :
  Forall (fun m => In (key m) ks) (flat_map (fun i => bucket i l) ks).
Proof.
  apply Forall_forall. intros m Hm. apply in_flat_map in Hm as (i & Hi & Hm).
  pose proof (bucket_key i l) as F. rewrite Forall_forall in F.
  now rewrite (F m Hm).
Qed.

Lemma buckets_skip (ks : list Z) (m : mark) (l : list mark) :
  ~ In (key m) ks ->
  flat_map (fun i => bucket i (m :: l)) ks = flat_map (fun i => bucket i l) ks.
Proof.
  induction ks as [|i ks IH]; intros Hk; [reflexivity|].
  cbn [flat_map]. rewrite IH by (simpl in Hk; tauto). f_equal.
  unfold bucket. cbn [filter].
  destruct (Z.eqb_spec (key m) i); [subst; simpl in Hk; tauto|reflexivity].
Qed.

(** Inserting a mark into the buckets of [l] gives the buckets of the
    list with the mark in front. *)
Lemma insert_buckets (ks : list Z) (m : mark) (l : list mark) :
  StronglySorted Z.lt ks -> In (key m) ks ->
  insert compareMarks m (flat_map (fun i => bucket i l) ks)
  = flat_map (fun i => bucket i (m :: l)) ks.
Proof.
  induction 1 as [|i ks Hs IH Hlt]; intros Hin; [destruct Hin|].
  cbn [flat_map]. rewrite Forall_forall in Hlt.
  destruct (Z.eq_dec i (key m)) as [E|E].
  - rewrite buckets_skip
      by (intros Hk; apply Hlt in Hk; lia).
    unfold bucket at 3. cbn [filter]. rewrite <- E, Z.eqb_refl. cbn [app].
    apply insert_below. apply Forall_app. split.
    + eapply Forall_impl; [|apply bucket_key]. cbn beta. intros y Hy.
      unfold compareMarks. fold (key m) (key y). lia.
    + eapply Forall_impl; [|apply buckets_key]. cbn beta. intros y Hy.
      apply Hlt in Hy. unfold compareMarks. fold (key m) (key y). lia.
  - destruct Hin as [Hin|Hin]; [congruence|].
    rewrite insert_above.
    + rewrite IH by exact Hin. f_equal. unfold bucket. cbn [filter].
      destruct (Z.eqb_spec (key m) i); [congruence|reflexivity].
    + eapply Forall_impl; [|apply bucket_key]. cbn beta. intros y Hy.
      apply Hlt in Hin. unfold compareMarks. fold (key m) (key y). lia.
Qed.

Lemma keys_sorted : StronglySorted Z.lt keys.
Proof. repeat constructor. Qed.

(** The sorted marks are the marks bucket by bucket. *)
Lemma sort_buckets (l : list mark) :
  sort compareMarks l = flat_map (fun i => bucket i l) keys.
Proof.
  induction l as [|m l IH]; [reflexivity|].
  cbn [sort fold_right]. fold (sort compareMarks l). rewrite IH.
  apply insert_buckets; [apply keys_sorted|apply key_range].
Qed.

Lemma has_type_key (m : mark) :
  (has_type (lit "link") m = (key m =? 0)%Z)
  /\ (has_type (lit "bold") m = (key m =? 1)%Z)
  /\ (has_type (lit "italic") m = (key m =? 2)%Z)
  /\ (has_type (lit "code") m = (key m =? 3)%Z)
  /\ (negb (listed m) = (key m =? -1)%Z).
Proof.
  unfold listed, has_type, order. cbn [existsb].
  destruct (key_spec m) as [[E T]|[[E T]|[[E T]|[[E T]|[E T]]]]];
    rewrite E; try (rewrite T; repeat split; reflexivity).
  assert (N0 : jseqb (mtype m) (lit "link") = false)
    by (apply jseqb_neq; intros F; apply T; rewrite F; simpl; tauto).
  assert (N1 : jseqb (mtype m) (lit "bold") = false)
    by (apply jseqb_neq; intros F; apply T; rewrite F; simpl; tauto).
  assert (N2 : jseqb (mtype m) (lit "italic") = false)
    by (apply jseqb_neq; intros F; apply T; rewrite F; simpl; tauto).
  assert (N3 : jseqb (mtype m) (lit "code") = false)
    by (apply jseqb_neq; intros F; apply T; rewrite F; simpl; tauto).
  rewrite N0, N1, N2, N3. repeat split; reflexivity.
Qed.

Ltac by_key :=
  apply filter_ext; intros ?m; pose proof (has_type_key m);
  intuition congruence.

Lemma listed_type (m : mark) : In (mtype m) order -> listed m = true.
Proof.
  intros Hm. unfold listed. apply existsb_exists.
  exists (mtype m). split; [exact Hm|apply jseqb_refl].
Qed.

(** The sorted marks, when every mark has one of the four types. *)
Lemma sort_listed (ms : list mark) :
  Forall (fun m => In (mtype m) order) ms ->
  sort compareMarks ms
  = filter (has_type (lit "link")) ms
    ++ filter (has_type (lit "bold")) ms
    ++ filter (has_type (lit "italic")) ms
    ++ filter (has_type (lit "code")) ms.
Proof.
  intros Hl. rewrite sort_buckets. unfold keys, bucket. cbn [flat_map].
  rewrite app_nil_r.
  assert (E : filter (fun m => (key m =? -1)%Z) ms = []).
  { induction Hl as [|x ms Hx _ IH]; [reflexivity|]. cbn [filter].
    destruct (has_type_key x) as (_ & _ & _ & _ & K).
    rewrite <- K, (listed_type x Hx). cbn [negb]. exact IH. }
  rewrite E. cbn [app].
  repeat (f_equal; [by_key|]). by_key.
Qed.

(** C5, as the specification has it, fails: with a bold mark followed by
    a mark of a type outside the list, the sorted array has the unlisted
    mark first. *)
Lemma sort_puts_unlisted_first :
  listed (plainMark "bold") = true
  /\ listed (plainMark "highlight") = false
  /\ sort compareMarks [plainMark "bold"; plainMark "highlight"]
     = [plainMark "highlight"; plainMark "bold"].
Proof. repeat split. Qed.

(** C5, amended: the sorted marks are the marks whose type is not in the
    list link, bold, italic, code, then the link marks, the bold marks, the
    italic marks and the code marks; within each group the marks keep the
    order they had (the sort is stable).  So the unlisted marks come before
    all listed ones. *)
Theorem sort_marks_groups (ms : list mark) :
  sort compareMarks ms
  = filter (fun m => negb (listed m)) ms
    ++ filter (has_type (lit "link")) ms
    ++ filter (has_type (lit "bold")) ms
    ++ filter (has_type (lit "italic")) ms
    ++ filter (has_type (lit "code")) ms.
Proof.
  rewrite sort_buckets. unfold keys, bucket. cbn [flat_map].
  rewrite app_nil_r.
  repeat (f_equal; [by_key|]). by_key.
Qed.

(** ** The loop over the sorted marks *)

Section Marks.
Context {H : Host}.

Lemma markStep_emits (oc : list jsstring * list jsstring) (m : mark) :
  markStep oc m =
  match emits m with
  | Some (o, c) => (fst oc ++ [o], c :: snd oc)
  | None => oc
  end.
Proof.
  destruct oc as [o c]. unfold markStep, emits, has_type.
  destruct (jseqb (mtype m) (lit "bold")); [reflexivity|].
  destruct (jseqb (mtype m) (lit "italic")); [reflexivity|].
  destruct (jseqb (mtype m) (lit "code")); [reflexivity|].
  destruct (jseqb (mtype m) (lit "link")); [|reflexivity].
  fold (linkHref m). cbv zeta.
  destruct (valid (validateURL (linkHref m))); reflexivity.
Qed.

Lemma fold_markStep (l : list mark) (o c : list jsstring) :
  fold_left markStep l (o, c)
  = (o ++ map fst (emitted l), rev (map snd (emitted l)) ++ c).
Proof.
  revert o c; induction l as [|m l IH]; intros o c.
  - simpl. now rewrite app_nil_r.
  - cbn [fold_left]. rewrite markStep_emits. unfold emitted. cbn [flat_map].
    fold (emitted l). destruct (emits m) as [[o1 c1]|]; cbn [fst snd app].
    + rewrite IH. cbn [map fst snd rev].
      now rewrite <- !app_assoc.
    + apply IH.
Qed.

Lemma join_nil_concat (l : list jsstring) : join [] l = concat l.
Proof.
  induction l as [|x l IH]; [reflexivity|].
  cbn [join concat]. rewrite <- IH. destruct l; [now rewrite app_nil_r|reflexivity].
Qed.

(** What [processText] returns for a text node with an array of marks. *)
Lemma processText_marks (n : node) (t : jsstring) (ms : list mark) :
  ntype n = lit "text" -> ntext n = Some t -> nmarks n = Some ms ->
  processText n
  = concat (map fst (emitted (sort compareMarks ms)))
    ++ escapeHTML (JStr t)
    ++ concat (rev (map snd (emitted (sort compareMarks ms)))).
Proof.
  intros Hty Ht Hms. unfold processText. rewrite Hty, Ht, Hms.
  change (jseqb (lit "text") (lit "text")) with true. cbn [negb].
  destruct ms as [|m ms]; [simpl; now rewrite app_nil_r|].
  rewrite fold_markStep. cbn [app]. rewrite app_nil_r.
  now rewrite !join_nil_concat.
Qed.

Lemma emitted_app (a b : list mark) : emitted (a ++ b) = emitted a ++ emitted b.
Proof. apply flat_map_app. Qed.

Lemma emitted_buckets (ks : list Z) (l : list mark) :
  emitted (flat_map (fun i => bucket i l) ks)
  = flat_map (fun i => emitted (bucket i l)) ks.
Proof.
  induction ks as [|i ks IH]; [reflexivity|].
  cbn [flat_map]. now rewrite emitted_app, IH.
Qed.

Lemma emitted_filter_drop (p : mark -> bool) (l1 l2 : list mark) (m : mark) :
  emits m = None ->
  emitted (filter p (l1 ++ m :: l2)) = emitted (filter p (l1 ++ l2)).
Proof.
  intros E. rewrite !filter_app, !emitted_app. f_equal. cbn [filter].
  destruct (p m); [|reflexivity].
  unfold emitted. cbn [flat_map]. now rewrite E.
Qed.

(** A mark that contributes no tag can be taken out of the array. *)
Lemma emitted_sort_drop (l1 l2 : list mark) (m : mark) :
  emits m = None ->
  emitted (sort compareMarks (l1 ++ m :: l2))
  = emitted (sort compareMarks (l1 ++ l2)).
Proof.
  intros E. rewrite !sort_buckets, !emitted_buckets.
  induction keys as [|i ks IH]; [reflexivity|].
  cbn [flat_map]. rewrite IH. f_equal.
  now apply emitted_filter_drop.
Qed.

Lemma processText_drop (n : node) (l1 l2 : list mark) (m : mark) :
  nmarks n = Some (l1 ++ m :: l2) -> emits m = None ->
  processText n = processText (with_marks n (l1 ++ l2)).
Proof.
  intros Hms E.
  destruct (jseqb (ntype n) (lit "text")) eqn:Hty.
  - apply jseqb_eq in Hty. destruct (ntext n) as [t|] eqn:Ht.
    + rewrite (processText_marks n t (l1 ++ m :: l2)) by assumption.
      rewrite (processText_marks (with_marks n (l1 ++ l2)) t (l1 ++ l2))
        by (assumption || reflexivity).
      now rewrite (emitted_sort_drop l1 l2 m E).
    + unfold processText. cbn [with_marks ntype ntext].
      rewrite Ht. now destruct (negb _).
  - unfold processText. cbn [with_marks ntype]. now rewrite Hty.
Qed.
End Marks.

(** C10: a mark whose type is none of bold, italic, code and link adds
    nothing: the node renders as it does with that mark taken out of its
    array of marks. *)
Theorem processText_ignores_unknown_mark
    (H : Host) (n : node) (l1 l2 : list mark) (m : mark) :
  nmarks n = Some (l1 ++ m :: l2) ->
  ~ In (mtype m) [lit "bold"; lit "italic"; lit "code"; lit "link"] ->
  processText n = processText (with_marks n (l1 ++ l2)).
Proof.
  intros Hms Hty. apply processText_drop with (m := m); [exact Hms|].
  unfold emits, has_type.
  repeat match goal with
         | |- context [jseqb (mtype m) ?ty] =>
             let E := fresh in
             destruct (jseqb (mtype m) ty) eqn:E;
             [apply jseqb_eq in E; exfalso; apply Hty; rewrite E; simpl; tauto|]
         end.
  reflexivity.
Qed.

(** ** Reading the output back *)

Lemma option_map_app_nil {A : Type} (o : option (list A)) :
  option_map (app []) o = o.
Proof. now destruct o. Qed.

Lemma entity_follows_app (s r : jsstring) :
  existsb (fun e => startsWith e s) entities = true ->
  existsb (fun e => startsWith e (s ++ r)) entities = true.
Proof.
  rewrite !existsb_exists. intros (e & He & E). exists e. split; [exact He|].
  now apply startsWith_app.
Qed.

(** A string that reads back on its own reads back the same way in front
    of any other. *)
Lemma lex_app (a : jsstring) :
  forall (st : lexstate) (ta : list jsstring),
    lex st a = Some ta ->
    forall b, lex st (a ++ b) = option_map (app ta) (lex InText b).
Proof.
  induction a as [|c a IH]; intros st ta E b.
  - destruct st; [|discriminate]. injection E as <-. cbn [app].
    symmetry. apply option_map_app_nil.
  - cbn [app lex] in *. destruct st as [|body].
    + destruct (c =? 60); [now apply IH|].
      destruct (c =? 62); [discriminate|].
      destruct (c =? 38); [|now apply IH].
      destruct (existsb _ entities) eqn:Ee; [|discriminate].
      rewrite (entity_follows_app _ b Ee). now apply IH.
    + destruct (c =? 62).
      * destruct (lex InText a) as [ta'|] eqn:Ea; [|discriminate].
        injection E as <-. rewrite (IH _ _ Ea b).
        now destruct (lex InText b).
      * destruct (c =? 60); [discriminate|]. now apply IH.
Qed.

Lemma lex_tag_body (x : jsstring) :
  forall (body r : jsstring),
    Forall (fun c => c <> 60 /\ c <> 62) x ->
    lex (InTag body) (x ++ r) = lex (InTag (rev x ++ body)) r.
Proof.
  induction x as [|c x IH]; intros body r Hx; [reflexivity|].
  inversion Hx as [|? ? [H1 H2] Hx']; subst.
  cbn [app lex rev].
  destruct (N.eqb_spec c 62); [congruence|].
  destruct (N.eqb_spec c 60); [congruence|].
  rewrite IH by exact Hx'. now rewrite <- app_assoc.
Qed.

Section Clean.
Variable allowed : list jsstring.

Lemma clean_nil : clean allowed [].
Proof. exists []. split; [reflexivity|constructor]. Qed.

Lemma clean_app (a b : jsstring) :
  clean allowed a -> clean allowed b -> clean allowed (a ++ b).
Proof.
  intros (ta & Ea & Fa) (tb & Eb & Fb). exists (ta ++ tb). split.
  - unfold tagsOf in *. rewrite (lex_app a InText ta Ea b), Eb. reflexivity.
  - apply Forall_app. now split.
Qed.

Lemma clean_concat (l : list jsstring) :
  Forall (clean allowed) l -> clean allowed (concat l).
Proof.
  induction 1 as [|x l Hx _ IH]; [apply clean_nil|].
  cbn [concat]. now apply clean_app.
Qed.

Lemma clean_join (sep : jsstring) (l : list jsstring) :
  clean allowed sep -> Forall (clean allowed) l -> clean allowed (join sep l).
Proof.
  intros Hsep. induction 1 as [|x l Hx Hl IH]; [apply clean_nil|].
  cbn [join]. destruct l as [|y l]; [exact Hx|].
  apply clean_app; [exact Hx|]. now apply clean_app.
Qed.

Lemma clean_pushIf (s : jsstring) :
  clean allowed s -> Forall (clean allowed) (pushIf s).
Proof.
  intros Hs. unfold pushIf. destruct (truthy s); repeat constructor.
  exact Hs.
Qed.

Lemma clean_flat_map {A : Type} (f : A -> list jsstring) (l : list A) :
  Forall (fun x => Forall (clean allowed) (f x)) l ->
  Forall (clean allowed) (flat_map f l).
Proof.
  induction 1 as [|x l Hx _ IH]; [constructor|].
  cbn [flat_map]. apply Forall_app. now split.
Qed.

Lemma clean_filterBoolean (l : list jsstring) :
  Forall (clean allowed) l -> Forall (clean allowed) (filterBoolean l).
Proof.
  intros Hl. apply Forall_forall. intros x Hx.
  apply filter_In in Hx as [Hx _].
  rewrite Forall_forall in Hl. now apply Hl.
Qed.
End Clean.

(** Escaped text reads back as one run of text, without a tag. *)
Lemma tagsOf_escapeHTML (t : jsstring) : tagsOf (escapeHTML (JStr t)) = Some [].
Proof.
  unfold tagsOf, escapeHTML, replaceAll.
  induction t as [|c t IH]; [reflexivity|].
  cbn [flat_map]. unfold htmlEntities at 1, HTML_ENTITY_MAP.
  destruct (N.eqb_spec c 38) as [->|N38]; [exact IH|].
  destruct (N.eqb_spec c 60) as [->|N60]; [exact IH|].
  destruct (N.eqb_spec c 62) as [->|N62]; [exact IH|].
  destruct (N.eqb_spec c 34) as [->|N34]; [exact IH|].
  destruct (N.eqb_spec c 39) as [->|N39]; [exact IH|].
  cbn [orb app lex].
  destruct (N.eqb_spec c 60); [congruence|].
  destruct (N.eqb_spec c 62); [congruence|].
  destruct (N.eqb_spec c 38); [congruence|].
  exact IH.
Qed.

(** Reading the entities back gives the text that was escaped. *)
Lemma decode_escapeHTML (t : jsstring) : decode (escapeHTML (JStr t)) = t.
Proof.
  unfold decode, escapeHTML, replaceAll.
  induction t as [|c t IH]; [reflexivity|].
  cbn [flat_map]. set (rest := flat_map _ t) in *.
  unfold htmlEntities, HTML_ENTITY_MAP.
  destruct (N.eqb_spec c 38) as [->|N38]; [cbn; now rewrite IH|].
  destruct (N.eqb_spec c 60) as [->|N60]; [cbn; now rewrite IH|].
  destruct (N.eqb_spec c 62) as [->|N62]; [cbn; now rewrite IH|].
  destruct (N.eqb_spec c 34) as [->|N34]; [cbn; now rewrite IH|].
  destruct (N.eqb_spec c 39) as [->|N39]; [cbn; now rewrite IH|].
  cbn [orb app decode_go].
  destruct (N.eqb_spec c 38); [congruence|]. now rewrite IH.
Qed.

Lemma replaceChar_keeps_out (c d : N) (rep s : jsstring) :
  ~ In d rep -> d = c \/ ~ In d s -> ~ In d (replaceChar c rep s).
Proof.
  intros Hrep Hs Hin. unfold replaceChar, replaceAll in Hin.
  apply in_flat_map in Hin as (x & Hx & Hd).
  destruct (N.eqb_spec c x) as [->|Ncx]; [tauto|].
  destruct Hd as [<-|[]]. destruct Hs as [->|Hs]; tauto.
Qed.

Lemma escapeAttribute_no_bracket (u : jsstring) :
  Forall (fun c => c <> 60 /\ c <> 62) (escapeAttribute (JStr u)).
Proof.
  apply Forall_forall. intros c Hc. unfold escapeAttribute in Hc. split.
  - intros ->. revert Hc. apply replaceChar_keeps_out.
    + cbn. intuition discriminate.
    + right. apply replaceChar_keeps_out; [|now left].
      cbn. intuition discriminate.
  - intros ->. revert Hc. apply replaceChar_keeps_out; [|now left].
    cbn. intuition discriminate.
Qed.

Lemma tagsOf_anchor (u : jsstring) :
  tagsOf (lit "<a href=" ++ dquote ++ escapeAttribute (JStr u)
            ++ dquote ++ lit ">") = Some [lit "a"].
Proof.
  unfold tagsOf. cbn [lit list_ascii_of_string map app dquote lex].
  cbn -[escapeAttribute lex].
  cbn [lex N.eqb Pos.eqb].
  rewrite lex_tag_body by apply escapeAttribute_no_bracket.
  cbn [lex N.eqb Pos.eqb option_map].
  cbn [rev app]. rewrite !rev_app_distr, rev_involutive. reflexivity.
Qed.

Section CleanText.
Context {H : Host}.

Lemma emitted_In (l : list mark) (oc : jsstring * jsstring) :
  In oc (emitted l) -> exists m, In m l /\ emits m = Some oc.
Proof.
  unfold emitted. rewrite in_flat_map. intros (m & Hm & Hoc).
  exists m. split; [exact Hm|].
  destruct (emits m) as [oc'|]; [|destruct Hoc].
  destruct Hoc as [->|[]]. reflexivity.
Qed.

(** The tags a mark contributes: one element and its end. *)
Lemma emits_tags (m : mark) (o c : jsstring) :
  emits m = Some (o, c) ->
  exists name,
    tagsOf o = Some [name] /\ tagsOf c = Some [name]
    /\ ((name = lit "a" /\ mtype m = lit "link"
         /\ valid (validateURL (linkHref m)) = true)
        \/ In name [lit "strong"; lit "em"; lit "code"]).
Proof.
  unfold emits, has_type.
  destruct (jseqb (mtype m) (lit "bold"));
    [intros [= <- <-]; exists (lit "strong"); cbn; auto 6|].
  destruct (jseqb (mtype m) (lit "italic"));
    [intros [= <- <-]; exists (lit "em"); cbn; auto 6|].
  destruct (jseqb (mtype m) (lit "code"));
    [intros [= <- <-]; exists (lit "code"); cbn; auto 7|].
  destruct (jseqb (mtype m) (lit "link")) eqn:Hl; [|discriminate].
  cbv zeta. destruct (valid (validateURL (linkHref m))) eqn:Hv; [|discriminate].
  intros [= <- <-]. exists (lit "a").
  split; [apply tagsOf_anchor|]. split; [reflexivity|].
  left. apply jseqb_eq in Hl. auto.
Qed.

(** [processText] writes escaped text between the tags of its marks. *)
Lemma processText_clean (allowed : list jsstring) (n : node) :
  (forall ms m o c, nmarks n = Some ms -> In m ms -> emits m = Some (o, c) ->
     clean allowed o /\ clean allowed c) ->
  clean allowed (processText n).
Proof.
  intros Hm.
  assert (Htext : forall t, clean allowed (escapeHTML (JStr t))).
  { intros t. exists []. split; [apply tagsOf_escapeHTML|constructor]. }
  destruct (jseqb (ntype n) (lit "text")) eqn:Hty;
    [|unfold processText; rewrite Hty; apply clean_nil].
  destruct (ntext n) as [t|] eqn:Ht;
    [|unfold processText; rewrite Hty, Ht; apply clean_nil].
  destruct (nmarks n) as [ms|] eqn:Hms;
    [|unfold processText; rewrite Hty, Ht, Hms; apply Htext].
  apply jseqb_eq in Hty.
  rewrite (processText_marks n t ms Hty Ht Hms).
  assert (Hs : forall oc, In oc (emitted (sort compareMarks ms)) ->
                 clean allowed (fst oc) /\ clean allowed (snd oc)).
  { intros [o c] Hoc. apply emitted_In in Hoc as (m & Hin & Hoc).
    apply (Hm ms m o c eq_refl); [|exact Hoc].
    eapply Permutation_in; [apply sort_perm|exact Hin]. }
  apply clean_app; [|apply clean_app; [apply Htext|]]; apply clean_concat.
  - apply Forall_forall. intros o Ho. apply in_map_iff in Ho as (oc & <- & Hoc).
    now apply Hs.
  - apply Forall_forall. intros c Hc. apply in_rev in Hc.
    apply in_map_iff in Hc as (oc & <- & Hoc). now apply Hs.
Qed.
End CleanText.

(** ** The walk over the document *)

(** Induction on a node, with the property for all its children. *)
Lemma node_induction (P : node -> Prop) :
  (forall ty c a t ms,
     (forall l, c = Some l -> Forall P l) -> P (Node ty c a t ms)) ->
  forall n, P n.
Proof.
  intros IH. fix rec 1. intros [ty c a t ms]. apply IH.
  destruct c as [l0|]; [|discriminate].
  assert (F : Forall P l0).
  { revert l0. fix go 1.
    intros [|x l]; constructor; [apply rec|apply go]. }
  intros l [= <-]. exact F.
Qed.

Section Walk.
Context {H : Host}.

Lemma processNode_bulletList (n : node) :
  jseqb (ntype n) (lit "bulletList") = true ->
  processNode n = processBulletList n.
Proof.
  intros E. apply jseqb_eq in E. destruct n as [ty c a t ms].
  cbn [ntype] in E. subst ty. reflexivity.
Qed.

Lemma tag_clean (s : jsstring) (name : jsstring) :
  tagsOf s = Some [name] -> In name EMITTED_TAGS -> clean EMITTED_TAGS s.
Proof. intros E Hn. exists [name]. split; [exact E|]. now constructor. Qed.

Lemma chars_clean (s : jsstring) :
  tagsOf s = Some [] -> clean EMITTED_TAGS s.
Proof. intros E. exists []. split; [exact E|constructor]. Qed.

Lemma processText_emitted_tags (n : node) : clean EMITTED_TAGS (processText n).
Proof.
  apply processText_clean. intros ms m o c _ _ E.
  apply emits_tags in E as (name & Eo & Ec & Hn).
  assert (In name EMITTED_TAGS).
  { destruct Hn as [[-> _]|Hn]; [cbn; tauto|].
    cbn in Hn |- *. intuition subst; tauto. }
  split; now apply tag_clean with name.
Qed.

Lemma processInline_emitted_tags (content : option (list node)) :
  clean EMITTED_TAGS (processInline content).
Proof.
  destruct content as [c|]; [|apply clean_nil]. cbn [processInline].
  apply clean_join; [apply clean_nil|].
  apply Forall_forall. intros s Hs. apply in_map_iff in Hs as (n & <- & _).
  apply processText_emitted_tags.
Qed.

Ltac wrap :=
  repeat first
    [ apply clean_app
    | apply processInline_emitted_tags
    | apply clean_nil
    | (eapply tag_clean; [reflexivity|cbn; tauto])
    | (apply chars_clean; reflexivity) ].

Lemma processParagraph_emitted_tags (n : node) :
  clean EMITTED_TAGS (processParagraph n).
Proof. unfold processParagraph. cbv zeta. destruct (_ || _); wrap. Qed.

Lemma processHeading_emitted_tags (n : node) :
  clean EMITTED_TAGS (processHeading n).
Proof.
  unfold processHeading. cbv zeta. destruct (_ || _); [wrap|].
  destruct (_ =? 3)%Z.
  - change (lit "<" ++ lit "h3" ++ lit ">" ++ ?c ++ lit "</" ++ lit "h3" ++ lit ">")
      with (lit "<h3>" ++ c ++ lit "</h3>"). wrap.
  - change (lit "<" ++ lit "h2" ++ lit ">" ++ ?c ++ lit "</" ++ lit "h2" ++ lit ">")
      with (lit "<h2>" ++ c ++ lit "</h2>"). wrap.
Qed.

Lemma processBulletList_emitted_tags (n : node) :
  (forall l, ncontent n = Some l ->
     Forall (fun x => clean EMITTED_TAGS (processNode x)) l) ->
  clean EMITTED_TAGS (processBulletList n).
Proof.
  intros IH. unfold processBulletList, processBulletList_.
  destruct (ncontent n) as [[|x l]|] eqn:Hc; try apply clean_nil.
  specialize (IH _ eq_refl).
  assert (F : Forall (clean EMITTED_TAGS)
                (filterBoolean (map processNode (x :: l)))).
  { apply clean_filterBoolean. apply Forall_forall. intros s Hs.
    apply in_map_iff in Hs as (y & <- & Hy).
    rewrite Forall_forall in IH. now apply IH. }
  destruct (filterBoolean _) as [|i items]; [apply clean_nil|].
  wrap. apply clean_join; [wrap|exact F].
Qed.

(** Every node is exported as text and tags of [EMITTED_TAGS]. *)
Lemma processNode_emitted_tags (n : node) : clean EMITTED_TAGS (processNode n).
Proof.
  induction n as [ty c a t ms IH] using node_induction.
  set (n := Node ty c a t ms).
  assert (IHn : forall l, ncontent n = Some l ->
            Forall (fun x => clean EMITTED_TAGS (processNode x)) l)
    by exact IH.
  assert (Hpart : forall l (f : node -> list jsstring),
            ncontent n = Some l ->
            (forall x, In x l -> clean EMITTED_TAGS (processNode x) ->
               Forall (clean EMITTED_TAGS) (f x)) ->
            Forall (clean EMITTED_TAGS) (flat_map f l)).
  { intros l f Hl Hf. apply clean_flat_map. apply Forall_forall.
    intros x Hx. apply Hf; [exact Hx|].
    specialize (IHn l Hl). rewrite Forall_forall in IHn. now apply IHn. }
  change (processNode n) with
    (if negb (truthy (ntype n)) then []
     else if jseqb (ntype n) (lit "paragraph") then processParagraph n
     else if jseqb (ntype n) (lit "heading") then processHeading n
     else if jseqb (ntype n) (lit "bulletList") then processBulletList n
     else if jseqb (ntype n) (lit "listItem") then processListItem n
     else if jseqb (ntype n) (lit "blockquote") then processBlockquote n
     else if jseqb (ntype n) (lit "text") then processText n
     else match ncontent n with
          | Some c => join [] (filterBoolean (map processNode c))
          | None => []
          end).
  destruct (negb (truthy (ntype n))); [apply clean_nil|].
  destruct (jseqb (ntype n) (lit "paragraph"));
    [apply processParagraph_emitted_tags|].
  destruct (jseqb (ntype n) (lit "heading"));
    [apply processHeading_emitted_tags|].
  destruct (jseqb (ntype n) (lit "bulletList"));
    [now apply processBulletList_emitted_tags|].
  destruct (jseqb (ntype n) (lit "listItem")).
  { unfold processListItem, processListItem_.
    destruct (ncontent n) as [l|] eqn:Hc; [|apply clean_nil]. cbv zeta.
    match goal with |- context [flat_map ?f l] =>
      assert (F : Forall (clean EMITTED_TAGS) (flat_map f l)) end.
    { apply Hpart; [reflexivity|]. intros x Hx Px. cbv beta.
      destruct (jseqb (ntype x) (lit "paragraph"));
        [apply clean_pushIf, processInline_emitted_tags|].
      destruct (jseqb (ntype x) (lit "bulletList")) eqn:Eb;
        [|now apply clean_pushIf].
      apply clean_pushIf. fold (processBulletList x).
      now rewrite <- processNode_bulletList. }
    destruct (flat_map _ l) as [|p parts]; [apply clean_nil|].
    wrap. apply clean_join; [wrap|exact F]. }
  destruct (jseqb (ntype n) (lit "blockquote")).
  { unfold processBlockquote, processBlockquote_.
    destruct (ncontent n) as [l|] eqn:Hc; [|apply clean_nil]. cbv zeta.
    match goal with |- context [flat_map ?f l] =>
      assert (F : Forall (clean EMITTED_TAGS) (flat_map f l)) end.
    { apply Hpart; [reflexivity|]. intros x Hx Px. cbv beta.
      destruct (jseqb (ntype x) (lit "paragraph"));
        [apply clean_pushIf, processInline_emitted_tags|].
      now apply clean_pushIf. }
    destruct (flat_map _ l) as [|p parts]; [apply clean_nil|].
    wrap. apply clean_join; [wrap|exact F]. }
  destruct (jseqb (ntype n) (lit "text"));
    [apply processText_emitted_tags|].
  destruct (ncontent n) as [l|] eqn:Hc; [|apply clean_nil].
  apply clean_join; [apply clean_nil|]. apply clean_filterBoolean.
  apply Forall_forall. intros s Hs. apply in_map_iff in Hs as (y & <- & Hy).
  specialize (IHn l eq_refl). rewrite Forall_forall in IHn. now apply IHn.
Qed.
End Walk.

(** ** Canonical nesting of the marks *)

Section Canonical.
Context {H : Host}.

Lemma filter_nothing {A : Type} (p : A -> bool) (l : list A) :
  (forall x, In x l -> p x = false) -> filter p l = [].
Proof.
  induction l as [|x l IH]; intros Hp; [reflexivity|]. cbn [filter].
  rewrite (Hp x (or_introl eq_refl)). apply IH. intros y Hy. apply Hp. now right.
Qed.

Lemma find_nothing {A : Type} (p : A -> bool) (l : list A) :
  (forall x, In x l -> p x = false) -> find p l = None.
Proof.
  induction l as [|x l IH]; intros Hp; [reflexivity|]. cbn [find].
  rewrite (Hp x (or_introl eq_refl)). apply IH. intros y Hy. apply Hp. now right.
Qed.

Lemma existsb_find {A : Type} (p : A -> bool) (l : list A) :
  existsb p l = match find p l with Some _ => true | None => false end.
Proof.
  induction l as [|x l IH]; [reflexivity|]. cbn [existsb find].
  destruct (p x); [reflexivity|exact IH].
Qed.

Lemma same_type_in (ty : jsstring) (x : mark) (l : list mark) :
  has_type ty x = true -> ~ In (mtype x) (map mtype l) ->
  forall y, In y l -> has_type ty y = false.
Proof.
  intros Hx Hn y Hy. destruct (has_type ty y) eqn:E; [|reflexivity].
  exfalso. apply Hn. apply jseqb_eq in Hx, E. rewrite Hx, <- E.
  now apply in_map.
Qed.

(** With one mark of each type at most, the marks of a type are the
    mark [find] returns. *)
Lemma filter_has_type_find (ty : jsstring) (ms : list mark) :
  NoDup (map mtype ms) ->
  filter (has_type ty) ms
  = match find (has_type ty) ms with Some m => [m] | None => [] end.
Proof.
  induction ms as [|x ms IH]; intros Hnd; [reflexivity|].
  cbn [map] in Hnd. inversion Hnd as [|? ? Hx Hnd']; subst.
  cbn [filter find]. destruct (has_type ty x) eqn:E; [|now apply IH].
  f_equal. apply filter_nothing. now apply same_type_in with x.
Qed.

Lemma find_unique (ty : jsstring) (m : mark) (l : list mark) :
  NoDup (map mtype l) -> In m l -> has_type ty m = true ->
  find (has_type ty) l = Some m.
Proof.
  induction l as [|x l IH]; intros Hnd Hin Hm; [destruct Hin|].
  cbn [map] in Hnd. inversion Hnd as [|? ? Hx Hnd']; subst.
  cbn [find]. destruct Hin as [->|Hin]; [now rewrite Hm|].
  destruct (has_type ty x) eqn:E; [|now apply IH].
  rewrite (same_type_in ty x l E Hx m Hin) in Hm. discriminate.
Qed.

Lemma find_perm (ty : jsstring) (ms ms' : list mark) :
  NoDup (map mtype ms) -> Permutation ms ms' ->
  find (has_type ty) ms' = find (has_type ty) ms.
Proof.
  intros Hnd Hp. destruct (find (has_type ty) ms) as [m|] eqn:E.
  - apply find_some in E as [Hin Hm]. apply find_unique; [| |exact Hm].
    + eapply Permutation_NoDup; [|exact Hnd]. now apply Permutation_map.
    + eapply Permutation_in; eassumption.
  - apply find_nothing. intros x Hx. apply (find_none _ _ E).
    eapply Permutation_in; [symmetry|]; eassumption.
Qed.

Lemma emits_of_type (m : mark) :
  (has_type (lit "bold") m = true ->
     emits m = Some (lit "<strong>", lit "</strong>"))
  /\ (has_type (lit "italic") m = true ->
        emits m = Some (lit "<em>", lit "</em>"))
  /\ (has_type (lit "code") m = true ->
        emits m = Some (lit "<code>", lit "</code>"))
  /\ (has_type (lit "link") m = true ->
        valid (validateURL (linkHref m)) = true ->
        emits m = Some (lit "<a href=" ++ dquote
                          ++ escapeAttribute
                               (JStr (url (validateURL (linkHref m))))
                          ++ dquote ++ lit ">", lit "</a>")).
Proof.
  unfold emits, has_type.
  repeat split; intros E; apply jseqb_eq in E; rewrite E; cbn -[validateURL escapeAttribute].
  - reflexivity.
  - reflexivity.
  - reflexivity.
  - intros ->. reflexivity.
Qed.

Lemma emitted_one (m : mark) (oc : jsstring * jsstring) :
  emits m = Some oc -> emitted [m] = [oc].
Proof. intros E. unfold emitted. cbn [flat_map]. now rewrite E. Qed.

Lemma emitted_type (ms : list mark) (ty : jsstring) :
  NoDup (map mtype ms) -> In ty order ->
  (forall m, In m ms -> mtype m = lit "link" ->
     valid (validateURL (linkHref m)) = true) ->
  emitted (filter (has_type ty) ms)
  = map (fun ty => (openingTag ms ty, closingTag ty))
      (filter (fun ty => existsb (has_type ty) ms) [ty]).
Proof.
  intros Hnd Hty Hv. rewrite filter_has_type_find by exact Hnd.
  cbn [filter]. rewrite existsb_find.
  destruct (find (has_type ty) ms) as [m|] eqn:E; [|reflexivity].
  destruct (find_some _ _ E) as [Hin Hm]. cbn [map].
  destruct (emits_of_type m) as (Eb & Ei & Ec & El).
  unfold order in Hty. cbn [In] in Hty.
  destruct Hty as [<-|[<-|[<-|[<-|[]]]]]; unfold openingTag; try rewrite E.
  - apply emitted_one. rewrite El; [reflexivity|exact Hm|].
    apply Hv; [exact Hin|]. now apply jseqb_eq in Hm.
  - apply emitted_one. now rewrite Eb.
  - apply emitted_one. now rewrite Ei.
  - apply emitted_one. now rewrite Ec.
Qed.

(** The tags of the sorted marks are the tags of the types present, in
    the order link, bold, italic, code. *)
Lemma emitted_sort_present (ms : list mark) :
  NoDup (map mtype ms) ->
  Forall (fun m => In (mtype m) order) ms ->
  (forall m, In m ms -> mtype m = lit "link" ->
     valid (validateURL (linkHref m)) = true) ->
  emitted (sort compareMarks ms)
  = map (fun ty => (openingTag ms ty, closingTag ty)) (present ms).
Proof.
  intros Hnd Hl Hv.
  rewrite (sort_listed ms Hl), !emitted_app.
  rewrite !emitted_type by (try assumption; unfold order; cbn [In]; tauto).
  rewrite <- !map_app, <- !filter_app. reflexivity.
Qed.

Lemma present_perm (ms ms' : list mark) :
  NoDup (map mtype ms) -> Permutation ms ms' -> present ms' = present ms.
Proof.
  intros Hnd Hp. unfold present. apply filter_ext. intros ty.
  rewrite !existsb_find. now rewrite (find_perm ty ms ms').
Qed.

Lemma openingTag_perm (ms ms' : list mark) (ty : jsstring) :
  NoDup (map mtype ms) -> Permutation ms ms' ->
  openingTag ms' ty = openingTag ms ty.
Proof.
  intros Hnd Hp. unfold openingTag.
  now rewrite (find_perm (lit "link") ms ms').
Qed.
End Canonical.

(** C4: for a text node whose marks are at most one of each of link,
    bold, italic and code, in any order, and whose link has an address that
    [validateURL] accepts, the output is the opening tags of the marks
    present in the order link, bold, italic, code, the escaped text, and
    the closing tags in the reverse order; so every permutation of the
    marks renders the same. *)
Theorem processText_canonical_nesting
    (H : Host) (n : node) (t : jsstring) (ms : list mark) :
  ntype n = lit "text" -> ntext n = Some t -> nmarks n = Some ms ->
  NoDup (map mtype ms) ->
  Forall (fun m => In (mtype m) order) ms ->
  (forall m, In m ms -> mtype m = lit "link" ->
     valid (validateURL (linkHref m)) = true) ->
  processText n
  = concat (map (openingTag ms) (present ms))
    ++ escapeHTML (JStr t)
    ++ concat (rev (map closingTag (present ms)))
  /\ (forall ms', Permutation ms ms' ->
        processText (with_marks n ms') = processText n).
Proof.
  intros Hty Ht Hms Hnd Hl Hv.
  assert (Form : forall n' ms', ntype n' = lit "text" -> ntext n' = Some t ->
            nmarks n' = Some ms' -> Permutation ms ms' ->
            processText n'
            = concat (map (openingTag ms) (present ms))
              ++ escapeHTML (JStr t)
              ++ concat (rev (map closingTag (present ms)))).
  { intros n' ms' Hty' Ht' Hms' Hp.
    rewrite (processText_marks n' t ms' Hty' Ht' Hms').
    rewrite emitted_sort_present.
    - rewrite !map_map. cbn [fst snd].
      rewrite (present_perm ms ms' Hnd Hp).
      do 2 f_equal. apply map_ext. intros ty.
      now apply openingTag_perm.
    - eapply Permutation_NoDup; [|exact Hnd]. now apply Permutation_map.
    - eapply Permutation_Forall; eassumption.
    - intros m Hm. apply Hv. eapply Permutation_in; [symmetry|]; eassumption. }
  split.
  - now apply (Form n ms).
  - intros ms' Hp.
    rewrite (Form n ms Hty Ht Hms (Permutation_refl ms)).
    now apply (Form (with_marks n ms') ms').
Qed.

Lemma processText_canonical_nesting_witness :
  let ms := [plainMark "code"; linkMark "http://x.com/"; plainMark "bold"] in
  @processText simpleHost markedText
  = concat (map (@openingTag simpleHost ms) [lit "link"; lit "bold"; lit "code"])
    ++ lit "a&lt;b"
    ++ lit "</code></strong></a>".
Proof.
  refine (proj1 (processText_canonical_nesting simpleHost markedText
                   (lit "a<b") _ eq_refl eq_refl eq_refl _ _ _)).
  - repeat constructor; cbn; intuition discriminate.
  - repeat constructor; cbn; tauto.
  - intros m [<-|[<-|[<-|[]]]] E; try discriminate E. reflexivity.
Defined.

Lemma processText_ignores_unknown_mark_witness :
  @processText simpleHost
    (textNode "x" (Some [plainMark "bold"; plainMark "highlight";
                         plainMark "code"]))
  = @processText simpleHost
      (textNode "x" (Some [plainMark "bold"; plainMark "code"])).
Proof.
  apply (processText_ignores_unknown_mark simpleHost
           (textNode "x" (Some [plainMark "bold"; plainMark "highlight";
                                plainMark "code"]))
           [plainMark "bold"] [plainMark "code"] (plainMark "highlight")).
  - reflexivity.
  - cbn. intuition discriminate.
Defined.

(** ** Link marks without a usable address *)

(** C3: a link mark whose address is missing, or is rejected by
    [validateURL], adds nothing: the node renders as it does without that
    mark, the escaped text inside the tags of its other marks; and when the
    node has no other link mark no anchor is written at all. *)
Theorem processText_skips_rejected_link
    (H : Host) (n : node) (l1 l2 : list mark) (m : mark) :
  nmarks n = Some (l1 ++ m :: l2) ->
  mtype m = lit "link" ->
  (mattrs m = None \/ mattrs m = Some JUndefined
   \/ valid (validateURL (linkHref m)) = false) ->
  processText n = processText (with_marks n (l1 ++ l2))
  /\ ((forall m', In m' (l1 ++ l2) -> mtype m' <> lit "link") ->
      clean [lit "strong"; lit "em"; lit "code"] (processText n)).
Proof.
  intros Hms Hty Hhref.
  assert (Hv : valid (validateURL (linkHref m)) = false).
  { unfold linkHref. destruct Hhref as [->|[->|Hv]]; [reflexivity|reflexivity|].
    exact Hv. }
  assert (E : emits m = None).
  { unfold emits, has_type. rewrite Hty. cbn -[validateURL linkHref]. now rewrite Hv. }
  assert (Heq : processText n = processText (with_marks n (l1 ++ l2)))
    by now apply processText_drop with m.
  split; [exact Heq|]. intros Hno. rewrite Heq.
  apply processText_clean. cbn [with_marks nmarks].
  intros ms m' o c [= <-] Hin Em.
  apply emits_tags in Em as (name & Eo & Ec & [(_ & Hl & _)|Hn]).
  - now apply Hno in Hin.
  - split; exists [name]; (split; [assumption|now constructor]).
Qed.

Lemma processText_skips_rejected_link_witness :
  @processText simpleHost
    (textNode "x" (Some [plainMark "bold"; linkMark "javascript:alert(1)"]))
  = lit "<strong>x</strong>"
  /\ clean [lit "strong"; lit "em"; lit "code"]
       (@processText simpleHost
          (textNode "x" (Some [plainMark "bold";
                               linkMark "javascript:alert(1)"]))).
Proof.
  destruct (processText_skips_rejected_link simpleHost
              (textNode "x" (Some [plainMark "bold";
                                   linkMark "javascript:alert(1)"]))
              [plainMark "bold"] [] (linkMark "javascript:alert(1)")
              eq_refl eq_refl (or_intror (or_intror eq_refl))) as [E C].
  split.
  - rewrite E. reflexivity.
  - apply C. intros m' [<-|[]]. discriminate.
Defined.

(** ** The tags of the exported document *)

(** C1, as the specification has it, fails: a block quotation of two
    paragraphs is exported with a [br] tag between them, and [br] is not
    one of the allowed tags. *)
Lemma blockquote_emits_br :
  @generateCleanHTML simpleHost (Some quoteDoc)
  = lit "<blockquote>a<br>b</blockquote>"
  /\ tagsOf (@generateCleanHTML simpleHost (Some quoteDoc))
     = Some [lit "blockquote"; lit "br"; lit "blockquote"]
  /\ ~ In (lit "br") ALLOWED_TAGS.
Proof.
  split; [reflexivity|]. split; [reflexivity|].
  cbn. intuition discriminate.
Qed.

(** C1, amended: every tag of the output of [generateCleanHTML] is one of
    the allowed tags or the [br] that joins the parts of a block quotation,
    and the output reads back without a raw ampersand or angle bracket in
    a text run; the text of a text node stands in the output of the node
    escaped, as a run without tags that decodes to the text. *)
Theorem generateCleanHTML_emitted_tags (H : Host) (json : option node) :
  clean (ALLOWED_TAGS ++ [lit "br"]) (generateCleanHTML json)
  /\ (forall n t, ntype n = lit "text" -> ntext n = Some t ->
        exists opening closing,
          processText n = opening ++ escapeHTML (JStr t) ++ closing
          /\ tagsOf (escapeHTML (JStr t)) = Some []
          /\ decode (escapeHTML (JStr t)) = t).
Proof.
  split.
  - fold EMITTED_TAGS. destruct json as [root|]; [|apply clean_nil].
    cbn [generateCleanHTML].
    destruct (ncontent root) as [c|]; [|apply clean_nil].
    apply clean_join; [apply chars_clean; reflexivity|].
    apply clean_flat_map. apply Forall_forall. intros x _.
    apply clean_pushIf, processNode_emitted_tags.
  - intros n t Hty Ht.
    destruct (nmarks n) as [ms|] eqn:Hms.
    + eexists _, _. split; [apply (processText_marks n t ms Hty Ht Hms)|].
      split; [apply tagsOf_escapeHTML|apply decode_escapeHTML].
    + exists [], []. split.
      * unfold processText. rewrite Hty, Ht, Hms. cbn. now rewrite app_nil_r.
      * split; [apply tagsOf_escapeHTML|apply decode_escapeHTML].
Qed.

Lemma generateCleanHTML_emitted_tags_witness :
  clean (ALLOWED_TAGS ++ [lit "br"])
    (@generateCleanHTML simpleHost (Some quoteDoc))
  /\ exists opening closing,
       @processText simpleHost markedText
       = opening ++ lit "a&lt;b" ++ closing.
Proof.
  destruct (generateCleanHTML_emitted_tags simpleHost (Some quoteDoc))
    as [C T].
  split; [exact C|].
  destruct (T markedText (lit "a<b") eq_refl eq_refl) as (o & c & E & _).
  exists o, c. exact E.
Defined.

(** ** Blank blocks *)

Section Blank.
Context {H : Host}.

(** The dispatch of [processNode], for a node that need not be given by
    its fields. *)
Lemma processNode_eq (n : node) :
  processNode n =
  if negb (truthy (ntype n)) then []
  else if jseqb (ntype n) (lit "paragraph") then processParagraph n
  else if jseqb (ntype n) (lit "heading") then processHeading n
  else if jseqb (ntype n) (lit "bulletList") then processBulletList n
  else if jseqb (ntype n) (lit "listItem") then processListItem n
  else if jseqb (ntype n) (lit "blockquote") then processBlockquote n
  else if jseqb (ntype n) (lit "text") then processText n
  else match ncontent n with
       | Some c => join [] (filterBoolean (map processNode c))
       | None => []
       end.
Proof. destruct n. reflexivity. Qed.

Lemma pushIf_empty (s : jsstring) : s = [] -> pushIf s = [].
Proof. now intros ->. Qed.

Lemma flat_map_nothing {A B : Type} (f : A -> list B) (l : list A) :
  Forall (fun x => f x = []) l -> flat_map f l = [].
Proof.
  induction 1 as [|x l Hx _ IH]; [reflexivity|].
  cbn [flat_map]. now rewrite Hx, IH.
Qed.

Lemma processListItem_parts (n : node) :
  (forall l, ncontent n = Some l ->
     Forall (fun child => listItemPart child = []) l) ->
  processListItem n = [].
Proof.
  intros Hp. unfold processListItem, processListItem_.
  destruct (ncontent n) as [l|]; [|reflexivity]. cbv zeta.
  rewrite flat_map_nothing; [reflexivity|].
  eapply Forall_impl; [|exact (Hp l eq_refl)]. cbv beta.
  intros child. unfold listItemPart, processBulletList.
  destruct (jseqb (ntype child) (lit "paragraph")); [apply pushIf_empty|].
  destruct (jseqb (ntype child) (lit "bulletList")); apply pushIf_empty.
Qed.

Lemma processBlockquote_parts (n : node) :
  (forall l, ncontent n = Some l ->
     Forall (fun child => blockquotePart child = []) l) ->
  processBlockquote n = [].
Proof.
  intros Hp. unfold processBlockquote, processBlockquote_.
  destruct (ncontent n) as [l|]; [|reflexivity]. cbv zeta.
  rewrite flat_map_nothing; [reflexivity|].
  eapply Forall_impl; [|exact (Hp l eq_refl)]. cbv beta.
  intros child. unfold blockquotePart.
  destruct (jseqb (ntype child) (lit "paragraph")); apply pushIf_empty.
Qed.
End Blank.

(** C7, as the specification has it, fails for list items and block
    quotations: one that holds a paragraph of a single space has blank
    content, and is exported with its tags. *)
Lemma blank_item_and_quote_kept :
  blank (join [] (map (@listItemPart simpleHost)
                    [block "paragraph" [textNode " " None]]))
  /\ @processNode simpleHost blankItem = lit "<li> </li>"
  /\ blank (join (lit "<br>")
              (map (@blockquotePart simpleHost)
                 [block "paragraph" [textNode " " None]]))
  /\ @processNode simpleHost blankQuote = lit "<blockquote> </blockquote>".
Proof. repeat split. Qed.

(** C7, amended: a paragraph or a heading whose inline content is empty
    or nothing but white space is exported as the empty string; a list item
    or a block quotation is exported as the empty string when it has no
    content or when every child contributes the empty string. *)
Theorem blank_blocks_dropped (H : Host) (n : node) :
  (ntype n = lit "paragraph" \/ ntype n = lit "heading" ->
   blank (processInline (ncontent n)) -> processNode n = [])
  /\ (ntype n = lit "listItem" ->
      (forall l, ncontent n = Some l ->
         Forall (fun child => listItemPart child = []) l) ->
      processNode n = [])
  /\ (ntype n = lit "blockquote" ->
      (forall l, ncontent n = Some l ->
         Forall (fun child => blockquotePart child = []) l) ->
      processNode n = []).
Proof.
  rewrite processNode_eq. repeat split.
  - intros [E|E] Hb; rewrite E; cbn [truthy negb lit jseqb]; cbn -[processParagraph processHeading].
    + unfold processParagraph. cbv zeta. unfold blank in Hb. rewrite Hb.
      cbn [truthy negb]. now rewrite orb_true_r.
    + unfold processHeading. cbv zeta. unfold blank in Hb. rewrite Hb.
      cbn [truthy negb]. now rewrite orb_true_r.
  - intros E Hp. rewrite E. cbn -[processListItem].
    now apply processListItem_parts.
  - intros E Hp. rewrite E. cbn -[processBlockquote].
    now apply processBlockquote_parts.
Qed.

Lemma blank_blocks_dropped_witness :
  @processNode simpleHost (block "paragraph" [textNode "  " None]) = []
  /\ @processNode simpleHost
       (block "listItem" [block "paragraph" [textNode "" None]]) = []
  /\ @processNode simpleHost
       (block "blockquote" [block "paragraph" []]) = [].
Proof.
  split; [|split].
  - apply (proj1 (blank_blocks_dropped simpleHost
                    (block "paragraph" [textNode "  " None])));
      [left|]; reflexivity.
  - apply (proj1 (proj2 (blank_blocks_dropped simpleHost
             (block "listItem" [block "paragraph" [textNode "" None]]))));
      [reflexivity|].
    intros l [= <-]. repeat constructor.
  - apply (proj2 (proj2 (blank_blocks_dropped simpleHost
             (block "blockquote" [block "paragraph" []]))));
      [reflexivity|].
    intros l [= <-]. repeat constructor.
Defined.

(** ** Statistics *)

Lemma replaceAll_remove (class : N -> bool) (s : jsstring) :
  replaceAll class (fun _ => []) s = filter (fun c => negb (class c)) s.
Proof.
  unfold replaceAll. induction s as [|c s IH]; [reflexivity|].
  cbn [flat_map filter]. rewrite IH. now destruct (class c).
Qed.

Lemma replaceAll_one (class : N -> bool) (d : N) (s : jsstring) :
  replaceAll class (fun _ => [d]) s = map (fun c => if class c then d else c) s.
Proof.
  unfold replaceAll. induction s as [|c s IH]; [reflexivity|].
  cbn [flat_map map]. rewrite IH. now destruct (class c).
Qed.

Lemma dropWhile_split (p : N -> bool) (s : jsstring) :
  exists l, s = l ++ dropWhile p s /\ forallb p l = true.
Proof.
  induction s as [|c s (l & E & Hl)]; [now exists []|].
  cbn [dropWhile]. destruct (p c) eqn:Hc.
  - exists (c :: l). cbn [app forallb]. rewrite Hc, Hl. split; [congruence|reflexivity].
  - now exists [].
Qed.

(** [trim] takes white space off both ends. *)
Lemma trim_split (s : jsstring) :
  exists l r, s = l ++ trim s ++ r
              /\ forallb is_space l = true /\ forallb is_space r = true.
Proof.
  destruct (dropWhile_split is_space s) as (l & El & Hl).
  destruct (dropWhile_split is_space (rev (dropWhile is_space s)))
    as (r & Er & Hr).
  exists l, (rev r). unfold trim, trimStart, trimEnd. repeat split.
  - rewrite El at 1. f_equal. rewrite <- rev_app_distr, <- Er.
    now rewrite rev_involutive.
  - exact Hl.
  - rewrite forallb_forall in *. intros x Hx. apply Hr. now apply in_rev.
Qed.

Lemma dropWhile_all (p : N -> bool) (s : jsstring) :
  forallb p s = true -> dropWhile p s = [].
Proof.
  induction s as [|c s IH]; [reflexivity|]. cbn [forallb dropWhile].
  intros E. apply andb_prop in E as [-> E]. now apply IH.
Qed.

Lemma trim_spaces (s : jsstring) : forallb is_space s = true -> trim s = [].
Proof.
  intros E. unfold trim, trimStart, trimEnd.
  now rewrite (dropWhile_all _ _ E).
Qed.

Lemma trim_nil_spaces (s : jsstring) : trim s = [] -> forallb is_space s = true.
Proof.
  intros E. destruct (trim_split s) as (l & r & Es & Hl & Hr).
  rewrite E in Es. rewrite Es. cbn [app]. rewrite forallb_app.
  now rewrite Hl, Hr.
Qed.

Lemma cjk_not_space (c : N) : is_space c = true -> cjk c = false.
Proof.
  unfold is_space, cjk. intros E.
  repeat rewrite ?orb_true_iff, ?andb_true_iff, ?N.eqb_eq, ?N.leb_le in E.
  apply not_true_is_false. intros F.
  repeat rewrite ?orb_true_iff, ?andb_true_iff, ?N.leb_le in F.
  lia.
Qed.

Lemma spaces_no_cjk (l : jsstring) :
  forallb is_space l = true -> filter cjk l = [] /\ cjk_to_space l = l.
Proof.
  induction l as [|c l IH]; [now split|]. cbn [forallb]. intros E.
  apply andb_prop in E as [Ec El]. destruct (IH El) as [IH1 IH2].
  unfold cjk_to_space in *. cbn [filter map].
  rewrite (cjk_not_space c Ec), IH1, IH2. now split.
Qed.

Lemma tokens_go_spaces (r cur : jsstring) :
  forallb is_space r = true ->
  tokens_go cur r = match cur with [] => [] | _ :: _ => [rev cur] end.
Proof.
  revert cur; induction r as [|c r IH]; intros cur E; [reflexivity|].
  cbn [forallb] in E. apply andb_prop in E as [Ec Er].
  cbn [tokens_go]. rewrite Ec, (IH [] Er). now destruct cur.
Qed.

Lemma tokens_go_trailing (x r cur : jsstring) :
  forallb is_space r = true -> tokens_go cur (x ++ r) = tokens_go cur x.
Proof.
  intros Hr. revert cur; induction x as [|c x IH]; intros cur.
  - cbn [app tokens_go]. now apply tokens_go_spaces.
  - cbn [app tokens_go]. now rewrite !IH.
Qed.

Lemma tokens_leading (l x : jsstring) :
  forallb is_space l = true -> tokens (l ++ x) = tokens x.
Proof.
  unfold tokens. induction l as [|c l IH]; intros E; [reflexivity|].
  cbn [forallb] in E. apply andb_prop in E as [Ec El].
  cbn [app tokens_go]. rewrite Ec. now apply IH.
Qed.

(** Trimming changes neither the tokens nor the CJK characters. *)
Lemma trim_measures (s : jsstring) :
  count_cjk (trim s) = count_cjk s
  /\ tokens (cjk_to_space (trim s)) = tokens (cjk_to_space s)
  /\ tokens (trim s) = tokens s.
Proof.
  destruct (trim_split s) as (l & r & E & Hl & Hr).
  destruct (spaces_no_cjk l Hl) as [Fl Ml], (spaces_no_cjk r Hr) as [Fr Mr].
  repeat split.
  - rewrite E at 2. unfold count_cjk. rewrite !filter_app, Fl, Fr.
    cbn [app]. now rewrite app_nil_r.
  - rewrite E at 2. unfold cjk_to_space in *. rewrite !map_app, Ml, Mr.
    rewrite tokens_leading by exact Hl. unfold tokens.
    now rewrite tokens_go_trailing.
  - rewrite E at 2. rewrite tokens_leading by exact Hl. unfold tokens.
    now rewrite tokens_go_trailing.
Qed.

(** [split] followed by the filter on the length gives the tokens. *)
Lemma split_go_tokens (s cur : jsstring) (in_sep : bool) :
  (in_sep = true -> cur = []) ->
  filter truthy (split_go in_sep cur s) = tokens_go cur s.
Proof.
  revert cur in_sep; induction s as [|c s IH]; intros cur in_sep Hc.
  - cbn [split_go tokens_go filter].
    destruct cur as [|x cur]; [reflexivity|].
    destruct (rev (x :: cur)) eqn:E; [|reflexivity].
    apply (f_equal (@length N)) in E. rewrite length_rev in E. discriminate.
  - cbn [split_go tokens_go]. destruct (is_space c).
    + destruct in_sep.
      * rewrite (Hc eq_refl). now apply IH.
      * cbn [filter]. rewrite (IH [] true) by reflexivity.
        destruct cur as [|x cur]; [reflexivity|].
        destruct (rev (x :: cur)) eqn:E; [|reflexivity].
        apply (f_equal (@length N)) in E. rewrite length_rev in E.
        discriminate.
    + apply IH. discriminate.
Qed.

Lemma split_tokens (s : jsstring) :
  filter truthy (split_WORD_SPLIT s) = tokens s.
Proof. apply split_go_tokens. discriminate. Qed.

Lemma search_nowhere (class : N -> bool) (s : jsstring) (from pos : nat) :
  existsb class s = false -> search class s from pos = None.
Proof.
  revert pos; induction s as [|c s IH]; intros pos E; [reflexivity|].
  cbn [existsb] in E. apply orb_false_elim in E as [Ec Es].
  cbn [search]. rewrite Ec, andb_false_r. now apply IH.
Qed.

Lemma search_some (class : N -> bool) (s : jsstring) (pos : nat) :
  existsb class s = true -> exists i, search class s O pos = Some i.
Proof.
  revert pos; induction s as [|c s IH]; intros pos E; [discriminate|].
  cbn [existsb] in E. cbn [search]. cbn [Nat.leb andb].
  destruct (class c); [now exists pos|]. now apply IH.
Qed.

Lemma no_cjk_measures (s : jsstring) :
  has_cjk s = false -> count_cjk s = O /\ cjk_to_space s = s.
Proof.
  unfold has_cjk, count_cjk, cjk_to_space.
  induction s as [|c s IH]; [now split|]. cbn [existsb filter map].
  intros E. apply orb_false_elim in E as [Ec Es].
  destruct (IH Es) as [IH1 IH2]. rewrite Ec, IH2. now split.
Qed.

(** From the initial state of [REGEX.cjk], [calculateWordCount] counts
    the CJK characters and the tokens of the rest, and leaves the state as
    it found it. *)
Lemma calculateWordCount_spec (text : jsstring) :
  calculateWordCount O text
  = ((count_cjk text + length (tokens (cjk_to_space text)))%nat, O).
Proof.
  unfold calculateWordCount. destruct text as [|c text]; [reflexivity|].
  cbn [truthy negb]. set (s := c :: text).
  unfold containsCJK, test_g. cbn [Nat.ltb Nat.leb].
  destruct (existsb cjk s) eqn:E.
  - destruct (search_some cjk s O E) as (i & ->).
    unfold countCJK, match_g. rewrite replaceAll_one, split_tokens.
    fold (cjk_to_space s). f_equal. f_equal. unfold count_cjk.
    destruct (filter cjk s); [reflexivity|]. now rewrite length_map.
  - rewrite (search_nowhere cjk s O O E).
    destruct (no_cjk_measures s E) as [-> ->].
    now rewrite split_tokens.
Qed.

Lemma strip_zero_width_spaces (s : jsstring) :
  forallb is_space s = true -> forallb is_space (strip_zero_width s) = true.
Proof.
  intros E. rewrite forallb_forall in *. intros c Hc.
  apply filter_In in Hc as [Hc _]. now apply E.
Qed.

Lemma spaces_measures (s : jsstring) :
  forallb is_space s = true ->
  count_cjk s = O /\ tokens (cjk_to_space s) = [] /\ tokens s = [].
Proof.
  intros E. destruct (spaces_no_cjk s E) as [F M].
  unfold count_cjk. rewrite F, M. unfold tokens.
  now rewrite (tokens_go_spaces s [] E).
Qed.

(** The words [calculateStats] reports, from the initial state. *)
Lemma calculateStats_words_spec (s : jsstring) :
  let n := strip_zero_width s in
  words (fst (calculateStats O (JStr s)))
  = (count_cjk n + length (tokens (cjk_to_space n)))%nat
  /\ snd (calculateStats O (JStr s)) = O.
Proof.
  cbv zeta. destruct s as [|c s]; [now split|].
  set (t := c :: s). unfold calculateStats.
  unfold normalizeText. rewrite replaceAll_remove. fold (strip_zero_width t).
  set (n := strip_zero_width t).
  destruct (trim n) as [|d tr] eqn:Et.
  - cbn [truthy negb fst snd words zeroStats].
    apply trim_nil_spaces in Et.
    destruct (spaces_measures n Et) as (-> & -> & _). now split.
  - cbn [truthy negb]. rewrite <- Et. rewrite calculateWordCount_spec.
    cbn [fst snd words].
    destruct (trim_measures n) as (-> & -> & _). now split.
Qed.

Lemma cjk_not_zeroWidth (c : N) : cjk c = true -> zeroWidth c = false.
Proof.
  unfold zeroWidth, cjk. intros E.
  repeat rewrite ?orb_true_iff, ?andb_true_iff, ?N.leb_le in E.
  apply not_true_is_false. intros F.
  repeat rewrite ?orb_true_iff, ?andb_true_iff, ?N.eqb_eq, ?N.leb_le in F.
  lia.
Qed.

Lemma strip_zero_width_cjk (s : jsstring) :
  count_cjk (strip_zero_width s) = count_cjk s
  /\ has_cjk (strip_zero_width s) = has_cjk s.
Proof.
  unfold count_cjk, has_cjk, strip_zero_width.
  induction s as [|c s [IH1 IH2]]; [now split|]. cbn [filter existsb].
  destruct (cjk c) eqn:Ec.
  - rewrite (cjk_not_zeroWidth c Ec). cbn [negb filter existsb length].
    rewrite Ec. cbn [length orb]. now rewrite IH1.
  - destruct (zeroWidth c); cbn [negb filter existsb]; rewrite ?Ec; now split.
Qed.

Lemma calculateStats_from_zero (v : jsval) :
  snd (calculateStats O v) = O.
Proof.
  destruct v as [| | | |s|]; try reflexivity.
  exact (proj2 (calculateStats_words_spec s)).
Qed.

(** Every call of [calculateStats] finds [lastIndex] at 0. *)
Lemma lastIndexAfter_zero (earlier : list jsval) :
  lastIndexAfter earlier = O.
Proof.
  unfold lastIndexAfter.
  induction earlier as [|v l IH] using rev_ind; [reflexivity|].
  rewrite fold_left_app. cbn [fold_left]. rewrite IH.
  apply calculateStats_from_zero.
Qed.

(** C8: whatever calls of [calculateStats] went before, [calculateStats]
    reports for a string with a CJK character the number of its CJK
    characters plus the number of non-empty white-space-delimited tokens of
    the text with every CJK character replaced by a space, and for a string
    without one the number of such tokens of the text.  The text is the one
    that is measured: the string without its zero-width characters, which
    are removed before anything is counted.  The text hello, two Han
    characters, world has 4 words.  The calls before do not matter because
    each of them leaves [lastIndex] at 0. *)
Theorem calculateStats_words_by_script (earlier : list jsval)
    (s : jsstring) :
  let lastIndex := lastIndexAfter earlier in
  let text := strip_zero_width s in
  (has_cjk s = true ->
   words (fst (calculateStats lastIndex (JStr s)))
   = (count_cjk s + length (tokens (cjk_to_space text)))%nat)
  /\ (has_cjk s = false ->
      words (fst (calculateStats lastIndex (JStr s)))
      = length (tokens text))
  /\ words (fst (calculateStats lastIndex (JStr mixed_text))) = 4%nat
  /\ lastIndexAfter (earlier ++ [JStr s]) = O.
Proof.
  cbv zeta. rewrite lastIndexAfter_zero.
  destruct (calculateStats_words_spec s) as [W S]. cbv zeta in W.
  destruct (strip_zero_width_cjk s) as [C Hc]. rewrite C in W.
  repeat split.
  - intros _. exact W.
  - intros E. rewrite <- Hc in E.
    destruct (no_cjk_measures _ E) as [E0 E1].
    rewrite W, E1, <- C, E0. reflexivity.
  - apply lastIndexAfter_zero.
Qed.

Lemma calculateStats_words_by_script_witness :
  words (fst (calculateStats
                (lastIndexAfter [JStr [0x4F60]; JNull; JStr mixed_text])
                (JStr mixed_text))) = 4%nat
  /\ words (fst (calculateStats
                   (lastIndexAfter [JStr [0x4F60]; JNull; JStr mixed_text])
                   (JStr (lit "hello world")))) = 2%nat.
Proof.
  split.
  - rewrite (proj1 (calculateStats_words_by_script
                      [JStr [0x4F60]; JNull; JStr mixed_text] mixed_text)
               eq_refl).
    reflexivity.
  - rewrite (proj1 (proj2 (calculateStats_words_by_script
                             [JStr [0x4F60]; JNull; JStr mixed_text]
                             (lit "hello world")))
               eq_refl).
    reflexivity.
Defined.

Lemma ceil_div_least (a : nat) :
  (a <= 200 * ceil_div a 200
   /\ forall m, a <= 200 * m -> ceil_div a 200 <= m)%nat.
Proof.
  unfold ceil_div. cbn [Nat.sub].
  pose proof (Nat.div_mod_eq (a + 199) 200) as E.
  pose proof (Nat.mod_upper_bound (a + 199) 200 ltac:(discriminate)) as B.
  split; [lia|]. intros m Hm. lia.
Qed.

Lemma calculateStats_ceil (st : regex_state) (v : jsval) :
  readingTimeMinutes (fst (calculateStats st v))
  = ceil_div (words (fst (calculateStats st v))) WORDS_PER_MINUTE.
Proof.
  unfold calculateStats. destruct v as [| | | |s|]; try reflexivity.
  destruct s as [|c s]; [reflexivity|].
  destruct (negb _); [reflexivity|].
  now destruct (calculateWordCount _ _).
Qed.

Lemma calculateStats_blank (st : regex_state) (v : jsval) :
  (forall s, v = JStr s -> blank s) -> fst (calculateStats st v) = zeroStats.
Proof.
  intros Hv. destruct v as [| | | |s|]; try reflexivity.
  specialize (Hv s eq_refl). unfold blank in Hv.
  destruct s as [|c s]; [reflexivity|].
  unfold calculateStats, normalizeText. rewrite replaceAll_remove.
  fold (strip_zero_width (c :: s)).
  rewrite trim_spaces; [reflexivity|].
  now apply strip_zero_width_spaces, trim_nil_spaces.
Qed.

(** On a text without a CJK character the state of [REGEX.cjk] does not
    matter. *)
Lemma calculateStats_no_cjk_state (st : regex_state) (s : jsstring) :
  has_cjk s = false ->
  fst (calculateStats st (JStr s)) = fst (calculateStats O (JStr s)).
Proof.
  intros E. unfold calculateStats. destruct s as [|c s]; [reflexivity|].
  set (t := c :: s) in *. unfold normalizeText. rewrite replaceAll_remove.
  fold (strip_zero_width t). set (n := strip_zero_width t).
  destruct (negb (truthy (trim n))) eqn:Et; [reflexivity|].
  assert (En : existsb cjk (trim n) = false).
  { assert (Hn : has_cjk n = false)
      by (unfold n; now rewrite (proj2 (strip_zero_width_cjk t))).
    destruct (trim_split n) as (l & r & Es & _ & _).
    unfold has_cjk in Hn. rewrite Es, !existsb_app in Hn.
    apply orb_false_elim in Hn as [_ Hn].
    now apply orb_false_elim in Hn as [Hn _]. }
  unfold calculateWordCount. rewrite Et.
  unfold containsCJK, test_g.
  rewrite !(search_nowhere cjk (trim n) _ O En).
  now destruct (_ <? _)%nat, (_ <? _)%nat.
Qed.

(** C9: [readingTimeMinutes] is the ceiling of [words] over 200, the
    least number of minutes that 200 words a minute cover the words in; an
    input that is not a string, is empty or is nothing but white space gives
    the zero result; 200 words give 1 minute and 201 words give 2, where
    the words of a text without CJK and zero-width characters are its
    white-space-delimited tokens, as for the texts of 200 and of 201 words
    separated by spaces. *)
Theorem calculateStats_readingTime (st : regex_state) (v : jsval) :
  let r := fst (calculateStats st v) in
  ((words r <= 200 * readingTimeMinutes r)%nat
   /\ forall m, (words r <= 200 * m)%nat -> (readingTimeMinutes r <= m)%nat)
  /\ ((forall s, v = JStr s -> blank s) -> r = zeroStats)
  /\ (words r = 200%nat -> readingTimeMinutes r = 1%nat)
  /\ (words r = 201%nat -> readingTimeMinutes r = 2%nat)
  /\ (forall s, v = JStr s -> has_cjk s = false -> strip_zero_width s = s ->
        words r = length (tokens s))
  /\ fst (calculateStats st (JStr (words_text 200)))
     = {| words := 200; characters := 800; readingTimeMinutes := 1 |}
  /\ fst (calculateStats st (JStr (words_text 201)))
     = {| words := 201; characters := 804; readingTimeMinutes := 2 |}.
Proof.
  cbv zeta. rewrite calculateStats_ceil.
  repeat split.
  - apply ceil_div_least.
  - apply ceil_div_least.
  - apply calculateStats_blank.
  - intros ->. reflexivity.
  - intros ->. reflexivity.
  - intros s -> Hc Hz. rewrite (calculateStats_no_cjk_state st s Hc).
    destruct (calculateStats_words_spec s) as [W _]. cbv zeta in W.
    rewrite W, Hz. destruct (no_cjk_measures s Hc) as [-> ->]. reflexivity.
  - rewrite calculateStats_no_cjk_state by (vm_compute; reflexivity).
    vm_compute. reflexivity.
  - rewrite calculateStats_no_cjk_state by (vm_compute; reflexivity).
    vm_compute. reflexivity.
Qed.

Lemma calculateStats_readingTime_witness :
  fst (calculateStats O (JStr (lit "   "))) = zeroStats
  /\ readingTimeMinutes (fst (calculateStats O (JStr (words_text 200)))) = 1%nat
  /\ readingTimeMinutes (fst (calculateStats O (JStr (words_text 201)))) = 2%nat.
Proof.
  split; [|split].
  - apply (proj1 (proj2 (calculateStats_readingTime O (JStr (lit "   "))))).
    intros s [= <-]. reflexivity.
  - apply (proj1 (proj2 (proj2
             (calculateStats_readingTime O (JStr (words_text 200)))))).
    vm_compute. reflexivity.
  - apply (proj1 (proj2 (proj2 (proj2
             (calculateStats_readingTime O (JStr (words_text 201))))))).
    vm_compute. reflexivity.
Defined.

(** * Further properties of the code *)

(** ** escapeAttribute *)

Lemma replaceChar_app (c : N) (rep a b : jsstring) :
  replaceChar c rep (a ++ b) = replaceChar c rep a ++ replaceChar c rep b.
Proof. unfold replaceChar, replaceAll. apply flat_map_app. Qed.

Lemma replaceChar_cons_other (c x : N) (rep s : jsstring) :
  c <> x -> replaceChar c rep (x :: s) = x :: replaceChar c rep s.
Proof.
  intros Hx. unfold replaceChar, replaceAll. cbn [flat_map].
  destruct (N.eqb_spec c x); [contradiction|reflexivity].
Qed.

Lemma escapeAttribute_cons (x : N) (s : jsstring) :
  escapeAttribute (JStr (x :: s))
  = escapeAttribute (JStr [x]) ++ escapeAttribute (JStr s).
Proof.
  cbn [escapeAttribute]. change (x :: s) with ([x] ++ s).
  now rewrite !replaceChar_app.
Qed.

Lemma escapeAttribute_one (x : N) :
  escapeAttribute (JStr [x])
  = if htmlEntities x then HTML_ENTITY_MAP x else [x].
Proof.
  unfold htmlEntities, HTML_ENTITY_MAP.
  destruct (N.eqb_spec x 38) as [->|N38]; [reflexivity|].
  destruct (N.eqb_spec x 60) as [->|N60]; [reflexivity|].
  destruct (N.eqb_spec x 62) as [->|N62]; [reflexivity|].
  destruct (N.eqb_spec x 34) as [->|N34]; [reflexivity|].
  destruct (N.eqb_spec x 39) as [->|N39]; [reflexivity|].
  cbn [orb escapeAttribute].
  rewrite !replaceChar_cons_other by congruence. reflexivity.
Qed.

Lemma escapeAttribute_pieces (s : jsstring) :
  escapeAttribute (JStr s)
  = flat_map (fun x => if htmlEntities x then HTML_ENTITY_MAP x else [x]) s.
Proof.
  induction s as [|x s IH]; [reflexivity|].
  rewrite escapeAttribute_cons, escapeAttribute_one, IH. reflexivity.
Qed.

(** X1: the five replacements of [escapeAttribute], made one after the
    other, give what the single pass of [escapeHTML] gives: no replacement
    touches what an earlier one wrote. *)
Theorem escapeAttribute_is_escapeHTML (s : jsstring) :
  escapeAttribute (JStr s) = escapeHTML (JStr s).
Proof.
  induction s as [|x s IH]; [reflexivity|].
  rewrite escapeAttribute_cons, escapeAttribute_one, IH.
  reflexivity.
Qed.

Lemma escapeHTML_no_special (s : jsstring) :
  Forall (fun c => ~ In c [34; 39; 60; 62]) (escapeHTML (JStr s)).
Proof.
  cbn [escapeHTML]. unfold replaceAll.
  induction s as [|x s IH]; [constructor|].
  cbn [flat_map]. apply Forall_app. split; [|exact IH].
  unfold htmlEntities, HTML_ENTITY_MAP.
  destruct (N.eqb_spec x 38) as [->|N38];
    [repeat constructor; cbn; intuition discriminate|].
  destruct (N.eqb_spec x 60) as [->|N60];
    [repeat constructor; cbn; intuition discriminate|].
  destruct (N.eqb_spec x 62) as [->|N62];
    [repeat constructor; cbn; intuition discriminate|].
  destruct (N.eqb_spec x 34) as [->|N34];
    [repeat constructor; cbn; intuition discriminate|].
  destruct (N.eqb_spec x 39) as [->|N39];
    [repeat constructor; cbn; intuition discriminate|].
  cbn [orb]. repeat constructor. cbn. intuition congruence.
Qed.

(** X2: the value [escapeAttribute] writes holds no double quote, no
    apostrophe and no angle bracket, so it cannot end the attribute or the
    tag it stands in; every ampersand in it starts an entity; and reading
    the entities back gives the string that was escaped. *)
Theorem escapeAttribute_safe_and_reversible (s : jsstring) :
  Forall (fun c => ~ In c [34; 39; 60; 62]) (escapeAttribute (JStr s))
  /\ tagsOf (escapeAttribute (JStr s)) = Some []
  /\ decode (escapeAttribute (JStr s)) = s.
Proof.
  rewrite escapeAttribute_pieces.
  change (flat_map _ s) with (escapeHTML (JStr s)). split; [|split].
  - apply escapeHTML_no_special.
  - apply tagsOf_escapeHTML.
  - apply decode_escapeHTML.
Qed.

(** ** trim *)

Lemma dropWhile_head (p : N -> bool) (s : jsstring) :
  match dropWhile p s with [] => True | c :: _ => p c = false end.
Proof.
  induction s as [|c s IH]; [exact I|]. cbn [dropWhile].
  destruct (p c) eqn:E; [exact IH|exact E].
Qed.

Lemma dropWhile_fix (p : N -> bool) (s : jsstring) :
  match s with [] => True | c :: _ => p c = false end -> dropWhile p s = s.
Proof. destruct s as [|c s]; [reflexivity|]. cbn [dropWhile]. now intros ->. Qed.

Lemma dropWhile_app_stop (p : N -> bool) (l r : jsstring) (c : N) :
  p c = false -> dropWhile p (l ++ c :: r) = dropWhile p l ++ c :: r.
Proof.
  intros Hc. induction l as [|a l IH]; cbn [app dropWhile].
  - now rewrite Hc.
  - destruct (p a); [exact IH|reflexivity].
Qed.

Lemma trim_clipped (s : jsstring) : clipped (trim s).
Proof.
  unfold clipped, trim, trimEnd, trimStart. rewrite rev_involutive.
  split; [|apply dropWhile_head].
  pose proof (dropWhile_head is_space s) as Hh.
  destruct (dropWhile is_space s) as [|c x]; [exact I|].
  cbn [rev]. rewrite (dropWhile_app_stop is_space (rev x) [] c Hh).
  rewrite rev_app_distr. cbn [rev app]. exact Hh.
Qed.

Lemma clipped_trim (t : jsstring) : clipped t -> trim t = t.
Proof.
  intros [Hh Hl]. unfold trim, trimStart, trimEnd.
  rewrite (dropWhile_fix is_space t Hh), (dropWhile_fix is_space (rev t) Hl).
  apply rev_involutive.
Qed.

Lemma trim_idem (s : jsstring) : trim (trim s) = trim s.
Proof. apply clipped_trim, trim_clipped. Qed.

(** ** What validateURL accepts *)

(** What a valid result of [validateURL] comes from. *)
Lemma validateURL_valid_inv {H : Host} (v : jsval) :
  valid (validateURL v) = true ->
  exists s u, v = JStr s /\ accepts s u
              /\ url (validateURL v) = href u
              /\ error (validateURL v) = None.
Proof.
  destruct v as [| | | |s|]; try discriminate.
  destruct s as [|c s]; [discriminate|].
  unfold validateURL. cbn [truthy negb].
  set (t := trim (c :: s)).
  destruct (startsWith (lit "javascript:") (toLowerCase t)) eqn:B1;
    [discriminate|].
  destruct (startsWith (lit "data:") (toLowerCase t)) eqn:B2;
    [discriminate|].
  destruct (startsWith (lit "vbscript:") (toLowerCase t)) eqn:B3;
    [discriminate|].
  cbn [orb].
  assert (Hb : Forall (fun pat => startsWith pat (toLowerCase t) = false)
                 blockedPrefixes) by (repeat constructor; assumption).
  destruct (URL_new t) as [u|] eqn:Eu.
  - destruct (includesStr allowedProtocols (protocol u)) eqn:Ea;
      [|discriminate].
    intros _. exists (c :: s), u. cbn [negb url error].
    repeat split; try assumption; try discriminate. left. now split.
  - destruct (includes (lit "://") t) eqn:Hi; [discriminate|].
    destruct (startsWith (lit "mailto:") t) eqn:Hm; [discriminate|].
    cbn [negb andb].
    destruct (URL_new (lit "https://" ++ t)) as [u|] eqn:Eh;
      [|discriminate].
    intros _. exists (c :: s), u. cbn [url error].
    repeat split; try assumption; try discriminate. right. now repeat split.
Qed.

(** X3: [validateURL] accepts exactly the non-empty strings whose trimmed
    form has none of the blocked prefixes and either parses with the
    protocol [http:], [https:] or [mailto:], or fails to parse, has no
    [://], does not start with [mailto:] and parses behind [https://]; the
    result then carries the [href] of that parse and no error. *)
Theorem validateURL_accepts (H : Host) (v : jsval) :
  (forall s u, v = JStr s -> accepts s u ->
     validateURL v = {| valid := true; url := href u; error := None |})
  /\ (valid (validateURL v) = true ->
      exists s u, v = JStr s /\ accepts s u
                  /\ url (validateURL v) = href u
                  /\ error (validateURL v) = None).
Proof.
  split; [|apply validateURL_valid_inv].
  intros s u -> (Hs & Hb & Hp). destruct s as [|c s]; [congruence|].
  unfold validateURL. cbn [truthy negb].
  unfold blockedPrefixes in Hb.
  inversion Hb as [|? ? B1 Hb1]; subst.
  inversion Hb1 as [|? ? B2 Hb2]; subst.
  inversion Hb2 as [|? ? B3 _]; subst.
  rewrite B1, B2, B3. cbn [orb].
  destruct Hp as [[-> Ha]|(-> & Hi & Hm & ->)].
  - now rewrite Ha.
  - now rewrite Hi, Hm.
Qed.

Lemma validateURL_accepts_witness :
  valid (@validateURL simpleHost (JStr (lit " http://x.com/ "))) = true.
Proof.
  rewrite (proj1 (validateURL_accepts simpleHost (JStr (lit " http://x.com/ ")))
             (lit " http://x.com/ ")
             {| protocol := lit "http:"; href := lit "http://x.com/" |}
             eq_refl).
  - reflexivity.
  - split; [discriminate|]. split; [repeat constructor|].
    left. split; reflexivity.
Defined.

(** X4: white space around the address does not matter to [validateURL]:
    a string that is not blank is validated as its trimmed form is. *)
Theorem validateURL_trim (H : Host) (s : jsstring) :
  trim s <> [] -> validateURL (JStr s) = validateURL (JStr (trim s)).
Proof.
  intros Ht. unfold validateURL. rewrite trim_idem.
  destruct s as [|c s]; [now destruct Ht|].
  destruct (trim (c :: s)) as [|d t]; [now destruct Ht|]. reflexivity.
Qed.

Lemma validateURL_trim_witness :
  @validateURL simpleHost (JStr (lit "  http://x.com/ "))
  = @validateURL simpleHost (JStr (lit "http://x.com/")).
Proof.
  apply (validateURL_trim simpleHost (lit "  http://x.com/ ")). discriminate.
Defined.

(** ** What calculateStats counts *)

Lemma filter_spaces (l : jsstring) :
  forallb is_space l = true -> filter not_space l = [].
Proof.
  induction l as [|c l IH]; [reflexivity|]. cbn [forallb filter].
  intros E. apply andb_prop in E as [Ec El]. unfold not_space at 1.
  rewrite Ec. cbn [negb]. now apply IH.
Qed.

Lemma trim_not_space (s : jsstring) :
  filter not_space (trim s) = filter not_space s.
Proof.
  destruct (trim_split s) as (l & r & E & Hl & Hr). rewrite E at 2.
  rewrite !filter_app, (filter_spaces l Hl), (filter_spaces r Hr).
  cbn [app]. now rewrite app_nil_r.
Qed.

Lemma strip_visible (s : jsstring) :
  filter not_space (strip_zero_width s) = filter visible s.
Proof.
  unfold strip_zero_width, visible, not_space.
  induction s as [|c s IH]; [reflexivity|]. cbn [filter].
  destruct (zeroWidth c); cbn [negb filter].
  - now rewrite andb_false_r.
  - rewrite andb_true_r. destruct (is_space c); cbn [negb]; now rewrite IH.
Qed.

(** The fields of the result, for a string that is not empty. *)
Lemma calculateStats_fields (st : regex_state) (c : N) (s : jsstring) :
  let t := trim (strip_zero_width (c :: s)) in
  calculateStats st (JStr (c :: s))
  = if negb (truthy t) then (zeroStats, st)
    else ({| words := fst (calculateWordCount st t);
             characters := length (filter not_space t);
             readingTimeMinutes :=
               ceil_div (fst (calculateWordCount st t)) WORDS_PER_MINUTE |},
          snd (calculateWordCount st t)).
Proof.
  cbv zeta. unfold calculateStats, normalizeText.
  rewrite !replaceAll_remove. fold (strip_zero_width (c :: s)).
  fold not_space.
  destruct (negb _); [reflexivity|].
  now destruct (calculateWordCount _ _).
Qed.

(** X5: [characters] is the number of code units of the input that are
    neither white space nor zero-width, whatever the state of the shared
    regular expression. *)
Theorem calculateStats_characters (st : regex_state) (s : jsstring) :
  characters (fst (calculateStats st (JStr s))) = count_visible s.
Proof.
  unfold count_visible. destruct s as [|c s]; [reflexivity|].
  rewrite calculateStats_fields. cbv zeta.
  set (t := trim (strip_zero_width (c :: s))).
  assert (E : length (filter visible (c :: s)) = length (filter not_space t))
    by (unfold t; now rewrite trim_not_space, strip_visible).
  rewrite E. destruct t; reflexivity.
Qed.

Lemma tokens_go_bound (s cur : jsstring) :
  (length (tokens_go cur s)
   <= length (filter not_space s)
      + match cur with [] => 0 | _ :: _ => 1 end)%nat.
Proof.
  revert cur; induction s as [|c s IH]; intros cur.
  - destruct cur; cbn; lia.
  - cbn [tokens_go filter]. unfold not_space at 1.
    destruct (is_space c); cbn [negb length].
    + specialize (IH []). destruct cur; cbn [length] in *; lia.
    + specialize (IH (c :: cur)). cbn [length] in *. lia.
Qed.

Lemma tokens_bound (s : jsstring) :
  (length (tokens s) <= length (filter not_space s))%nat.
Proof.
  pose proof (tokens_go_bound s []) as B. cbv iota in B. unfold tokens. lia.
Qed.

Lemma tokens_go_some (s cur : jsstring) :
  cur <> [] \/ filter not_space s <> [] -> tokens_go cur s <> [].
Proof.
  revert cur; induction s as [|c s IH]; intros cur Hc.
  - cbn in *. destruct cur; [tauto|discriminate].
  - cbn [tokens_go filter] in *. unfold not_space at 1 in Hc.
    destruct (is_space c); cbn [negb] in Hc.
    + destruct cur; [|discriminate]. apply IH. tauto.
    + apply IH. left. discriminate.
Qed.

Lemma cjk_to_space_count (t : jsstring) :
  (count_cjk t + length (filter not_space (cjk_to_space t)))%nat
  = length (filter not_space t).
Proof.
  unfold count_cjk, cjk_to_space, not_space.
  induction t as [|c t IH]; [reflexivity|]. cbn [filter map].
  destruct (cjk c) eqn:Ec.
  - assert (Es : is_space c = false).
    { destruct (is_space c) eqn:E; [|reflexivity].
      rewrite (cjk_not_space c E) in Ec. discriminate. }
    rewrite Es. change (is_space 32) with true. cbn [negb length]. lia.
  - destruct (is_space c); cbn [negb length]; lia.
Qed.

Lemma cjk_to_space_some (t : jsstring) :
  filter not_space t <> [] ->
  (1 <= count_cjk t + length (tokens (cjk_to_space t)))%nat.
Proof.
  intros Ht.
  assert (L : (1 <= length (filter not_space t))%nat)
    by (destruct (filter not_space t); [congruence|cbn; lia]).
  rewrite <- cjk_to_space_count in L.
  destruct (count_cjk t); [|lia]. cbn [Nat.add] in *.
  assert (Hn : filter not_space (cjk_to_space t) <> [])
    by (destruct (filter not_space (cjk_to_space t)); [cbn in L; lia|discriminate]).
  pose proof (tokens_go_some (cjk_to_space t) [] (or_intror Hn)) as Hk.
  unfold tokens. destruct (tokens_go [] (cjk_to_space t)); [congruence|cbn; lia].
Qed.

(** What [calculateWordCount] returns, in any state: the count by script
    when the test for CJK succeeds, the count of tokens when it fails. *)
Lemma calculateWordCount_cases (st : regex_state) (text : jsstring) :
  fst (calculateWordCount st text)
  = (count_cjk text + length (tokens (cjk_to_space text)))%nat
  \/ fst (calculateWordCount st text) = length (tokens text).
Proof.
  unfold calculateWordCount. destruct text as [|c text]; [now right|].
  cbn [truthy negb]. set (s := c :: text).
  destruct (containsCJK st (JStr s)) as [[|] st1].
  - left. unfold countCJK, match_g. rewrite replaceAll_one, split_tokens.
    fold (cjk_to_space s). cbn [fst]. f_equal. unfold count_cjk.
    destruct (filter cjk s); [reflexivity|]. now rewrite length_map.
  - right. cbn [fst]. now rewrite split_tokens.
Qed.

Lemma ceil_div_pos (a : nat) : (1 <= a -> 1 <= ceil_div a 200)%nat.
Proof.
  intros Ha. destruct (ceil_div_least a) as [Hle _]. lia.
Qed.

(** X6: in any state of the shared regular expression, the words never
    outnumber the characters; a text without a visible character gives the
    zero result; and a text with one has at least one word and one minute
    of reading time. *)
Theorem calculateStats_words_bounds (st : regex_state) (v : jsval) :
  let r := fst (calculateStats st v) in
  (words r <= characters r)%nat
  /\ (characters r = 0%nat -> r = zeroStats)
  /\ ((1 <= characters r)%nat ->
      (1 <= words r)%nat /\ (1 <= readingTimeMinutes r)%nat).
Proof.
  cbv zeta. destruct v as [| | | |s|]; try (cbn; repeat split; lia).
  destruct s as [|c s]; [cbn; repeat split; lia|].
  rewrite calculateStats_fields. cbv zeta.
  set (t := trim (strip_zero_width (c :: s))).
  pose proof (trim_clipped (strip_zero_width (c :: s))) as [Hh _].
  fold t in Hh.
  destruct t as [|d t'] eqn:Et; [cbn; repeat split; lia|].
  cbn [truthy negb fst words characters readingTimeMinutes].
  assert (Hv : filter not_space (d :: t') <> []).
  { cbn [filter]. unfold not_space at 1. rewrite Hh. discriminate. }
  assert (W : (1 <= fst (calculateWordCount st (d :: t'))
               <= length (filter not_space (d :: t')))%nat).
  { destruct (calculateWordCount_cases st (d :: t')) as [-> | ->].
    - split; [now apply cjk_to_space_some|].
      rewrite <- (cjk_to_space_count (d :: t')).
      pose proof (tokens_bound (cjk_to_space (d :: t'))). lia.
    - split.
      + pose proof (tokens_go_some (d :: t') [] (or_intror Hv)).
        unfold tokens. destruct (tokens_go [] (d :: t')); [congruence|cbn; lia].
      + apply tokens_bound. }
  split; [lia|]. split.
  - intros E. rewrite E in W. lia.
  - intros _. split; [lia|]. apply ceil_div_pos. lia.
Qed.

Lemma calculateStats_words_bounds_witness :
  (1 <= words (fst (calculateStats O (JStr (lit "hello world")))))%nat
  /\ (1 <= readingTimeMinutes
             (fst (calculateStats O (JStr (lit "hello world")))))%nat.
Proof.
  apply (proj2 (proj2 (calculateStats_words_bounds O
                         (JStr (lit "hello world"))))).
  vm_compute. lia.
Defined.

(** ** The state of the shared regular expression *)

Lemma search_drop (class : N -> bool) (s : jsstring) :
  forall from pos, (pos <= from)%nat ->
    search class s from pos = search class (skipn (from - pos) s) from from.
Proof.
  induction s as [|c s IH]; intros from pos Hp.
  - now rewrite skipn_nil.
  - destruct (Nat.eq_dec pos from) as [->|Hne].
    + now rewrite Nat.sub_diag.
    + cbn [search]. destruct (Nat.leb_spec from pos); [lia|]. cbn [andb].
      rewrite (IH from (S pos)) by lia.
      replace (from - pos)%nat with (S (from - S pos)) by lia. reflexivity.
Qed.

Lemma search_first (class : N -> bool) (s : jsstring) :
  forall from pos, (from <= pos)%nat -> existsb class s = true ->
    exists i, search class s from pos = Some i
              /\ (pos <= i < pos + length s)%nat
              /\ (length (filter class (skipn (S (i - pos)) s)) + 1
                  = length (filter class s))%nat.
Proof.
  induction s as [|c s IH]; intros from pos Hp E; [discriminate|].
  cbn [existsb] in E. cbn [search filter length].
  destruct (Nat.leb_spec from pos); [|lia]. cbn [andb].
  destruct (class c) eqn:Ec.
  - exists pos. rewrite Nat.sub_diag. cbn [skipn length]. repeat split; lia.
  - cbn [orb] in E. destruct (IH from (S pos) ltac:(lia) E) as (i & Ei & Hi & Hf).
    exists i. split; [exact Ei|]. split; [lia|].
    replace (S (i - pos)) with (S (S (i - S pos))) by lia.
    cbn [skipn]. exact Hf.
Qed.


Lemma containsCJK_reset (st : regex_state) (s : jsstring) :
  fst (containsCJK st (JStr s)) = has_cjk (skipn st s)
  /\ (fst (containsCJK st (JStr s)) = false ->
      snd (containsCJK st (JStr s)) = O).
Proof.
  unfold containsCJK, test_g, has_cjk.
  destruct (Nat.ltb_spec (length s) st) as [Hlt|Hle].
  - rewrite skipn_all2 by lia. now split.
  - rewrite (search_drop cjk s st O) by lia. rewrite Nat.sub_0_r.
    destruct (existsb cjk (skipn st s)) eqn:E.
    + destruct (search_first cjk (skipn st s) st st (le_n st) E)
        as (i & -> & _). split; [reflexivity|discriminate].
    + rewrite (search_nowhere cjk (skipn st s) st st E). now split.
Qed.



Lemma strip_zero_width_idem (s : jsstring) :
  strip_zero_width (strip_zero_width s) = strip_zero_width s.
Proof.
  unfold strip_zero_width. induction s as [|c s IH]; [reflexivity|].
  cbn [filter]. destruct (zeroWidth c) eqn:E; cbn [negb]; [exact IH|].
  cbn [filter]. rewrite E. cbn [negb]. now rewrite IH.
Qed.

(** X8: zero-width characters never change the statistics: a text and
    the text without them give the same result and leave the same state. *)
Theorem calculateStats_ignores_zero_width (st : regex_state) (s : jsstring) :
  calculateStats st (JStr s) = calculateStats st (JStr (strip_zero_width s)).
Proof.
  destruct s as [|c s]; [reflexivity|].
  rewrite calculateStats_fields. cbv zeta.
  destruct (strip_zero_width (c :: s)) as [|d t] eqn:E; [reflexivity|].
  rewrite calculateStats_fields. cbv zeta.
  rewrite <- E, strip_zero_width_idem. reflexivity.
Qed.

(** X9: a call of [calculateStats] on a text with a visible character
    leaves [lastIndex] at 0 whatever it was, so that the next call counts
    from the start of its text. *)
Theorem calculateStats_resets_lastIndex (st : regex_state) (s : jsstring) :
  (1 <= count_visible s)%nat -> snd (calculateStats st (JStr s)) = O.
Proof.
  intros Hv. destruct s as [|c s]; [cbn in Hv; lia|].
  rewrite calculateStats_fields. cbv zeta.
  set (t := trim (strip_zero_width (c :: s))).
  assert (E : count_visible (c :: s) = length (filter not_space t))
    by (unfold count_visible, t; now rewrite trim_not_space, strip_visible).
  destruct t as [|d t']; [rewrite E in Hv; cbn in Hv; lia|].
  cbn [truthy negb snd]. unfold calculateWordCount. cbn [truthy negb].
  destruct (containsCJK st (JStr (d :: t'))) as [[|] st1] eqn:Ec.
  - reflexivity.
  - cbn [snd].
    destruct (containsCJK_reset st (d :: t')) as [_ R].
    rewrite Ec in R. now apply R.
Qed.

Lemma calculateStats_resets_lastIndex_witness :
  snd (calculateStats 5%nat (JStr mixed_text)) = O.
Proof.
  apply (calculateStats_resets_lastIndex 5%nat mixed_text).
  vm_compute. lia.
Defined.

(** ** Nesting of the exported tags *)

Lemma lexTags_app (a : jsstring) :
  forall (st : lexstate) (ta : list tag),
    lexTags st a = Some ta ->
    forall b, lexTags st (a ++ b) = option_map (app ta) (lexTags InText b).
Proof.
  induction a as [|c a IH]; intros st ta E b.
  - destruct st; [|discriminate]. injection E as <-. cbn [app].
    now destruct (lexTags InText b).
  - cbn [app lexTags] in *. destruct st as [|body].
    + destruct (c =? 60); [now apply IH|].
      destruct (c =? 62); [discriminate|].
      destruct (c =? 38); [|now apply IH].
      destruct (existsb _ entities) eqn:Ee; [|discriminate].
      rewrite (entity_follows_app _ b Ee). now apply IH.
    + destruct (c =? 62).
      * destruct (lexTags InText a) as [ta'|] eqn:Ea; [|discriminate].
        injection E as <-. rewrite (IH _ _ Ea b).
        now destruct (lexTags InText b).
      * destruct (c =? 60); [discriminate|]. now apply IH.
Qed.

Lemma lexTags_tag_body (x : jsstring) :
  forall (body r : jsstring),
    Forall (fun c => c <> 60 /\ c <> 62) x ->
    lexTags (InTag body) (x ++ r) = lexTags (InTag (rev x ++ body)) r.
Proof.
  induction x as [|c x IH]; intros body r Hx; [reflexivity|].
  inversion Hx as [|? ? [H1 H2] Hx']; subst.
  cbn [app lexTags rev].
  destruct (N.eqb_spec c 62); [congruence|].
  destruct (N.eqb_spec c 60); [congruence|].
  rewrite IH by exact Hx'. now rewrite <- app_assoc.
Qed.

Lemma tagTokens_escapeHTML (t : jsstring) :
  tagTokens (escapeHTML (JStr t)) = Some [].
Proof.
  unfold tagTokens, escapeHTML, replaceAll.
  induction t as [|c t IH]; [reflexivity|].
  cbn [flat_map]. unfold htmlEntities at 1, HTML_ENTITY_MAP.
  destruct (N.eqb_spec c 38) as [->|N38]; [exact IH|].
  destruct (N.eqb_spec c 60) as [->|N60]; [exact IH|].
  destruct (N.eqb_spec c 62) as [->|N62]; [exact IH|].
  destruct (N.eqb_spec c 34) as [->|N34]; [exact IH|].
  destruct (N.eqb_spec c 39) as [->|N39]; [exact IH|].
  cbn [orb app lexTags].
  destruct (N.eqb_spec c 60); [congruence|].
  destruct (N.eqb_spec c 62); [congruence|].
  destruct (N.eqb_spec c 38); [congruence|].
  exact IH.
Qed.

Lemma tagTokens_anchor (u : jsstring) :
  tagTokens (lit "<a href=" ++ dquote ++ escapeAttribute (JStr u)
               ++ dquote ++ lit ">") = Some [Open (lit "a")].
Proof.
  unfold tagTokens. cbn [lit list_ascii_of_string map app dquote lexTags].
  cbn -[escapeAttribute lexTags].
  cbn [lexTags N.eqb Pos.eqb].
  rewrite lexTags_tag_body by apply escapeAttribute_no_bracket.
  cbn [lexTags N.eqb Pos.eqb option_map].
  cbn [rev app]. rewrite !rev_app_distr, rev_involutive. reflexivity.
Qed.

Lemma nested_app (a b : list tag) : nested a -> nested b -> nested (a ++ b).
Proof.
  intros Ha Hb. induction Ha as [|ts _ IH|n inner rest Hn Hi _ _ IH].
  - exact Hb.
  - cbn [app]. now constructor.
  - cbn [app]. rewrite <- app_assoc. cbn [app]. now constructor.
Qed.

(** A balanced sequence leaves the stack of the check as it found it. *)
Lemma nested_balanced (ts : list tag) :
  nested ts ->
  forall stack rest, balanced_go stack (ts ++ rest) = balanced_go stack rest.
Proof.
  induction 1 as [|ts _ IH|n inner rest0 Hn _ IHi _ IHr]; intros stack rest.
  - reflexivity.
  - cbn [app balanced_go]. change (jseqb (lit "br") (lit "br")) with true.
    cbv iota. apply IH.
  - cbn [app balanced_go].
    apply jseqb_neq in Hn. rewrite Hn.
    rewrite <- app_assoc. cbn [app]. rewrite IHi.
    cbn [balanced_go]. rewrite jseqb_refl. cbn [andb]. apply IHr.
Qed.

Lemma nests_wellNested (s : jsstring) : nests s -> wellNested s.
Proof.
  intros (ts & E & N). exists ts. split; [exact E|].
  rewrite <- (app_nil_r ts). now rewrite (nested_balanced ts N [] []).
Qed.

Lemma nests_nil : nests [].
Proof. exists []. split; [reflexivity|constructor]. Qed.

Lemma nests_app (a b : jsstring) : nests a -> nests b -> nests (a ++ b).
Proof.
  intros (ta & Ea & Na) (tb & Eb & Nb). exists (ta ++ tb). split.
  - unfold tagTokens in *. now rewrite (lexTags_app a InText ta Ea b), Eb.
  - now apply nested_app.
Qed.

Lemma nests_chars (s : jsstring) : tagTokens s = Some [] -> nests s.
Proof. intros E. exists []. split; [exact E|constructor]. Qed.

(** An element around a string that nests. *)
Lemma nests_element (o c x : jsstring) (n : jsstring) :
  tagTokens o = Some [Open n] -> tagTokens c = Some [Close n] ->
  n <> lit "br" -> nests x -> nests (o ++ x ++ c).
Proof.
  intros Eo Ec Hn (tx & Ex & Nx). exists (Open n :: tx ++ Close n :: []).
  split.
  - unfold tagTokens in *.
    rewrite (lexTags_app o InText _ Eo), (lexTags_app x InText _ Ex), Ec.
    reflexivity.
  - constructor; [exact Hn|exact Nx|constructor].
Qed.

Lemma nests_wrap (name x : jsstring) :
  In name blockTags -> nests x ->
  nests (lit "<" ++ name ++ lit ">" ++ x ++ lit "</" ++ name ++ lit ">").
Proof.
  intros Hin Hx. unfold blockTags in Hin. cbn [In] in Hin.
  decompose [or] Hin; try contradiction; subst name;
    match goal with
    | |- nests (lit "<" ++ ?n ++ lit ">" ++ x ++ lit "</" ++ ?n ++ lit ">") =>
        change (nests ((lit "<" ++ n ++ lit ">") ++ x
                       ++ (lit "</" ++ n ++ lit ">")));
        apply (nests_element _ _ x n);
          [reflexivity|reflexivity|discriminate|exact Hx]
    end.
Qed.

Section NestText.
Context {H : Host}.

Lemma emits_tokens (m : mark) (o c : jsstring) :
  emits m = Some (o, c) ->
  exists name, tagTokens o = Some [Open name]
               /\ tagTokens c = Some [Close name] /\ name <> lit "br".
Proof.
  unfold emits, has_type.
  destruct (jseqb (mtype m) (lit "bold"));
    [intros [= <- <-]; exists (lit "strong"); repeat split; discriminate|].
  destruct (jseqb (mtype m) (lit "italic"));
    [intros [= <- <-]; exists (lit "em"); repeat split; discriminate|].
  destruct (jseqb (mtype m) (lit "code"));
    [intros [= <- <-]; exists (lit "code"); repeat split; discriminate|].
  destruct (jseqb (mtype m) (lit "link")); [|discriminate].
  cbv zeta. destruct (valid (validateURL (linkHref m))); [|discriminate].
  intros [= <- <-]. exists (lit "a").
  split; [apply tagTokens_anchor|]. split; [reflexivity|discriminate].
Qed.

(** Opening tags in one order and closing tags in the reverse order nest
    around what stands between them. *)
Lemma nests_marks (E : list (jsstring * jsstring)) (mid : jsstring) :
  Forall (fun oc => exists name, tagTokens (fst oc) = Some [Open name]
                                 /\ tagTokens (snd oc) = Some [Close name]
                                 /\ name <> lit "br") E ->
  nests mid ->
  nests (concat (map fst E) ++ mid ++ concat (rev (map snd E))).
Proof.
  intros HE Hmid. induction HE as [|[o c] E (name & Eo & Ec & Hn) _ IH].
  - cbn. now rewrite app_nil_r.
  - cbn [map fst snd concat rev]. rewrite concat_app. cbn [concat].
    rewrite app_nil_r, <- !app_assoc.
    replace (concat (map fst E) ++ mid ++ concat (rev (map snd E)) ++ c)
      with ((concat (map fst E) ++ mid ++ concat (rev (map snd E))) ++ c)
      by now rewrite <- !app_assoc.
    now apply (nests_element o c _ name).
Qed.

Lemma processText_nests (n : node) : nests (processText n).
Proof.
  assert (Htext : forall t, nests (escapeHTML (JStr t)))
    by (intros t; apply nests_chars, tagTokens_escapeHTML).
  destruct (jseqb (ntype n) (lit "text")) eqn:Hty;
    [|unfold processText; rewrite Hty; apply nests_nil].
  destruct (ntext n) as [t|] eqn:Ht;
    [|unfold processText; rewrite Hty, Ht; apply nests_nil].
  destruct (nmarks n) as [ms|] eqn:Hms;
    [|unfold processText; rewrite Hty, Ht, Hms; apply Htext].
  apply jseqb_eq in Hty.
  rewrite (processText_marks n t ms Hty Ht Hms).
  apply nests_marks; [|apply Htext].
  apply Forall_forall. intros [o c] Hoc.
  apply emitted_In in Hoc as (m & _ & Em). now apply emits_tokens with m.
Qed.
End NestText.

(** The walk over the document, for any property of strings that the
    empty string, the separators and the text nodes have and that
    concatenation and the block elements keep. *)
Section GenericWalk.
Context {H : Host}.
Variable P : jsstring -> Prop.
Hypothesis P_nil : P [].
Hypothesis P_app : forall a b, P a -> P b -> P (a ++ b).
Hypothesis P_nl : P nl.
Hypothesis P_br : P (lit "<br>").
Hypothesis P_text : forall n, P (processText n).
Hypothesis P_wrap : forall name x, In name blockTags -> P x ->
  P (lit "<" ++ name ++ lit ">" ++ x ++ lit "</" ++ name ++ lit ">").

Lemma walk_join (sep : jsstring) (l : list jsstring) :
  P sep -> Forall P l -> P (join sep l).
Proof.
  intros Hsep. induction 1 as [|x l Hx Hl IH]; [exact P_nil|].
  cbn [join]. destruct l as [|y l]; [exact Hx|].
  apply P_app; [exact Hx|]. now apply P_app.
Qed.

Lemma walk_pushIf (s : jsstring) : P s -> Forall P (pushIf s).
Proof. intros Hs. unfold pushIf. destruct (truthy s); now repeat constructor. Qed.

Lemma walk_flat_map {A : Type} (f : A -> list jsstring) (l : list A) :
  Forall (fun x => Forall P (f x)) l -> Forall P (flat_map f l).
Proof.
  induction 1 as [|x l Hx _ IH]; [constructor|].
  cbn [flat_map]. apply Forall_app. now split.
Qed.

Lemma walk_filterBoolean (l : list jsstring) :
  Forall P l -> Forall P (filterBoolean l).
Proof.
  intros Hl. apply Forall_forall. intros x Hx.
  apply filter_In in Hx as [Hx _]. rewrite Forall_forall in Hl. now apply Hl.
Qed.

Lemma walk_inline (content : option (list node)) : P (processInline content).
Proof.
  destruct content as [c|]; [|exact P_nil]. cbn [processInline].
  apply walk_join; [exact P_nil|].
  apply Forall_forall. intros s Hs. apply in_map_iff in Hs as (n & <- & _).
  apply P_text.
Qed.

Lemma walk_paragraph (n : node) : P (processParagraph n).
Proof.
  unfold processParagraph. cbv zeta. destruct (_ || _); [exact P_nil|].
  apply (P_wrap (lit "p")); [cbn; tauto|apply walk_inline].
Qed.

Lemma walk_heading (n : node) : P (processHeading n).
Proof.
  unfold processHeading. cbv zeta. destruct (_ || _); [exact P_nil|].
  destruct (_ =? 3)%Z; apply P_wrap; cbn; try tauto; apply walk_inline.
Qed.

Lemma walk_bulletList (n : node) :
  (forall l, ncontent n = Some l -> Forall (fun x => P (processNode x)) l) ->
  P (processBulletList n).
Proof.
  intros IH. unfold processBulletList, processBulletList_.
  destruct (ncontent n) as [[|x l]|] eqn:Hc; try exact P_nil.
  specialize (IH _ eq_refl).
  assert (F : Forall P (filterBoolean (map processNode (x :: l)))).
  { apply walk_filterBoolean. apply Forall_forall. intros s Hs.
    apply in_map_iff in Hs as (y & <- & Hy).
    rewrite Forall_forall in IH. now apply IH. }
  destruct (filterBoolean _) as [|i items]; [exact P_nil|].
  replace (lit "<ul>" ++ nl ++ join nl (i :: items) ++ nl ++ lit "</ul>")
    with (lit "<" ++ lit "ul" ++ lit ">"
          ++ (nl ++ join nl (i :: items) ++ nl)
          ++ lit "</" ++ lit "ul" ++ lit ">")
    by (rewrite <- !app_assoc; reflexivity).
  apply P_wrap; [cbn; tauto|].
  apply P_app; [exact P_nl|]. apply P_app; [|exact P_nl].
  now apply walk_join.
Qed.

Lemma walk_node (n : node) : P (processNode n).
Proof.
  induction n as [ty c a t ms IH] using node_induction.
  set (n := Node ty c a t ms).
  assert (IHn : forall l, ncontent n = Some l ->
            Forall (fun x => P (processNode x)) l) by exact IH.
  assert (Hpart : forall l (f : node -> list jsstring),
            ncontent n = Some l ->
            (forall x, In x l -> P (processNode x) -> Forall P (f x)) ->
            Forall P (flat_map f l)).
  { intros l f Hl Hf. apply walk_flat_map. apply Forall_forall.
    intros x Hx. apply Hf; [exact Hx|].
    specialize (IHn l Hl). rewrite Forall_forall in IHn. now apply IHn. }
  rewrite processNode_eq.
  destruct (negb (truthy (ntype n))); [exact P_nil|].
  destruct (jseqb (ntype n) (lit "paragraph")); [apply walk_paragraph|].
  destruct (jseqb (ntype n) (lit "heading")); [apply walk_heading|].
  destruct (jseqb (ntype n) (lit "bulletList")); [now apply walk_bulletList|].
  destruct (jseqb (ntype n) (lit "listItem")).
  { unfold processListItem, processListItem_.
    destruct (ncontent n) as [l|] eqn:Hc; [|exact P_nil]. cbv zeta.
    match goal with |- context [flat_map ?f l] =>
      assert (F : Forall P (flat_map f l)) end.
    { apply Hpart; [reflexivity|]. intros x Hx Px. cbv beta.
      destruct (jseqb (ntype x) (lit "paragraph"));
        [apply walk_pushIf, walk_inline|].
      destruct (jseqb (ntype x) (lit "bulletList")) eqn:Eb;
        [|now apply walk_pushIf].
      apply walk_pushIf. fold (processBulletList x).
      now rewrite <- processNode_bulletList. }
    destruct (flat_map _ l) as [|p parts]; [exact P_nil|].
    apply (P_wrap (lit "li")); [cbn; tauto|].
    now apply walk_join. }
  destruct (jseqb (ntype n) (lit "blockquote")).
  { unfold processBlockquote, processBlockquote_.
    destruct (ncontent n) as [l|] eqn:Hc; [|exact P_nil]. cbv zeta.
    match goal with |- context [flat_map ?f l] =>
      assert (F : Forall P (flat_map f l)) end.
    { apply Hpart; [reflexivity|]. intros x Hx Px. cbv beta.
      destruct (jseqb (ntype x) (lit "paragraph"));
        [apply walk_pushIf, walk_inline|].
      now apply walk_pushIf. }
    destruct (flat_map _ l) as [|p parts]; [exact P_nil|].
    apply (P_wrap (lit "blockquote")); [cbn; tauto|].
    now apply walk_join. }
  destruct (jseqb (ntype n) (lit "text")); [apply P_text|].
  destruct (ncontent n) as [l|] eqn:Hc; [|exact P_nil].
  apply walk_join; [exact P_nil|]. apply walk_filterBoolean.
  apply Forall_forall. intros s Hs. apply in_map_iff in Hs as (y & <- & Hy).
  specialize (IHn l eq_refl). rewrite Forall_forall in IHn. now apply IHn.
Qed.

Lemma walk_document (json : option node) : P (generateCleanHTML json).
Proof.
  destruct json as [root|]; [|exact P_nil]. cbn [generateCleanHTML].
  destruct (ncontent root) as [c|]; [|exact P_nil].
  apply walk_join; [exact P_nl|].
  apply walk_flat_map. apply Forall_forall. intros x _.
  apply walk_pushIf, walk_node.
Qed.
End GenericWalk.

(** X10: the output of [generateCleanHTML] is well nested for every
    document: read back as text and tags, every closing tag closes the
    element opened last, nothing stays open at the end, and [br] is the
    only tag without a closing tag.  The same holds for what every single
    node is exported as. *)
Theorem generateCleanHTML_well_nested (H : Host) (json : option node) :
  wellNested (generateCleanHTML json)
  /\ forall n, wellNested (processNode n).
Proof.
  assert (Hnl : nests nl) by (apply nests_chars; reflexivity).
  assert (Hbr : nests (lit "<br>"))
    by (exists [Open (lit "br")]; split; [reflexivity|repeat constructor]).
  split; [|intros n]; apply nests_wellNested.
  - apply walk_document;
      auto using nests_nil, nests_app, processText_nests, nests_wrap.
  - apply walk_node;
      auto using nests_nil, nests_app, processText_nests, nests_wrap.
Qed.

(** ** The preview *)

Lemma startsWith_split (p s : jsstring) :
  startsWith p s = true -> s = p ++ skipn (length p) s.
Proof.
  intros E. apply startsWith_firstn in E.
  rewrite <- (firstn_skipn (length p) s) at 1. now rewrite E.
Qed.

(** A replacement that writes each match back with white space added
    leaves the code units that are not white space as they were. *)
Lemma replaceLiterals_go_not_space (pats : list jsstring)
    (rep : jsstring -> jsstring) :
  (forall p, In p pats -> filter not_space (rep p) = filter not_space p) ->
  forall s skip,
    filter not_space (replaceLiterals_go pats rep skip s)
    = filter not_space (skipn skip s).
Proof.
  intros Hrep. induction s as [|c s IH]; intros skip.
  - now rewrite skipn_nil.
  - cbn [replaceLiterals_go]. destruct skip as [|k]; [|apply IH].
    cbn [skipn].
    destruct (find _ pats) as [p|] eqn:Ef.
    + apply find_some in Ef as [Hin Hp]. apply andb_prop in Hp as [Hne Hs].
      rewrite filter_app, (Hrep p Hin), IH.
      rewrite (startsWith_split p (c :: s) Hs) at 1.
      rewrite filter_app. f_equal.
      destruct p as [|x p']; [discriminate|].
      cbn [length skipn Nat.sub]. now rewrite Nat.sub_0_r.
    + cbn [filter]. now rewrite IH.
Qed.

Lemma replaceLiterals_not_space (pats : list jsstring)
    (rep : jsstring -> jsstring) (s : jsstring) :
  (forall p, In p pats -> filter not_space (rep p) = filter not_space p) ->
  filter not_space (replaceLiterals pats rep s) = filter not_space s.
Proof.
  intros Hrep. unfold replaceLiterals.
  now rewrite (replaceLiterals_go_not_space pats rep Hrep s O).
Qed.

Lemma flushNewlines_cases (run : nat) :
  flushNewlines run = [] \/ flushNewlines run = [10]
  \/ flushNewlines run = [10; 10].
Proof.
  unfold flushNewlines.
  destruct run as [|[|[|run]]]; cbn; tauto.
Qed.

Lemma collapse_go_not_space (s : jsstring) :
  forall run, filter not_space (collapse_go run s) = filter not_space s.
Proof.
  induction s as [|c s IH]; intros run.
  - cbn [collapse_go].
    destruct (flushNewlines_cases run) as [-> | [-> | ->]]; reflexivity.
  - cbn [collapse_go]. destruct (N.eqb_spec c 10) as [->|Hc].
    + rewrite IH. reflexivity.
    + rewrite filter_app. cbn [filter]. rewrite IH.
      destruct (flushNewlines_cases run) as [-> | [-> | ->]]; reflexivity.
Qed.

Lemma format_steps_not_space (s : jsstring) :
  filter not_space
    (collapseNewlines
       (replaceLiterals [lit "<li>"] (fun li => lit "  " ++ li)
          (replaceLiterals [lit "<ul>"] (fun ul => ul ++ nl)
             (replaceLiterals closingBlockTags (fun t => t ++ nl) s))))
  = filter not_space s.
Proof.
  unfold collapseNewlines. rewrite collapse_go_not_space.
  rewrite !replaceLiterals_not_space; [reflexivity|..];
    intros p Hp; cbn [In closingBlockTags] in Hp; decompose [or] Hp;
    subst; try contradiction; reflexivity.
Qed.

(** X11: [formatHTMLForDisplay] changes white space only: the code units
    of its result that are not white space are those of the string it was
    given, in the same order. *)
Theorem formatHTMLForDisplay_keeps_text (s : jsstring) :
  filter not_space (formatHTMLForDisplay (JStr s)) = filter not_space s.
Proof.
  unfold formatHTMLForDisplay.
  destruct s as [|c s]; [reflexivity|]. cbn [truthy negb orb].
  destruct (trim (c :: s)) as [|d t] eqn:Et.
  - cbn [truthy negb]. symmetry. now apply filter_spaces, trim_nil_spaces.
  - cbn [truthy negb]. cbv zeta.
    rewrite trim_not_space. apply format_steps_not_space.
Qed.

Lemma includes_app_l (pat a b : jsstring) :
  includes pat a = true -> includes pat (a ++ b) = true.
Proof.
  induction a as [|c a IH]; cbn [app includes].
  - rewrite orb_false_r. intros E. destruct pat; [|discriminate].
    destruct b; reflexivity.
  - intros E. apply orb_prop in E as [E|E].
    + change (c :: a ++ b) with ((c :: a) ++ b).
      now rewrite (startsWith_app pat (c :: a) b E).
    + rewrite (IH E). apply orb_true_r.
Qed.

Lemma includes_app_r (pat a b : jsstring) :
  includes pat b = true -> includes pat (a ++ b) = true.
Proof.
  intros E. induction a as [|c a IH]; [exact E|].
  cbn [app includes]. rewrite IH. apply orb_true_r.
Qed.

Lemma includes_trim (pat s : jsstring) :
  includes pat s = false -> includes pat (trim s) = false.
Proof.
  intros E. destruct (includes pat (trim s)) eqn:Et; [|reflexivity].
  destruct (trim_split s) as (l & r & Es & _ & _).
  rewrite Es in E.
  now rewrite (includes_app_r pat l _ (includes_app_l pat _ r Et)) in E.
Qed.

Lemma collapse_go_no_triple (s : jsstring) :
  forall run, includes [10; 10; 10] (collapse_go run s) = false.
Proof.
  induction s as [|c s IH]; intros run.
  - cbn [collapse_go].
    destruct (flushNewlines_cases run) as [-> | [-> | ->]]; reflexivity.
  - cbn [collapse_go]. destruct (N.eqb_spec c 10) as [->|Hc]; [apply IH|].
    specialize (IH O).
    assert (Hn : (10 =? c) = false) by (apply N.eqb_neq; congruence).
    destruct (flushNewlines_cases run) as [-> | [-> | ->]];
      cbn [app includes startsWith]; rewrite ?Hn, ?N.eqb_refl;
      cbn [andb orb]; rewrite ?andb_false_r; cbn [orb]; exact IH.
Qed.

(** X12: what [formatHTMLForDisplay] returns never has three line feeds
    in a row and neither starts nor ends with white space; it is empty for
    a value that is not a string and for a blank string, and only then. *)
Theorem formatHTMLForDisplay_shape (html : jsval) :
  includes [10; 10; 10] (formatHTMLForDisplay html) = false
  /\ clipped (formatHTMLForDisplay html)
  /\ (formatHTMLForDisplay html = []
      <-> forall s, html = JStr s -> blank s).
Proof.
  destruct html as [| | | |s|];
    try (repeat split; try reflexivity; try discriminate; exact I).
  split; [|split].
  - unfold formatHTMLForDisplay. destruct (_ || _); [reflexivity|].
    cbv zeta. apply includes_trim, collapse_go_no_triple.
  - unfold formatHTMLForDisplay.
    destruct (_ || _); [split; exact I|]. apply trim_clipped.
  - split.
    + intros E s' [= <-]. unfold blank.
      destruct s as [|c s]; [reflexivity|].
      pose proof (trim_clipped (c :: s)) as [Hh _].
      pose proof (trim_not_space (c :: s)) as Ks.
      unfold formatHTMLForDisplay in E.
      destruct (trim (c :: s)) as [|d t]; [reflexivity|].
      cbn [truthy negb orb] in E. cbv zeta in E.
      pose proof (format_steps_not_space (c :: s)) as K.
      rewrite <- trim_not_space, E, <- Ks in K.
      cbn [filter] in K. unfold not_space at 1 in K. rewrite Hh in K.
      discriminate.
    + intros Hb. specialize (Hb s eq_refl). unfold blank in Hb.
      unfold formatHTMLForDisplay. rewrite Hb. cbn [truthy negb].
      now rewrite orb_true_r.
Qed.

Lemma update_shows (st : preview) (h : jsstring) :
  (exists txt, element st = Some txt) ->
  (forall h', lastHTML st = Some h' ->
     element st = Some (formatHTMLForDisplay (JStr h'))) ->
  element (update st h) = Some (formatHTMLForDisplay (JStr h))
  /\ lastHTML (update st h) = Some h.
Proof.
  intros (txt & Et) Hinv. unfold update. rewrite Et.
  destruct (lastHTML st) as [h'|] eqn:El; cbn [sameHTML].
  - destruct (jseqb h' h) eqn:E.
    + apply jseqb_eq in E. subst h'. split; [now apply Hinv|exact El].
    + cbn [element lastHTML]. split; [|reflexivity].
      now destruct (formatHTMLForDisplay (JStr h)).
  - cbn [element lastHTML]. split; [|reflexivity].
    now destruct (formatHTMLForDisplay (JStr h)).
Qed.

(** X13: a preview that found its element always shows the formatting of
    the last string it was given: after any updates, the text of the
    element is [formatHTMLForDisplay] of the last one, although an update
    with the string of the update before writes nothing.  A preview
    without an element stays as it is. *)
Theorem preview_shows_last (txt : jsstring) (hs : list jsstring)
    (h : jsstring) :
  element (fold_left update (hs ++ [h])
             (fst (initialize (Some txt) newPreview)))
  = Some (formatHTMLForDisplay (JStr h))
  /\ fold_left update (hs ++ [h]) (fst (initialize None newPreview))
     = newPreview.
Proof.
  split.
  - assert (Inv : forall l st,
      (exists t, element st = Some t) ->
      (forall h', lastHTML st = Some h' ->
         element st = Some (formatHTMLForDisplay (JStr h'))) ->
      (exists t, element (fold_left update l st) = Some t)
      /\ (forall h', lastHTML (fold_left update l st) = Some h' ->
            element (fold_left update l st)
            = Some (formatHTMLForDisplay (JStr h')))).
    { induction l as [|x l IH]; intros st He Hi; [now split|].
      cbn [fold_left]. destruct (update_shows st x He Hi) as [Ue Ul].
      apply IH; [eauto|]. intros h' E. rewrite Ul in E.
      injection E as <-. exact Ue. }
    rewrite fold_left_app. cbn [fold_left].
    destruct (Inv hs (fst (initialize (Some txt) newPreview))) as [He Hi].
    + now exists txt.
    + discriminate.
    + now apply update_shows.
  - generalize (hs ++ [h]). intros l.
    induction l as [|x l IH]; [reflexivity|]. exact IH.
Qed.

(** ** debounce *)

Section DebounceFacts.
Variable A : Type.
Variable wait : nat.

Let dstate := Debounce.dstate A.
Let event := Debounce.event A.
Let action := Debounce.action A.

Lemma clearTimeout_single (id due : nat) :
  Debounce.clearTimeout id [(id, due)] = [].
Proof. unfold Debounce.clearTimeout. cbn. now rewrite Nat.eqb_refl. Qed.

(** Induction on an action, with the property for all that [func] does
    during it. *)
Lemma action_induction (P : action -> Prop) :
  (forall args now, P (Debounce.Call A args now)) ->
  (forall during, Forall P during -> P (Debounce.Flush A during)) ->
  P (Debounce.Cancel A) ->
  forall a, P a.
Proof.
  intros HC HF HX. fix rec 1. intros [args now|during|].
  - apply HC.
  - apply HF. revert during. fix go 1.
    intros [|x l]; constructor; [apply rec|apply go].
  - exact HX.
Qed.

Lemma act_Flush (during : list action) (st : dstate) :
  Debounce.act A wait (Debounce.Flush A during) st
  = match Debounce.timeoutId A st with
    | Some id =>
        match Debounce.lastArgs A st with
        | Some args =>
            Debounce.forget A
              (Debounce.acts A wait during
                 (Debounce.applied A (Some args) (Debounce.unset A id st)))
        | None => Debounce.unset A id st
        end
    | None => st
    end.
Proof.
  cbn [Debounce.act].
  destruct (Debounce.timeoutId A st) as [id|]; [|reflexivity].
  destruct (Debounce.lastArgs A st) as [args|]; [|reflexivity].
  reflexivity.
Qed.

Lemma acts_invoked (l : list action) :
  Forall (fun a => forall st, exists more,
            Debounce.invoked A (Debounce.act A wait a st)
            = Debounce.invoked A st ++ more) l ->
  forall st, exists more,
    Debounce.invoked A (Debounce.acts A wait l st)
    = Debounce.invoked A st ++ more.
Proof.
  induction 1 as [|a l Ha _ IH]; intros st.
  - exists []. cbn. now rewrite app_nil_r.
  - change (Debounce.acts A wait (a :: l) st)
      with (Debounce.acts A wait l (Debounce.act A wait a st)).
    destruct (IH (Debounce.act A wait a st)) as (m2 & E2).
    destruct (Ha st) as (m1 & E1).
    exists (m1 ++ m2). now rewrite E2, E1, app_assoc.
Qed.

(** No action takes back a call of [func]. *)
Lemma act_invoked (a : action) :
  forall st, exists more,
    Debounce.invoked A (Debounce.act A wait a st)
    = Debounce.invoked A st ++ more.
Proof.
  induction a as [args now|during IH|] using action_induction; intros st.
  - exists []. cbn. now rewrite app_nil_r.
  - rewrite act_Flush.
    destruct (Debounce.timeoutId A st) as [id|];
      [|exists []; now rewrite app_nil_r].
    destruct (Debounce.lastArgs A st) as [args|];
      [|exists []; cbn; now rewrite app_nil_r].
    destruct (acts_invoked during IH
                (Debounce.applied A (Some args) (Debounce.unset A id st)))
      as (more & E).
    exists (Some args :: more). cbn [Debounce.forget Debounce.invoked].
    rewrite E. cbn [Debounce.applied Debounce.unset Debounce.invoked].
    now rewrite <- app_assoc.
  - exists []. cbn [Debounce.act].
    destruct (Debounce.timeoutId A st); cbn; now rewrite app_nil_r.
Qed.

Lemma acts_invoked_all (l : list action) (st : dstate) :
  exists more,
    Debounce.invoked A (Debounce.acts A wait l st)
    = Debounce.invoked A st ++ more.
Proof.
  apply acts_invoked. apply Forall_forall. intros a _. apply act_invoked.
Qed.

Lemma step_agrees (st st' : dstate) (e : event)
    (w : option (A * nat)) (out : list A) :
  Debounce.quiet A e = true ->
  Debounce.agrees A wait st w ->
  Debounce.invoked A st = map Some out ->
  Debounce.step A wait st e = Some st' ->
  Debounce.agrees A wait st' (fst (Debounce.spec_step A (w, out) e))
  /\ Debounce.invoked A st' = map Some (snd (Debounce.spec_step A (w, out) e)).
Proof.
  intros Hq Hw Hout Hs.
  destruct e as [[a now|[|x during]|]|id now [|x during]];
    cbn [Debounce.quiet] in Hq; try discriminate Hq;
    cbn [Debounce.step] in Hs;
    cbn [Debounce.spec_step fst snd].
  - injection Hs as <-. cbn [Debounce.act Debounce.agrees Debounce.invoked].
    split; [|exact Hout]. exists (Debounce.nextId A st).
    cbn [Debounce.timeoutId Debounce.lastArgs Debounce.timers].
    repeat split. f_equal.
    destruct w as [[a0 t0]|]; cbn [Debounce.agrees] in Hw.
    + destruct Hw as (id & -> & _ & ->). apply clearTimeout_single.
    + destruct Hw as (-> & _ & ->). reflexivity.
  - injection Hs as <-.
    destruct w as [[a0 t0]|]; cbn [Debounce.agrees] in Hw.
    + destruct Hw as (id0 & -> & -> & Ht).
      cbn [Debounce.acts fold_left Debounce.forget Debounce.applied
           Debounce.unset Debounce.agrees Debounce.timeoutId
           Debounce.lastArgs Debounce.timers Debounce.invoked].
      rewrite Ht, clearTimeout_single, Hout, map_app.
      now repeat split.
    + destruct Hw as (Hid & Ha & Ht). rewrite Hid. cbn [Debounce.agrees].
      now repeat split.
  - injection Hs as <-. cbn [Debounce.act].
    destruct w as [[a0 t0]|]; cbn [Debounce.agrees] in Hw.
    + destruct Hw as (id0 & -> & _ & Ht).
      cbn [Debounce.forget Debounce.unset Debounce.agrees
           Debounce.timeoutId Debounce.lastArgs Debounce.timers
           Debounce.invoked].
      rewrite Ht, clearTimeout_single. now repeat split.
    + destruct Hw as (Hid & Ha & Ht). rewrite Hid. cbn [Debounce.agrees].
      now repeat split.
  - destruct w as [[a0 t0]|]; cbn [Debounce.agrees] in Hw.
    + destruct Hw as (id0 & Hid & Ha & Ht). rewrite Ht in Hs.
      cbn [find fst] in Hs. destruct (Nat.eqb_spec id0 id) as [->|Hne];
        [|discriminate].
      destruct (_ <=? now)%nat; [|discriminate]. injection Hs as <-.
      cbn [Debounce.acts fold_left Debounce.forget Debounce.applied
           Debounce.unset Debounce.agrees Debounce.timeoutId
           Debounce.lastArgs Debounce.timers Debounce.invoked].
      rewrite Ht, clearTimeout_single, Ha, Hout, map_app.
      now repeat split.
    + destruct Hw as (_ & _ & Ht). rewrite Ht in Hs. discriminate.
Qed.

Lemma run_agrees (es : list event) :
  forall (st st' : dstate) (p : option (A * nat) * list A),
    forallb (Debounce.quiet A) es = true ->
    Debounce.agrees A wait st (fst p) ->
    Debounce.invoked A st = map Some (snd p) ->
    Debounce.run A wait st es = Some st' ->
    Debounce.agrees A wait st' (fst (fold_left (Debounce.spec_step A) es p))
    /\ Debounce.invoked A st'
       = map Some (snd (fold_left (Debounce.spec_step A) es p)).
Proof.
  induction es as [|e es IH]; intros st st' [w out] Hq Hw Hout Hr.
  - cbn in Hr. injection Hr as <-. now split.
  - cbn [Debounce.run] in Hr. cbn [fold_left].
    cbn [forallb] in Hq. apply andb_prop in Hq as [Hq Hqs].
    destruct (Debounce.step A wait st e) as [st1|] eqn:Es; [|discriminate].
    cbn [fst snd] in Hw, Hout.
    destruct (step_agrees st st1 e w out Hq Hw Hout Es) as [Hw1 Hout1].
    now apply (IH st1 st' _ Hqs Hw1 Hout1).
Qed.

(** The callback of a timer applies [func] to the [lastArgs] of the
    moment it starts, whatever [func] does then. *)
Lemma fire_invoked (st st' : dstate) (id now : nat)
    (during : list action) :
  Debounce.step A wait st (Debounce.Fire A id now during) = Some st' ->
  exists due more,
    find (fun t => (fst t =? id)%nat) (Debounce.timers A st)
    = Some (id, due)
    /\ (due <= now)%nat
    /\ Debounce.invoked A st'
       = Debounce.invoked A st ++ Debounce.lastArgs A st :: more.
Proof.
  cbn [Debounce.step]. intros Hs.
  destruct (find _ (Debounce.timers A st)) as [[i due]|] eqn:Ef;
    [|discriminate].
  destruct (Nat.leb_spec due now); [|discriminate]. injection Hs as <-.
  destruct (acts_invoked_all during
              (Debounce.applied A (Debounce.lastArgs A st)
                 (Debounce.unset A id st))) as (more & E).
  exists due, more. split; [|split; [assumption|]].
  - apply find_some in Ef as [_ Ei]. cbn [fst] in Ei.
    apply Nat.eqb_eq in Ei. now subst i.
  - cbn [Debounce.forget Debounce.invoked]. rewrite E.
    cbn [Debounce.applied Debounce.unset Debounce.invoked].
    now rewrite <- app_assoc.
Qed.
(** A firing during which [func] calls the debounced function once. *)
Lemma fire_call (st st1 : dstate) (id now : nat) (args : A) (t : nat) :
  Debounce.step A wait st
    (Debounce.Fire A id now [Debounce.Call A args t]) = Some st1 ->
  Debounce.lastArgs A st1 = None
  /\ Debounce.invoked A st1
     = Debounce.invoked A st ++ [Debounce.lastArgs A st].
Proof.
  cbn [Debounce.step].
  destruct (find _ (Debounce.timers A st)) as [[i d]|]; [|discriminate].
  destruct (d <=? now)%nat; [|discriminate].
  intros [= <-]. split; reflexivity.
Qed.
End DebounceFacts.

(** X14: as long as [func] itself does nothing to the debounced function
    while it runs, whatever calls, timer firings, flushes and cancels
    follow one another, [func] is applied only to the arguments of the call
    that waits, and to each at most once: the calls of [func] are those of
    a debounce kept without timers.  At most one timer is set, none when no
    call waits; the host can fire it only [wait] after the last call, and
    [func] is then applied to the arguments of that call.  But a call that
    [func] makes of the debounced function while the callback of the timer
    runs loses its arguments: when the timer of that call fires, [func] is
    applied to [null]. *)
Theorem debounce_delivers_last_call (A : Type) (wait : nat)
    (es : list (Debounce.event A)) (st : Debounce.dstate A) :
  forallb (Debounce.quiet A) es = true ->
  Debounce.run A wait (Debounce.start A) es = Some st ->
  Debounce.invoked A st = map Some (Debounce.delivered A es)
  /\ Debounce.agrees A wait st (Debounce.waiting A es)
  /\ (forall id now during st',
        Debounce.step A wait st (Debounce.Fire A id now during) = Some st' ->
        exists a t more,
          Debounce.waiting A es = Some (a, t)
          /\ (t + wait <= now)%nat
          /\ Debounce.invoked A st'
             = Debounce.invoked A st ++ Some a :: more)
  /\ (forall id now args t st1 id' now' during' st2,
        Debounce.step A wait st
          (Debounce.Fire A id now [Debounce.Call A args t]) = Some st1 ->
        Debounce.step A wait st1 (Debounce.Fire A id' now' during')
        = Some st2 ->
        exists a t0 more,
          Debounce.waiting A es = Some (a, t0)
          /\ Debounce.invoked A st2
             = Debounce.invoked A st ++ Some a :: None :: more).
Proof.
  intros Hq Hr.
  destruct (run_agrees A wait es (Debounce.start A) st (None, []))
    as [Hw Hout]; [exact Hq|now repeat split|reflexivity|exact Hr|].
  fold (Debounce.waiting A es) in Hw. fold (Debounce.delivered A es) in Hout.
  assert (Hfire : forall id now during st',
    Debounce.step A wait st (Debounce.Fire A id now during) = Some st' ->
    exists a t more,
      Debounce.waiting A es = Some (a, t)
      /\ (t + wait <= now)%nat
      /\ Debounce.lastArgs A st = Some a
      /\ Debounce.invoked A st'
         = Debounce.invoked A st ++ Some a :: more).
  { intros id now during st' Hs.
    destruct (fire_invoked A wait st st' id now during Hs)
      as (due & more & Ef & Hd & Ei).
    destruct (Debounce.waiting A es) as [[a t]|]; cbn [Debounce.agrees] in Hw.
    - destruct Hw as (id0 & Hid & Ha & Ht). rewrite Ht in Ef.
      cbn [find fst] in Ef. destruct (id0 =? id)%nat; [|discriminate].
      injection Ef as _ <-. exists a, t, more. rewrite Ha in Ei.
      now repeat split.
    - destruct Hw as (_ & _ & Ht). rewrite Ht in Ef. discriminate. }
  split; [exact Hout|]. split; [exact Hw|]. split.
  - intros id now during st' Hs.
    destruct (Hfire id now during st' Hs) as (a & t & more & W & D & _ & I).
    now exists a, t, more.
  - intros id now args t st1 id' now' during' st2 H1 H2.
    destruct (Hfire id now _ st1 H1) as (a & t0 & more & W & _ & Ha & _).
    destruct (fire_call A wait st st1 id now args t H1) as [L1 I1].
    destruct (fire_invoked A wait st1 st2 id' now' during' H2)
      as (due & more2 & _ & _ & I2).
    exists a, t0, more2. split; [exact W|].
    rewrite I2, I1, L1, Ha, <- app_assoc. reflexivity.
Qed.

Lemma debounce_delivers_last_call_witness :
  exists st,
    Debounce.run nat 150 (Debounce.start nat) burst = Some st
    /\ Debounce.invoked nat st = [Some 2; Some 3]%nat.
Proof.
  eexists. split; [reflexivity|].
  apply (debounce_delivers_last_call nat 150 burst); reflexivity.
Defined.

(** A call, its timer, during which [func] calls the debounced function
    again, and the timer of that call: [func] is applied to the arguments
    of the first call and then to [null]. *)
Example debounce_reentrant_call_lost :
  option_map (Debounce.invoked nat)
    (Debounce.run nat 150 (Debounce.start nat) reentrant)
  = Some [Some 1%nat; None].
Proof. reflexivity. Qed.

(** ** retry *)

Section RetryFacts.
Variables (V E num : Type).
Variable mul : num -> num -> num.
Variable pow : num -> nat -> num.
Variable operation : nat -> V + E.
Variables (delay backoff : num).

Let go := Retry.retry_go V E num mul pow operation delay backoff.

Let fails (i : nat) : Prop := exists e, operation i = inr e.

Lemma retry_go_succeeds (left : nat) :
  forall attempt lastError j v,
    (attempt <= j < attempt + left)%nat ->
    operation j = inl v ->
    (forall i, (attempt <= i < j)%nat -> fails i) ->
    fst (go left attempt lastError) = Retry.Returns V E v
    /\ map (Retry.r_attempt E num) (snd (go left attempt lastError))
       = seq attempt (j - attempt).
Proof.
  induction left as [|left IH]; intros attempt lastError j v Hj Hv Hf; [lia|].
  unfold go in *. cbn [Retry.retry_go].
  destruct (Nat.eq_dec j attempt) as [->|Hne].
  - rewrite Hv, Nat.sub_diag. now split.
  - destruct (Hf attempt ltac:(lia)) as (e & He). rewrite He.
    destruct (IH (S attempt) (Some e) j v ltac:(lia) Hv) as [I1 I2].
    { intros i Hi. apply Hf. lia. }
    destruct (Retry.retry_go V E num mul pow operation delay backoff left
                (S attempt) (Some e)) as [r log].
    cbn [fst snd] in *. split; [exact I1|].
    destruct left as [|left']; [lia|].
    cbn [map Retry.r_attempt]. rewrite I2.
    replace (j - attempt)%nat with (S (j - S attempt)) by lia. reflexivity.
Qed.

Lemma retry_go_fails (left : nat) :
  forall attempt lastError,
    (forall i, (attempt <= i < attempt + left)%nat -> fails i) ->
    fst (go left attempt lastError)
    = Retry.Throws V E
        match left with
        | O => lastError
        | S left' =>
            match operation (attempt + left') with
            | inr e => Some e
            | inl _ => None
            end
        end
    /\ map (Retry.r_attempt E num) (snd (go left attempt lastError))
       = seq attempt (left - 1).
Proof.
  induction left as [|left IH]; intros attempt lastError Hf; [now split|].
  unfold go in *. cbn [Retry.retry_go].
  destruct (Hf attempt ltac:(lia)) as (e & He). rewrite He.
  destruct (IH (S attempt) (Some e)) as [I1 I2].
  { intros i Hi. apply Hf. lia. }
  destruct (Retry.retry_go V E num mul pow operation delay backoff left
              (S attempt) (Some e)) as [r log].
  cbn [fst snd] in *. destruct left as [|left'].
  - rewrite Nat.add_0_r, He. now split.
  - split.
    + rewrite I1. now replace (attempt + S left')%nat with (S attempt + left')%nat
        by lia.
    + cbn [map Retry.r_attempt]. rewrite I2. cbn [Nat.sub].
      now rewrite Nat.sub_0_r.
Qed.

Lemma retry_go_log (left : nat) :
  forall attempt lastError,
    Forall (fun r =>
              Retry.r_wait E num r
              = mul delay (pow backoff (Retry.r_attempt E num r - 1)%nat)
              /\ operation (Retry.r_attempt E num r)
                 = inr (Retry.r_error E num r))
      (snd (go left attempt lastError)).
Proof.
  induction left as [|left IH]; intros attempt lastError; [constructor|].
  unfold go in *. cbn [Retry.retry_go].
  destruct (operation attempt) as [v|e] eqn:He; [constructor|].
  specialize (IH (S attempt) (Some e)).
  destruct (Retry.retry_go V E num mul pow operation delay backoff left
              (S attempt) (Some e)) as [r log].
  cbn [snd] in *. destruct left; [exact IH|].
  constructor; [|exact IH]. now split.
Qed.
End RetryFacts.

(** X15: [retry] returns the value of the first attempt that succeeds,
    among the first [attempts] ones, after calling [onRetry] once for each
    attempt that failed before it; when all [attempts] attempts fail it
    throws the error of the last one, after calling [onRetry] for all but
    the last, and with [attempts] 0 it makes no attempt and throws
    [undefined].  Every call of [onRetry] carries its attempt, the error of
    that attempt, and the wait [delay * backoff ^ (attempt - 1)]. *)
Theorem retry_first_success_or_last_error
    (V E num : Type) (mul : num -> num -> num) (pow : num -> nat -> num)
    (operation : nat -> V + E) (attempts : nat) (delay backoff : num) :
  let r := Retry.retry V E num mul pow operation attempts delay backoff in
  (forall j v, (1 <= j <= attempts)%nat -> operation j = inl v ->
     (forall i, (1 <= i < j)%nat -> exists e, operation i = inr e) ->
     fst r = Retry.Returns V E v
     /\ map (Retry.r_attempt E num) (snd r) = seq 1 (j - 1))
  /\ ((forall i, (1 <= i <= attempts)%nat -> exists e, operation i = inr e) ->
      fst r = Retry.Throws V E
                match attempts with
                | O => None
                | S _ => match operation attempts with
                         | inr e => Some e
                         | inl _ => None
                         end
                end
      /\ map (Retry.r_attempt E num) (snd r) = seq 1 (attempts - 1))
  /\ Forall (fun c =>
               Retry.r_wait E num c
               = mul delay (pow backoff (Retry.r_attempt E num c - 1)%nat)
               /\ operation (Retry.r_attempt E num c)
                  = inr (Retry.r_error E num c))
       (snd r).
Proof.
  cbv zeta. unfold Retry.retry. split; [|split].
  - intros j v Hj Hv Hf.
    apply (retry_go_succeeds V E num mul pow operation delay backoff
             attempts 1 None j v); [lia|exact Hv|].
    intros i Hi. apply Hf. lia.
  - intros Hf.
    destruct (retry_go_fails V E num mul pow operation delay backoff
                attempts 1 None) as [F1 F2].
    { intros i Hi. apply Hf. lia. }
    split; [|exact F2]. rewrite F1. destruct attempts; reflexivity.
  - apply retry_go_log.
Qed.

Lemma retry_first_success_or_last_error_witness :
  fst (Retry.retry nat nat nat Nat.mul Nat.pow thirdTime 3 1000 2)%nat
  = Retry.Returns nat nat 30%nat
  /\ fst (Retry.retry nat nat nat Nat.mul Nat.pow neverWorks 3 1000 2)%nat
     = Retry.Throws nat nat (Some 3%nat).
Proof.
  split.
  - apply (proj1 (retry_first_success_or_last_error nat nat nat
                    Nat.mul Nat.pow thirdTime 3 1000 2)%nat 3%nat 30%nat).
    + lia.
    + reflexivity.
    + intros i Hi. exists i. unfold thirdTime.
      destruct (Nat.ltb_spec i 3); [reflexivity|lia].
  - apply (proj1 (proj2 (retry_first_success_or_last_error nat nat nat
                    Nat.mul Nat.pow neverWorks 3 1000 2)%nat)).
    intros i _. now exists i.
Defined.

(** ** The link dialogue *)

Section ModalFacts.
Context {H : Host}.

Let inv (st : Modal.modal) (n : nat) : Prop :=
  Forall Modal.validated (Modal.confirmed st)
  /\ (Modal.isOpen st = false -> Modal.onConfirm st = false)
  /\ (length (Modal.confirmed st)
      + (if Modal.onConfirm st then 1 else 0) <= n)%nat.

Lemma modal_close_inv (st : Modal.modal) (n : nat) :
  inv st n -> inv (Modal.close st) n.
Proof.
  intros (Hv & Hc & Hn). unfold Modal.close.
  destruct (Modal.isOpen st) eqn:Eo; cbn [negb].
  - repeat split; cbn; auto.
    destruct (Modal.onConfirm st); lia.
  - repeat split; auto.
Qed.

Lemma modal_act_inv (st : Modal.modal) (a : Modal.action) (n : nat) :
  inv st n ->
  inv (Modal.act st a) (n + (if Modal.isOpens a then 1 else 0)).
Proof.
  intros (Hv & Hc & Hn).
  destruct a as [v cb|v| |]; cbn [Modal.act Modal.isOpens].
  - unfold Modal.open. destruct (Modal.isOpen st) eqn:Eo.
    + split; [exact Hv|]. split; [|lia].
      intros E. congruence.
    + specialize (Hc eq_refl). rewrite Hc in Hn.
      split; [exact Hv|]. split; cbn; [discriminate|].
      destruct cb; lia.
  - rewrite Nat.add_0_r. unfold Modal.typeInput. cbv zeta.
    destruct (truthy (trim v)); repeat split; auto.
  - rewrite Nat.add_0_r. unfold Modal.handleConfirm. cbv zeta.
    destruct (negb (truthy (trim (Modal.inputValue st))));
      [repeat split; auto|].
    destruct (valid (validateURL (JStr (trim (Modal.inputValue st)))))
      eqn:Ev; cbn [negb]; [|repeat split; auto].
    destruct (Modal.onConfirm st) eqn:Ec.
    + destruct (Modal.isOpen st) eqn:Eo;
        [|specialize (Hc eq_refl); discriminate].
      unfold Modal.close. cbn [Modal.isOpen negb].
      split; [|split]; cbn.
      * apply Forall_app. split; [exact Hv|]. repeat constructor.
        now exists (trim (Modal.inputValue st)).
      * reflexivity.
      * rewrite length_app. cbn [length]. lia.
    + apply modal_close_inv. split; [exact Hv|]. split; cbn.
      * intros _. reflexivity.
      * exact Hn.
  - rewrite Nat.add_0_r. now apply modal_close_inv.
Qed.

Lemma modal_run_inv (acts : list Modal.action) (st : Modal.modal)
    (n : nat) :
  inv st n ->
  inv (fold_left Modal.act acts st)
      (n + length (filter Modal.isOpens acts)).
Proof.
  revert st n. induction acts as [|a acts IH]; intros st n Hi.
  - cbn. now rewrite Nat.add_0_r.
  - cbn [fold_left filter].
    apply modal_act_inv with (a := a) in Hi. apply IH in Hi.
    destruct (Modal.isOpens a); cbn [length] in *.
    + now replace (n + S (length (filter Modal.isOpens acts)))%nat
        with (n + 1 + length (filter Modal.isOpens acts))%nat by lia.
    + now rewrite Nat.add_0_r in Hi.
Qed.

(** X16: whatever is done to the link dialogue after it is set up
    (opened, typed into, confirmed, cancelled, in any order), [onConfirm]
    is only ever called with an address that [validateURL] returned as
    valid, it is called at most once for each time the dialogue is opened,
    and a closed dialogue holds no callback. *)
Theorem modal_confirms_validated (hasErrorEl : bool)
    (acts : list Modal.action) :
  let st := fold_left Modal.act acts (Modal.newModal hasErrorEl) in
  Forall Modal.validated (Modal.confirmed st)
  /\ (length (Modal.confirmed st)
      <= length (filter Modal.isOpens acts))%nat
  /\ (Modal.isOpen st = false -> Modal.onConfirm st = false).
Proof.
  cbv zeta.
  assert (Hi : inv (Modal.newModal hasErrorEl) 0).
  { repeat split; cbn; auto. }
  apply (modal_run_inv acts) in Hi. destruct Hi as (Hv & Hc & Hn).
  repeat split; auto.
  cbn [Nat.add] in Hn.
  destruct (Modal.onConfirm _); lia.
Qed.

(** X17: confirming a blank or rejected address changes nothing but the
    error display: the dialogue stays as open as it was, the field keeps
    its value, no callback is called, the field is marked invalid and the
    error element, when the page has one, shows a message that is not
    empty. *)
Theorem modal_rejects_in_place (st : Modal.modal) :
  valid (validateURL (JStr (trim (Modal.inputValue st)))) = false ->
  let st' := Modal.handleConfirm st in
  Modal.isOpen st' = Modal.isOpen st
  /\ Modal.inputValue st' = Modal.inputValue st
  /\ Modal.onConfirm st' = Modal.onConfirm st
  /\ Modal.confirmed st' = Modal.confirmed st
  /\ Modal.ariaInvalid st' = true
  /\ (Modal.errorText st <> None ->
      exists m, m <> [] /\ Modal.errorText st' = Some m).
Proof.
  intros Hv. cbv zeta. unfold Modal.handleConfirm. cbv zeta.
  destruct (truthy (trim (Modal.inputValue st))) eqn:Et; cbn [negb].
  - rewrite Hv. cbn [negb]. repeat split; try reflexivity.
    intros He. cbn. destruct (Modal.errorText st); [|contradiction].
    destruct (error _) as [e|] eqn:Ee.
    + destruct (truthy e) eqn:Ete.
      * exists e. split; [|reflexivity]. intros ->. discriminate.
      * eexists. split; [|reflexivity]. discriminate.
    + eexists. split; [|reflexivity]. discriminate.
  - repeat split; try reflexivity.
    intros He. cbn. destruct (Modal.errorText st); [|contradiction].
    eexists. split; [|reflexivity]. discriminate.
Qed.
End ModalFacts.

Lemma modal_rejects_in_place_witness :
  Modal.isOpen
    (@Modal.handleConfirm simpleHost
       (Modal.open (lit "javascript:alert(1)") true (Modal.newModal true)))
  = true.
Proof.
  exact (proj1 (@modal_rejects_in_place simpleHost
                  (Modal.open (lit "javascript:alert(1)") true
                     (Modal.newModal true))
                  eq_refl)).
Defined.

(** ** The statistics display *)

Section StatsViewFacts.
Variable toLocaleString : Z -> jsstring.
Variable numberToString : Z -> jsstring.

Let update := StatsView.update toLocaleString numberToString.
Let formatNumber := StatsView.formatNumber toLocaleString.
Let formatReadingTime := StatsView.formatReadingTime numberToString.

(** The three elements show [l], each one that is there. *)
Let shows (w c t : option jsstring) (st : StatsView.statsDisplay)
    (l : StatsResult) : Prop :=
  StatsView.wordEl st
  = StatsView.setText w (formatNumber (JNum (Z.of_nat (words l))))
  /\ StatsView.charEl st
     = StatsView.setText c (formatNumber (JNum (Z.of_nat (characters l))))
  /\ StatsView.timeEl st
     = StatsView.setText t
         (formatReadingTime (Z.of_nat (readingTimeMinutes l))).

Let kept (w c t : option jsstring) (st : StatsView.statsDisplay) : Prop :=
  match StatsView.lastStats st with
  | Some l => shows w c t st l
  | None => StatsView.wordEl st = w /\ StatsView.charEl st = c
            /\ StatsView.timeEl st = t
  end.

Lemma unchanged_eq (l s : StatsResult) :
  StatsView.unchanged (Some l) s = true -> l = s.
Proof.
  destruct l as [lw lc lr], s as [sw sc sr]. cbn.
  rewrite !andb_true_iff, !Nat.eqb_eq. intros [[-> ->] ->]. reflexivity.
Qed.

Lemma setText_again (el : option jsstring) (a b : jsstring) :
  StatsView.setText (StatsView.setText el a) b = StatsView.setText el b.
Proof. now destruct el. Qed.

Lemma updateStats_kept (w c t : option jsstring)
    (st : StatsView.statsDisplay) (u : option StatsResult) :
  kept w c t st ->
  kept w c t (update st u)
  /\ StatsView.lastStats (update st u)
     = StatsView.lastGiven [u] (StatsView.lastStats st).
Proof.
  intros K. destruct u as [s|]; [|split; [exact K|reflexivity]].
  unfold update, StatsView.update.
  destruct (StatsView.unchanged (StatsView.lastStats st) s) eqn:E.
  - split; [exact K|]. cbn [StatsView.lastGiven].
    destruct (StatsView.lastStats st) as [l|]; [|discriminate].
    now rewrite (unchanged_eq l s E).
  - split; [|reflexivity]. unfold kept in *.
    cbn [StatsView.lastStats]. unfold shows.
    cbn [StatsView.wordEl StatsView.charEl StatsView.timeEl].
    destruct (StatsView.lastStats st) as [l|].
    + destruct K as (-> & -> & ->). now rewrite !setText_again.
    + destruct K as (-> & -> & ->). repeat split.
Qed.

Lemma updates_kept (w c t : option jsstring)
    (us : list (option StatsResult)) (st : StatsView.statsDisplay) :
  kept w c t st ->
  kept w c t (fold_left update us st)
  /\ StatsView.lastStats (fold_left update us st)
     = StatsView.lastGiven us (StatsView.lastStats st).
Proof.
  revert st. induction us as [|u us IH]; intros st K.
  - split; [exact K|reflexivity].
  - cbn [fold_left].
    destruct (updateStats_kept w c t st u K) as [K1 L1].
    destruct (IH _ K1) as [K2 L2]. split; [exact K2|].
    rewrite L2, L1. now destruct u.
Qed.

(** X18: a [StatsDisplay] shows the statistics it was given last: after
    any updates, of which some may be [null], every one of the three
    elements that the page has holds the formatting of the last statistics
    that were not [null], although an update with the same three numbers
    as the one before writes nothing. *)
Theorem statsDisplay_shows_last (w c t : option jsstring)
    (us : list (option StatsResult)) (s : StatsResult) :
  StatsView.lastGiven us None = Some s ->
  let st := fold_left update us
              (fst (StatsView.initialize w c t StatsView.newStatsDisplay)) in
  StatsView.wordEl st
  = StatsView.setText w (formatNumber (JNum (Z.of_nat (words s))))
  /\ StatsView.charEl st
     = StatsView.setText c (formatNumber (JNum (Z.of_nat (characters s))))
  /\ StatsView.timeEl st
     = StatsView.setText t
         (formatReadingTime (Z.of_nat (readingTimeMinutes s)))
  /\ StatsView.lastStats st = Some s.
Proof.
  intros L. cbv zeta.
  destruct (updates_kept w c t us
              (fst (StatsView.initialize w c t StatsView.newStatsDisplay)))
    as [K E].
  { unfold kept. cbn. repeat split. }
  cbn [StatsView.initialize fst StatsView.lastStats
       StatsView.newStatsDisplay] in E, K.
  rewrite L in E. unfold kept in K. rewrite E in K.
  destruct K as (Kw & Kc & Kt). repeat split; assumption.
Qed.
End StatsViewFacts.

Lemma statsDisplay_shows_last_witness :
  StatsView.timeEl
    (fold_left (StatsView.update (fun _ => lit "2") (fun _ => lit "2"))
       [Some {| words := 2; characters := 10; readingTimeMinutes := 1 |};
        None]
       (fst (StatsView.initialize (Some []) None (Some [])
               StatsView.newStatsDisplay)))
  = Some (lit "1 min").
Proof.
  exact (proj1 (proj2 (proj2
    (statsDisplay_shows_last (fun _ => lit "2") (fun _ => lit "2")
       (Some []) None (Some [])
       [Some {| words := 2; characters := 10; readingTimeMinutes := 1 |};
        None]
       {| words := 2; characters := 10; readingTimeMinutes := 1 |}
       eq_refl)))).
Defined.
